(** * Circuit analysis core of eco-vehicle-app: a shallow embedding

    The development follows [src/src/circuit]: [Component.hpp] and
    [BasicComponents.hpp] (components, pins, nodes), [CircuitAnalyzer.hpp]
    (assembly of the MNA system, the solve step, the transient and AC sweeps),
    [AdvancedAnalysis.hpp] (stability metrics and their sweep, the noise
    integral and spectrum, the sensitivity analysis), [RFOptimizer.hpp] and
    [AdvancedOptimizer.hpp] (the Nelder-Mead search, the coordinate updates
    of the other searches of the optimizer family, and the index selection
    of differential evolution).

    A C++ [double] is a primitive binary64 float of the kernel, so that every
    definition computes with the rounding, infinities and NaN of the source.
    What the source takes from outside this repository is a parameter: the
    dense solver of Eigen, the functions of <cmath> and the random engine.
    A loop that need not end takes a bound on its turns, and answers [None]
    when the bound is reached. *)

From Stdlib Require Import ZArith Floats Uint63 Bool.
From stdpp Require Import gmap strings list pretty.

Set Warnings "-inexact-float".

(* ===================================================================== *)
(** ** Numbers: [double] and [std::complex<double>] *)
(* ===================================================================== *)

Abbreviation double := float (only parsing).

Record Complex : Set := mkComplex { re : double; im : double }.

Module Num.
Local Open Scope float_scope.

Definition M_PI : double := 3.14159265358979323846.
Definition INFINITY : double := infinity.

(** Conversion of a C++ [int] to [double] (exact on the range of [int]). *)
Definition double_of_int (z : Z) : double :=
  if (z <? 0)%Z then - PrimFloat.of_uint63 (Uint63.of_Z (- z))
  else PrimFloat.of_uint63 (Uint63.of_Z z).

(** A double is finite when it is neither an infinity nor a NaN. *)
Definition is_finite (x : double) : bool :=
  negb (PrimFloat.is_nan x) && negb (PrimFloat.is_infinity x).

(** [std::clamp(v, lo, hi)]: [(v < lo) ? lo : (hi < v) ? hi : v]. *)
Definition clamp (v lo hi : double) : double :=
  if v <? lo then lo else if hi <? v then hi else v.

Definition C0 : Complex := mkComplex 0 0.
Definition Creal (x : double) : Complex := mkComplex x 0.

Definition Cadd (a b : Complex) : Complex := mkComplex (re a + re b) (im a + im b).
Definition Csub (a b : Complex) : Complex := mkComplex (re a - re b) (im a - im b).
Definition Cmul (a b : Complex) : Complex :=
  mkComplex (re a * re b - im a * im b) (re a * im b + im a * re b).
(** [operator/] of two complex numbers, by the defining formula of the
    quotient. The library may scale the operands and repair a NaN quotient
    of an infinite or zero divisor; no statement below rests on the value of
    such a quotient. *)
Definition Cdiv (a b : Complex) : Complex :=
  let d := re b * re b + im b * im b in
  mkComplex ((re a * re b + im a * im b) / d) ((im a * re b - re a * im b) / d).
(** [operator/] of a complex number by a [double]. *)
Definition Cdiv_real (a : Complex) (x : double) : Complex := mkComplex (re a / x) (im a / x).
Definition Cconj (a : Complex) : Complex := mkComplex (re a) (- im a).
(** [std::norm]: the squared modulus. *)
Definition Cnorm (a : Complex) : double := re a * re a + im a * im a.
(** [std::abs]: the modulus, as the square root of the squared modulus. The
    library computes a hypotenuse, which neither overflows nor underflows
    where the squares do. *)
Definition Cabs (a : Complex) : double := PrimFloat.sqrt (Cnorm a).
Definition Cfinite (a : Complex) : bool := is_finite (re a) && is_finite (im a).
Definition Cis_nan (a : Complex) : bool := PrimFloat.is_nan (re a) || PrimFloat.is_nan (im a).
End Num.
Import Num.

(** The functions of <cmath> the components and the sweeps call. *)
Record Libm : Set := mkLibm {
  m_exp : double -> double;
  m_cos : double -> double;
  m_sin : double -> double;
  m_log10 : double -> double;
  m_pow : double -> double -> double
}.

(* ===================================================================== *)
(** ** Outcomes of a call *)
(* ===================================================================== *)

(** The error taxonomy of the design. The source declares none of these
    types and contains no [throw]; the type is here so that "fails with"
    can be stated of the embedded functions. *)
Inductive Exception : Set := TopologyError | SingularMatrixError.

(** A call returns, raises, or goes out of the bounds of a vector or matrix
    (an Eigen assertion, or undefined behaviour in C++). *)
Inductive Outcome (A : Type) : Type :=
  | Returns (a : A)
  | Throws (e : Exception)
  | Undefined.
Arguments Returns {A} a.
Arguments Throws {A} e.
Arguments Undefined {A}.

Global Instance Outcome_ret : MRet Outcome := fun A a => Returns a.
Global Instance Outcome_bind : MBind Outcome := fun A B f o =>
  match o with
  | Returns a => f a
  | Throws e => Throws e
  | Undefined => Undefined
  end.

Definition of_option {A} (o : option A) : Outcome A :=
  match o with Some a => Returns a | None => Undefined end.

(** [foldM f l a]: a [for] loop over [l] threading the state [a]. *)
Fixpoint foldM {A B} (f : A -> B -> Outcome A) (l : list B) (a : A) : Outcome A :=
  match l with
  | [] => Returns a
  | x :: l' => a' ← f a x; foldM f l' a'
  end.

(** [mapM f l]: a loop that rebuilds every element of [l]. *)
Fixpoint mapM {A B} (f : A -> Outcome B) (l : list A) : Outcome (list B) :=
  match l with
  | [] => Returns []
  | x :: l' => y ← f x; ys ← mapM f l'; Returns (y :: ys)
  end.

(* ===================================================================== *)
(** ** Component.hpp: pins, nodes, components *)
(* ===================================================================== *)

(** A [Node] object is named by its address in the store of nodes. *)
Abbreviation NodeId := nat (only parsing).

Record Node : Set := mkNode { node_name : string; voltage_ : Complex }.

(** [Pin]: [node_] is the null pointer until [connectTo]. *)
Record Pin : Set := mkPin { pin_name : string; node_ : option NodeId }.

Definition connectTo (p : Pin) (n : NodeId) : Pin := mkPin (pin_name p) (Some n).

Inductive ComponentType : Set :=
  | RESISTOR | CAPACITOR | INDUCTOR | VOLTAGE_SOURCE | CURRENT_SOURCE
  | DIODE | TRANSISTOR | OPAMP | TRANSFORMER | GROUND.

Global Instance ComponentType_eq_dec : EqDecision ComponentType.
Proof. solve_decision. Defined.

(** The classes of [BasicComponents.hpp] with two pins, each with its
    private members. ([OpAmp] is left out: its [getVoltageAcross] compares a
    complex number with 0, which C++ gives no meaning.) *)
Inductive Derived : Set :=
  | ResistorD
  | CapacitorD (charge_ : double) (cap_frequency_ : double)
  | InductorD (flux_ : double) (ind_frequency_ : double)
  | VoltageSourceD (current_ : Complex) (current_time_ : double)
  | DiodeD.

Record Component : Type := mkComponent {
  name_ : string;
  type_ : ComponentType;
  pins_ : list Pin;
  parameters_ : gmap string double;
  derived : Derived
}.

Definition setParameter (c : Component) (name : string) (value : double) : Component :=
  mkComponent (name_ c) (type_ c) (pins_ c) (<[name := value]> (parameters_ c)) (derived c).

Definition getParameter (c : Component) (name : string) : double :=
  match parameters_ c !! name with
  | Some v => v
  | None => 0%float
  end.

Definition addPin (c : Component) (p : Pin) : Component :=
  mkComponent (name_ c) (type_ c) (pins_ c ++ [p]) (parameters_ c) (derived c).

Definition set_pins (c : Component) (ps : list Pin) : Component :=
  mkComponent (name_ c) (type_ c) ps (parameters_ c) (derived c).

Definition set_derived (c : Component) (d : Derived) : Component :=
  mkComponent (name_ c) (type_ c) (pins_ c) (parameters_ c) d.

(** [Component(name, type)]: no pin, no parameter. *)
Definition new_Component (name : string) (t : ComponentType) (d : Derived) : Component :=
  mkComponent name t [] ∅ d.

(** [pins_[i]->connectTo(node)] on a component. *)
Definition connectPin (c : Component) (i : nat) (n : NodeId) : Component :=
  match pins_ c !! i with
  | Some p => set_pins c (<[i := connectTo p n]> (pins_ c))
  | None => c
  end.

(* ===================================================================== *)
(** ** BasicComponents.hpp *)
(* ===================================================================== *)

Definition Resistor (name : string) (resistance : double) : Component :=
  addPin (addPin (setParameter (new_Component name RESISTOR ResistorD) "resistance" resistance)
    (mkPin "p1" None)) (mkPin "p2" None).

Definition Capacitor (name : string) (capacitance : double) : Component :=
  addPin (addPin (setParameter (new_Component name CAPACITOR (CapacitorD 0 0)) "capacitance" capacitance)
    (mkPin "p1" None)) (mkPin "p2" None).

Definition Inductor (name : string) (inductance : double) : Component :=
  addPin (addPin (setParameter (new_Component name INDUCTOR (InductorD 0 0)) "inductance" inductance)
    (mkPin "p1" None)) (mkPin "p2" None).

Definition VoltageSource (name : string) (voltage frequency : double) : Component :=
  addPin (addPin
    (setParameter (setParameter (new_Component name VOLTAGE_SOURCE (VoltageSourceD C0 0))
       "voltage" voltage) "frequency" frequency)
    (mkPin "p1" None)) (mkPin "p2" None).

Definition Diode (name : string) : Component :=
  addPin (addPin
    (setParameter (setParameter (new_Component name DIODE DiodeD) "is" 1e-12%float) "vt" 0.026%float)
    (mkPin "anode" None)) (mkPin "cathode" None).

Section Components.
Variable lm : Libm.
(** The [Node] objects of the program, by address. *)
Variable store : list Node.

Local Open Scope float_scope.

(** [pin->getNode()->getVoltage()]: a null or dangling pointer has no voltage. *)
Definition pinVoltage (c : Component) (i : nat) : Outcome Complex :=
  p ← of_option (pins_ c !! i);
  n ← of_option (node_ p);
  nd ← of_option (store !! n);
  Returns (voltage_ nd).

(** [pins_[0]->getNode()->getVoltage() - pins_[1]->getNode()->getVoltage()] *)
Definition pinDifference (c : Component) : Outcome Complex :=
  v1 ← pinVoltage c 0;
  v2 ← pinVoltage c 1;
  Returns (Csub v1 v2).

Definition getVoltageAcross (c : Component) : Outcome Complex :=
  match derived c with
  | VoltageSourceD _ t =>
      let freq := getParameter c "frequency" in
      if freq =? 0 then Returns (mkComplex (getParameter c "voltage") 0)
      else
        let omega := 2 * M_PI * freq in
        Returns (mkComplex (getParameter c "voltage" * m_cos lm (omega * t))
                           (getParameter c "voltage" * m_sin lm (omega * t)))
  | _ => pinDifference c
  end.

Definition getImpedance (c : Component) (frequency : double) : Outcome Complex :=
  match derived c with
  | ResistorD => Returns (mkComplex (getParameter c "resistance") 0)
  | CapacitorD _ _ =>
      if frequency =? 0 then Returns (mkComplex INFINITY 0)
      else
        let xc := 1 / (2 * M_PI * frequency * getParameter c "capacitance") in
        Returns (mkComplex 0 (- xc))
  | InductorD _ _ =>
      let xl := 2 * M_PI * frequency * getParameter c "inductance" in
      Returns (mkComplex 0 xl)
  | VoltageSourceD _ _ => Returns (mkComplex 0 0)
  | DiodeD =>
      va ← getVoltageAcross c;
      let v := Cabs va in
      let i_s := getParameter c "is" in
      let vt := getParameter c "vt" in
      let id := i_s * (m_exp lm (v / vt) - 1) in
      Returns (mkComplex (vt / id) 0)
  end.

Definition getCurrentThrough (c : Component) : Outcome Complex :=
  match derived c with
  | ResistorD =>
      v1 ← pinVoltage c 0;
      v2 ← pinVoltage c 1;
      Returns (Cdiv_real (Csub v1 v2) (getParameter c "resistance"))
  | CapacitorD _ f | InductorD _ f =>
      v ← getVoltageAcross c;
      z ← getImpedance c f;
      Returns (Cdiv v z)
  | VoltageSourceD i _ => Returns i
  | DiodeD =>
      va ← getVoltageAcross c;
      let v := Cabs va in
      let i_s := getParameter c "is" in
      let vt := getParameter c "vt" in
      Returns (mkComplex (i_s * (m_exp lm (v / vt) - 1)) 0)
  end.

Definition updateState (c : Component) (timestep : double) : Outcome Component :=
  match derived c with
  | ResistorD => Returns c
  | CapacitorD q f =>
      i ← getCurrentThrough c;
      Returns (set_derived c (CapacitorD (q + Cabs i * timestep) f))
  | InductorD phi f =>
      v ← getVoltageAcross c;
      Returns (set_derived c (InductorD (phi + Cabs v * timestep) f))
  | VoltageSourceD i t => Returns (set_derived c (VoltageSourceD i (t + timestep)))
  | DiodeD => Returns c
  end.
End Components.

Definition setCurrent (c : Component) (current : Complex) : Component :=
  match derived c with
  | VoltageSourceD _ t => set_derived c (VoltageSourceD current t)
  | _ => c
  end.

(* ===================================================================== *)
(** ** Eigen: dense complex matrices and vectors *)
(* ===================================================================== *)

Abbreviation Vector := (list Complex) (only parsing).
Abbreviation Matrix := (list (list Complex)) (only parsing).

(** [A.colPivHouseholderQr().solve(b)], read through [x(i)]. The solver is
    Eigen's and is a parameter of everything that calls it. *)
Definition Solver : Type := Matrix -> Vector -> nat -> Complex.

(** [VectorXcd::Zero(n)] and [MatrixXcd::Zero(r, c)]: a negative size is refused. *)
Definition VectorZero (n : Z) : Outcome Vector :=
  if (n <? 0)%Z then Undefined else Returns (replicate (Z.to_nat n) C0).

Definition MatrixZero (r c : Z) : Outcome Matrix :=
  if ((r <? 0) || (c <? 0))%Z then Undefined
  else Returns (replicate (Z.to_nat r) (replicate (Z.to_nat c) C0)).

(** [A(i, j)] read and written: an index outside the matrix is out of bounds. *)
Definition mat_get (A : Matrix) (i j : Z) : Outcome Complex :=
  if ((i <? 0) || (j <? 0))%Z then Undefined
  else row ← of_option (A !! Z.to_nat i); of_option (row !! Z.to_nat j).

Definition mat_set (A : Matrix) (i j : Z) (v : Complex) : Outcome Matrix :=
  if ((i <? 0) || (j <? 0))%Z then Undefined
  else
    row ← of_option (A !! Z.to_nat i);
    _ ← of_option (row !! Z.to_nat j);
    Returns (<[Z.to_nat i := <[Z.to_nat j := v]> row]> A).

(** [A(i, j) += y] and [A(i, j) -= y]. *)
Definition mat_add (A : Matrix) (i j : Z) (y : Complex) : Outcome Matrix :=
  v ← mat_get A i j; mat_set A i j (Cadd v y).

Definition mat_sub (A : Matrix) (i j : Z) (y : Complex) : Outcome Matrix :=
  v ← mat_get A i j; mat_set A i j (Csub v y).

Definition vec_set (b : Vector) (i : Z) (v : Complex) : Outcome Vector :=
  if (i <? 0)%Z then Undefined
  else _ ← of_option (b !! Z.to_nat i); Returns (<[Z.to_nat i := v]> b).

(** The product [A v], for stating that a matrix is singular. *)
Definition dot (r v : Vector) : Complex :=
  fold_left Cadd (zip_with Cmul r v) C0.

Definition mat_vec (A : Matrix) (v : Vector) : Vector := map (fun r => dot r v) A.

(** A square matrix with a non-zero vector in its kernel. *)
Definition singular (A : Matrix) : Prop :=
  exists v, length v = length A /\ v <> replicate (length A) C0 /\
            mat_vec A v = replicate (length A) C0.

(* ===================================================================== *)
(** ** CircuitAnalyzer.hpp *)
(* ===================================================================== *)

(** [std::map<double, std::vector<Complex>>]: the entries in key order. *)
Abbreviation FrequencyResponse := (list (double * list Complex)) (only parsing).

(** The analyzer with the [Node] objects its pointers lead to ([store],
    indexed by address). [voltage_sources_] holds pointers to components of
    the circuit: positions in [components_]. *)
Record CircuitAnalyzer : Type := mkAnalyzer {
  components_ : list Component;
  nodes_ : list NodeId;
  voltage_sources_ : list nat;
  ground_node_ : option NodeId;
  A_ : Matrix;
  b_ : Vector;
  current_frequency_ : double;
  time_ : double;
  timestep_ : double;
  next_node_id_ : Z;
  frequency_response_ : FrequencyResponse;
  store : list Node
}.

(** [CircuitAnalyzer() = default] with the member initialisers. *)
Definition new_CircuitAnalyzer : CircuitAnalyzer :=
  mkAnalyzer [] [] [] None [] [] 0%float 0%float 1e-6%float 0 [] [].

Definition with_components (a : CircuitAnalyzer) (cs : list Component) : CircuitAnalyzer :=
  mkAnalyzer cs (nodes_ a) (voltage_sources_ a) (ground_node_ a) (A_ a) (b_ a)
    (current_frequency_ a) (time_ a) (timestep_ a) (next_node_id_ a)
    (frequency_response_ a) (store a).

Definition with_store (a : CircuitAnalyzer) (st : list Node) : CircuitAnalyzer :=
  mkAnalyzer (components_ a) (nodes_ a) (voltage_sources_ a) (ground_node_ a) (A_ a) (b_ a)
    (current_frequency_ a) (time_ a) (timestep_ a) (next_node_id_ a)
    (frequency_response_ a) st.

Definition with_system (a : CircuitAnalyzer) (A : Matrix) (b : Vector) : CircuitAnalyzer :=
  mkAnalyzer (components_ a) (nodes_ a) (voltage_sources_ a) (ground_node_ a) A b
    (current_frequency_ a) (time_ a) (timestep_ a) (next_node_id_ a)
    (frequency_response_ a) (store a).

Definition with_frequency (a : CircuitAnalyzer) (f : double) : CircuitAnalyzer :=
  mkAnalyzer (components_ a) (nodes_ a) (voltage_sources_ a) (ground_node_ a) (A_ a) (b_ a)
    f (time_ a) (timestep_ a) (next_node_id_ a) (frequency_response_ a) (store a).

Definition with_time (a : CircuitAnalyzer) (t : double) : CircuitAnalyzer :=
  mkAnalyzer (components_ a) (nodes_ a) (voltage_sources_ a) (ground_node_ a) (A_ a) (b_ a)
    (current_frequency_ a) t (timestep_ a) (next_node_id_ a) (frequency_response_ a) (store a).

Definition with_response (a : CircuitAnalyzer) (r : FrequencyResponse) : CircuitAnalyzer :=
  mkAnalyzer (components_ a) (nodes_ a) (voltage_sources_ a) (ground_node_ a) (A_ a) (b_ a)
    (current_frequency_ a) (time_ a) (timestep_ a) (next_node_id_ a) r (store a).

(** [std::make_shared<Node>(name)]: a fresh address in the store. *)
Definition new_Node (st : list Node) (name : string) : NodeId * list Node :=
  (length st, st ++ [mkNode name C0]).

(** One turn of the loop of [addComponent] over the pins of the component. *)
Definition connect_fresh (acc : list Pin * list NodeId * list Node * Z) (p : Pin)
  : list Pin * list NodeId * list Node * Z :=
  let '(ps, ns, st, next) := acc in
  match node_ p with
  | Some _ => (ps ++ [p], ns, st, next)
  | None =>
      let '(n, st') := new_Node st ("n" +:+ pretty next) in
      (ps ++ [connectTo p n], ns ++ [n], st', (next + 1)%Z)
  end.

Definition addComponent (a : CircuitAnalyzer) (c : Component) : CircuitAnalyzer :=
  let '(ps, ns, st, next) :=
    fold_left connect_fresh (pins_ c) ([], nodes_ a, store a, next_node_id_ a) in
  mkAnalyzer (components_ a ++ [set_pins c ps]) ns (voltage_sources_ a) (ground_node_ a)
    (A_ a) (b_ a) (current_frequency_ a) (time_ a) (timestep_ a) next
    (frequency_response_ a) st.

Definition setGroundNode (a : CircuitAnalyzer) (node : option NodeId) : CircuitAnalyzer :=
  mkAnalyzer (components_ a) (nodes_ a) (voltage_sources_ a) node (A_ a) (b_ a)
    (current_frequency_ a) (time_ a) (timestep_ a) (next_node_id_ a)
    (frequency_response_ a) (store a).

(** The position of [n] in [l] counted from [i], or -1. *)
Fixpoint index_from (n : NodeId) (l : list NodeId) (i : Z) : Z :=
  match l with
  | [] => (-1)%Z
  | x :: l' => if decide (x = n) then i else index_from n l' (i + 1)%Z
  end.

Definition getNodeIndex (a : CircuitAnalyzer) (node : option NodeId) : Z :=
  if decide (node = ground_node_ a) then (-1)%Z
  else match node with
       | Some n => index_from n (nodes_ a) 0
       | None => (-1)%Z
       end.

Definition setVoltage (st : list Node) (n : NodeId) (v : Complex) : Outcome (list Node) :=
  nd ← of_option (st !! n); Returns (<[n := mkNode (node_name nd) v]> st).

Definition getNodeVoltages (a : CircuitAnalyzer) : Outcome (list Complex) :=
  mapM (fun n => nd ← of_option (store a !! n); Returns (voltage_ nd)) (nodes_ a).

(** The nodal stamp of an admittance [y] between the unknowns [n1] and [n2]
    (a negative index is the ground): the two [if] blocks of [buildMNA]. *)
Definition stamp (A : Matrix) (n1 n2 : Z) (y : Complex) : Outcome Matrix :=
  A ← (if (0 <=? n1)%Z then
         A ← mat_add A n1 n1 y;
         if (0 <=? n2)%Z then mat_sub A n1 n2 y else Returns A
       else Returns A);
  if (0 <=? n2)%Z then
    A ← mat_add A n2 n2 y;
    if (0 <=? n1)%Z then mat_sub A n2 n1 y else Returns A
  else Returns A.

(** [nodes_[i]->setVoltage(x(i))] *)
Definition store_voltage (ns : list NodeId) (x : nat -> Complex) (st : list Node) (i : nat)
  : Outcome (list Node) :=
  nd ← of_option (ns !! i); setVoltage st nd (x i).

Section Analyzer.
Variable qr : Solver.
Variable lm : Libm.

(** The conductance stamp of one component (the body of the first loop of
    [buildMNA]). *)
Definition stamp_component (a : CircuitAnalyzer) (A : Matrix) (c : Component)
  : Outcome Matrix :=
  if decide (type_ c = VOLTAGE_SOURCE) then Returns A
  else
    z ← getImpedance lm (store a) c (current_frequency_ a);
    let y := Cdiv (Creal 1) z in
    p0 ← of_option (pins_ c !! 0);
    p1 ← of_option (pins_ c !! 1);
    let n1 := getNodeIndex a (node_ p0) in
    let n2 := getNodeIndex a (node_ p1) in
    stamp A n1 n2 y.

(** The stamp of one voltage source (the body of the second loop). *)
Definition stamp_source (a : CircuitAnalyzer) (acc : Matrix * Vector * Z) (h : nat)
  : Outcome (Matrix * Vector * Z) :=
  let '(A, b, vsi) := acc in
  vs ← of_option (components_ a !! h);
  p0 ← of_option (pins_ vs !! 0);
  p1 ← of_option (pins_ vs !! 1);
  let n1 := getNodeIndex a (node_ p0) in
  let n2 := getNodeIndex a (node_ p1) in
  A ← (if (0 <=? n1)%Z then
         A ← mat_set A n1 vsi (Creal 1); mat_set A vsi n1 (Creal 1)
       else Returns A);
  A ← (if (0 <=? n2)%Z then
         A ← mat_set A n2 vsi (Creal (-1)); mat_set A vsi n2 (Creal (-1))
       else Returns A);
  v ← getVoltageAcross lm (store a) vs;
  b ← vec_set b vsi v;
  Returns (A, b, (vsi + 1)%Z).

Definition buildMNA (a : CircuitAnalyzer) : Outcome CircuitAnalyzer :=
  let n := (Z.of_nat (length (nodes_ a)) - 1)%Z in
  let m := Z.of_nat (length (voltage_sources_ a)) in
  let size := (n + m)%Z in
  A ← MatrixZero size size;
  b ← VectorZero size;
  A ← foldM (stamp_component a) (components_ a) A;
  '(A, b, _) ← foldM (stamp_source a) (voltage_sources_ a) (A, b, n);
  Returns (with_system a A b).

(** One turn of the loop of [solve] over the voltage sources. *)
Definition store_current (x : nat -> Complex) (acc : list Component * nat) (h : nat)
  : Outcome (list Component * nat) :=
  let '(cs, vsi) := acc in
  vs ← of_option (cs !! h);
  Returns (<[h := setCurrent vs (x vsi)]> cs, S vsi).

(** [nodes_.size() - 1] is unsigned: with no node the first loop runs off
    the end of [nodes_]. *)
Definition solve (a : CircuitAnalyzer) : Outcome CircuitAnalyzer :=
  let x := qr (A_ a) (b_ a) in
  match nodes_ a with
  | [] => Undefined
  | _ :: _ =>
      let n := (length (nodes_ a) - 1)%nat in
      st ← foldM (store_voltage (nodes_ a) x) (seq 0 n) (store a);
      '(cs, _) ← foldM (store_current x) (voltage_sources_ a) (components_ a, n);
      Returns (with_components (with_store a st) cs)
  end.

(** [for (auto& component : components_) component->updateState(dt)] *)
Definition update_all (a : CircuitAnalyzer) (dt : double) : Outcome CircuitAnalyzer :=
  cs ← mapM (fun c => updateState lm (store a) c dt) (components_ a);
  Returns (with_components a cs).

Definition updateComponents (a : CircuitAnalyzer) : Outcome CircuitAnalyzer :=
  update_all a (timestep_ a).

Definition analyze (a : CircuitAnalyzer) (frequency : double) : Outcome CircuitAnalyzer :=
  a ← buildMNA (with_frequency a frequency);
  a ← solve a;
  updateComponents a.

(** The body of the [while] loop of [performTransient], up to the clock. *)
Definition transient_step (a : CircuitAnalyzer) (timestep : double) : Outcome CircuitAnalyzer :=
  a ← analyze a 0%float;
  update_all a timestep.

(** [performTransient]: the loop runs while [t < stop_time]; [fuel] bounds
    the number of turns, and [None] says the bound was reached. *)
Fixpoint transient_loop (fuel : nat) (a : CircuitAnalyzer) (t stop_time timestep : double)
  : option (Outcome CircuitAnalyzer) :=
  if (t <? stop_time)%float then
    match fuel with
    | O => None
    | S fuel' =>
        match transient_step a timestep with
        | Returns a' =>
            let t' := (t + timestep)%float in
            transient_loop fuel' (with_time a' t') t' stop_time timestep
        | Throws e => Some (Throws e)
        | Undefined => Some Undefined
        end
    end
  else Some (Returns a).

Definition performTransient (fuel : nat) (a : CircuitAnalyzer) (stop_time timestep : double)
  : option (Outcome CircuitAnalyzer) :=
  transient_loop fuel a 0%float stop_time timestep.

(** The frequencies of [performAC], in the order they are pushed. *)
Definition ac_frequencies (start_freq stop_freq : double) (points : Z) : list double :=
  let log_start := m_log10 lm start_freq in
  let log_stop := m_log10 lm stop_freq in
  let step := ((log_stop - log_start) / double_of_int (points - 1))%float in
  map (fun i => m_pow lm 10%float (log_start + double_of_int (Z.of_nat i) * step)%float)
      (seq 0 (Z.to_nat points)).

(** [frequency_response_[freq] = v] on the ordered map: the entry of an
    equivalent key (neither less than the other) is overwritten. *)
Fixpoint map_assign (k : double) (v : list Complex) (m : FrequencyResponse)
  : FrequencyResponse :=
  match m with
  | [] => [(k, v)]
  | (k', v') :: m' =>
      if (k' <? k)%float then (k', v') :: map_assign k v m'
      else if (k <? k')%float then (k, v) :: m
      else (k', v) :: m'
  end.

Definition ac_sample (a : CircuitAnalyzer) (freq : double) : Outcome CircuitAnalyzer :=
  a ← analyze a freq;
  vs ← getNodeVoltages a;
  Returns (with_response a (map_assign freq vs (frequency_response_ a))).

Definition performAC (a : CircuitAnalyzer) (start_freq stop_freq : double) (points : Z)
  : Outcome CircuitAnalyzer :=
  foldM ac_sample (ac_frequencies start_freq stop_freq points) a.

End Analyzer.

(* ===================================================================== *)
(** ** AdvancedAnalysis.hpp: StabilityAnalyzer *)
(* ===================================================================== *)

(** A two-port matrix, [m[0][0] .. m[1][1]]. *)
Record TwoPort : Set := mkTwoPort { m00 : Complex; m01 : Complex; m10 : Complex; m11 : Complex }.

(** [StabilityMetrics]. The struct declares [delta] a [double] and the code
    assigns it the complex determinant and takes [std::norm] and [std::conj]
    of it; the field is given here the type of the value it is assigned. *)
Record StabilityMetrics : Set := mkStabilityMetrics {
  k_factor : double;
  delta : Complex;
  mu_source : double;
  mu_load : double;
  unconditionally_stable : bool
}.

(** [x * z] for a real [x]. *)
Definition Cscale (x : double) (z : Complex) : Complex :=
  mkComplex (x * re z)%float (x * im z)%float.

(** The conversion of [calculateSParameters], with [z0 = 50]. *)
Definition s_of_z (z : TwoPort) : TwoPort :=
  let z0 := mkComplex 50%float 0%float in
  let denominator :=
    Csub (Cmul (Cadd (m00 z) z0) (Cadd (m11 z) z0)) (Cmul (m01 z) (m10 z)) in
  mkTwoPort
    (Cdiv (Csub (Cmul (Csub (m00 z) z0) (Cadd (m11 z) z0)) (Cmul (m01 z) (m10 z))) denominator)
    (Cdiv (Cmul (Cscale 2%float z0) (m01 z)) denominator)
    (Cdiv (Cmul (Cscale 2%float z0) (m10 z)) denominator)
    (Cdiv (Csub (Cmul (Cadd (m00 z) z0) (Csub (m11 z) z0)) (Cmul (m01 z) (m10 z))) denominator).

(** The metrics [analyzeStability] computes from the S-parameters. *)
Definition stability_metrics (s : TwoPort) : StabilityMetrics :=
  let s11s11 := Cnorm (m00 s) in
  let s22s22 := Cnorm (m11 s) in
  let s21s12 := (Cnorm (m10 s) * Cnorm (m01 s))%float in
  let delta := Csub (Cmul (m00 s) (m11 s)) (Cmul (m10 s) (m01 s)) in
  let delta_sq := Cnorm delta in
  let k := ((1 - s11s11 - s22s22 + delta_sq) / (2 * PrimFloat.sqrt s21s12))%float in
  let mu_s := ((1 - s11s11) /
               (Cabs (Csub (m11 s) (Cmul (Cconj delta) (m00 s))) + Cabs (Cmul (m10 s) (m01 s))))%float in
  let mu_l := ((1 - s22s22) /
               (Cabs (Csub (m00 s) (Cmul (Cconj delta) (m11 s))) + Cabs (Cmul (m10 s) (m01 s))))%float in
  mkStabilityMetrics k delta mu_s mu_l ((1 <? k)%float && (delta_sq <? 1)%float).

Section Stability.
Variable qr : Solver.
Variable lm : Libm.

(** [calculateZParameters] analyses the circuit and returns the matrix it
    value-initialised: the four Z-parameters are left at zero. *)
Definition calculateZParameters (a : CircuitAnalyzer) (frequency : double)
  : Outcome (TwoPort * CircuitAnalyzer) :=
  a' ← analyze qr lm a frequency;
  Returns (mkTwoPort C0 C0 C0 C0, a').

Definition calculateSParameters (a : CircuitAnalyzer) (frequency : double)
  : Outcome (TwoPort * CircuitAnalyzer) :=
  '(z, a') ← calculateZParameters a frequency;
  Returns (s_of_z z, a').

Definition analyzeStability (a : CircuitAnalyzer) (frequency : double)
  : Outcome (StabilityMetrics * CircuitAnalyzer) :=
  '(s, a') ← calculateSParameters a frequency;
  Returns (stability_metrics s, a').

End Stability.

Section StabilitySweep.
Variable qr : Solver.
Variable lm : Libm.

(** [analyzeStabilityVsFrequency]: the metrics at [points] frequencies,
    spaced as those of [performAC]. *)
Definition analyzeStabilityVsFrequency (a : CircuitAnalyzer) (freq_start freq_stop : double)
    (points : Z) : Outcome (list StabilityMetrics * CircuitAnalyzer) :=
  let log_start := m_log10 lm freq_start in
  let log_stop := m_log10 lm freq_stop in
  let step := ((log_stop - log_start) / double_of_int (points - 1))%float in
  foldM (fun (acc : list StabilityMetrics * CircuitAnalyzer) i =>
           let f := m_pow lm 10%float (log_start + double_of_int (Z.of_nat i) * step)%float in
           '(m, a') ← analyzeStability qr lm acc.2 f;
           Returns (acc.1 ++ [m], a'))
        (seq 0 (Z.to_nat points)) ([], a).

End StabilitySweep.

(* ===================================================================== *)
(** ** AdvancedAnalysis.hpp: NoiseAnalyzer *)
(* ===================================================================== *)

Inductive NoiseType : Set := THERMAL | SHOT | FLICKER.

(** [NoiseAnalyzer::NoiseSource]; [component] is the object the shared
    pointer leads to, as it is when the noise is computed. *)
Record NoiseSource : Type := mkNoiseSource {
  noise_type : NoiseType;
  magnitude : double;
  component : Component
}.

Section Noise.
Variable lm : Libm.
Variable store : list Node.
Local Open Scope float_scope.

(** The body of the loop over the noise sources, at frequency [f]. *)
Definition noise_term (f : double) (noise : double) (source : NoiseSource) : Outcome double :=
  match noise_type source with
  | THERMAL =>
      let k := 1.380649e-23 in
      let T := 300 in
      z ← getImpedance lm store (component source) f;
      let R := Cabs z in
      Returns (noise + 4 * k * T * R)
  | SHOT =>
      let q := 1.602176634e-19 in
      i ← getCurrentThrough lm store (component source);
      let I := Cabs i in
      Returns (noise + 2 * q * I)
  | FLICKER => Returns (noise + magnitude source / f)
  end.

(** The [while (f <= frequency_stop)] loop of [calculateTotalNoise]; [fuel]
    bounds the number of turns, and [None] says the bound was reached. *)
Fixpoint total_noise_loop (fuel : nat) (noise_sources_ : list NoiseSource)
    (f frequency_stop total_noise : double) : option (Outcome double) :=
  if f <=? frequency_stop then
    match fuel with
    | O => None
    | S fuel' =>
        match foldM (noise_term f) noise_sources_ total_noise with
        | Returns total_noise' =>
            total_noise_loop fuel' noise_sources_ (f * 1.1) frequency_stop total_noise'
        | Throws e => Some (Throws e)
        | Undefined => Some Undefined
        end
    end
  else Some (Returns total_noise).

Definition calculateTotalNoise (fuel : nat) (noise_sources_ : list NoiseSource)
    (frequency_start frequency_stop : double) : option (Outcome double) :=
  total_noise_loop fuel noise_sources_ frequency_start frequency_stop 0.

Definition calculateNoiseSpectrum (noise_sources_ : list NoiseSource)
    (frequency_start frequency_stop : double) (points : Z) : Outcome (list double) :=
  let log_start := m_log10 lm frequency_start in
  let log_stop := m_log10 lm frequency_stop in
  let step := (log_stop - log_start) / double_of_int (points - 1) in
  foldM (fun spectrum i =>
           let f := m_pow lm 10 (log_start + double_of_int (Z.of_nat i) * step) in
           noise ← foldM (noise_term f) noise_sources_ 0;
           Returns (spectrum ++ [noise]))
        (seq 0 (Z.to_nat points)) [].

End Noise.

(* ===================================================================== *)
(** ** AdvancedAnalysis.hpp: SensitivityAnalyzer *)
(* ===================================================================== *)

Record SensitivityResult : Set := mkSensitivityResult {
  parameter : string;
  nominal_value : double;
  sensitivity : double;
  tolerance : double;
  worst_case_deviation : double
}.

(** [findComponentByParameter]: the placeholder returns the null pointer. A
    pointer to a component of the circuit is its position in [components_]. *)
Definition findComponentByParameter (a : CircuitAnalyzer) (param : string) : option nat :=
  None.

Section Sensitivity.
Variable qr : Solver.
Variable lm : Libm.
Local Open Scope float_scope.

(** One turn of the loop of [analyzeSensitivity] over the parameters. *)
Definition sensitivity_of (parameters : list string) (tolerances : list double)
    (frequency : double) (nominal_response : list Complex)
    (acc : list SensitivityResult * CircuitAnalyzer) (i : nat)
  : Outcome (list SensitivityResult * CircuitAnalyzer) :=
  let '(results, a) := acc in
  param ← of_option (parameters !! i);
  tol ← of_option (tolerances !! i);
  h ← of_option (findComponentByParameter a param);
  component ← of_option (components_ a !! h);
  let nominal := getParameter component param in
  let delta := nominal * 0.01 in
  let a := with_components a
             (<[h := setParameter component param (nominal + delta)]> (components_ a)) in
  a ← analyze qr lm a frequency;
  perturbed_response ← getNodeVoltages a;
  component ← of_option (components_ a !! h);
  let a := with_components a (<[h := setParameter component param nominal]> (components_ a)) in
  p0 ← of_option (perturbed_response !! 0%nat);
  n0 ← of_option (nominal_response !! 0%nat);
  let sens := Cabs (Cdiv_real (Csub p0 n0) (delta / nominal)) in
  Returns (results ++ [mkSensitivityResult param nominal sens tol (sens * tol * nominal)], a).

Definition analyzeSensitivity (a : CircuitAnalyzer) (parameters : list string)
    (tolerances : list double) (frequency : double)
  : Outcome (list SensitivityResult * CircuitAnalyzer) :=
  a ← analyze qr lm a frequency;
  nominal_response ← getNodeVoltages a;
  foldM (sensitivity_of parameters tolerances frequency nominal_response)
        (seq 0 (length parameters)) ([], a).

End Sensitivity.

(* ===================================================================== *)
(** ** RFOptimizer.hpp and AdvancedOptimizer.hpp: the Nelder-Mead search *)
(* ===================================================================== *)

Module Optimizer.

(** [RFOptimizer::Parameter] ([Parameter] is a reserved word here). *)
Record Param : Set := mkParam {
  name : string;
  min_value : double;
  max_value : double;
  current_value : double
}.

Inductive ObjectiveType : Set := MINIMIZE | MAXIMIZE | TARGET.

Record Objective : Set := mkObjective {
  objective_name : string;
  type : ObjectiveType;
  target_value : double;
  weight : double
}.

Record RFOptimizer : Type := mkOptimizer {
  parameters_ : list Param;
  objectives_ : list Objective;
  measurement_func_ : list Param -> list double
}.

Definition with_current (p : Param) (x : double) : Param :=
  mkParam (name p) (min_value p) (max_value p) x.

(** The invariant of a parameter: [min_value <= current_value <= max_value]. *)
Definition in_bounds (p : Param) : bool :=
  ((min_value p <=? current_value p) && (current_value p <=? max_value p))%float.

(** [p.current_value = std::clamp(v, p.min_value, p.max_value)] *)
Definition clamped (p : Param) (v : double) : Param :=
  with_current p (clamp v (min_value p) (max_value p)).

(** The update of one coordinate of a particle in [optimizeParticleSwarm]:
    the new velocity, and the position moved by it and clamped. *)
Definition pso_velocity (w c1 c2 r1 r2 : double) (velocity position best global_best : Param)
  : Param :=
  with_current velocity
    (w * current_value velocity
     + c1 * r1 * (current_value best - current_value position)
     + c2 * r2 * (current_value global_best - current_value position))%float.

Definition pso_position (position velocity : Param) : Param :=
  clamped position (current_value position + current_value velocity)%float.

(** One coordinate of the trial vector of [DifferentialEvolution::optimize]. *)
Definition de_trial (F : double) (trial x1 x2 x3 : Param) : Param :=
  clamped trial (current_value x1 + F * (current_value x2 - current_value x3))%float.

(** The test of the [do ... while] loop of [DifferentialEvolution::optimize]
    that draws three indices: the loop goes round again while two of them,
    or one of them and [i], are the same. *)
Definition drawn_again (r1 r2 r3 i : Z) : bool :=
  ((r1 =? r2) || (r2 =? r3) || (r1 =? r3) || (r1 =? i) || (r2 =? i) || (r3 =? i))%Z.

(** The loop, for the draws [ints k] of [uniformInt(0, population_size - 1)]
    taken in order from the [k]-th on; [fuel] bounds the number of turns,
    and [None] says the bound was reached. *)
Fixpoint select_three (fuel : nat) (ints : nat -> Z) (k : nat) (i : Z)
  : option (Z * Z * Z * nat) :=
  match fuel with
  | O => None
  | S fuel' =>
      let r1 := ints k in
      let r2 := ints (S k) in
      let r3 := ints (S (S k)) in
      if drawn_again r1 r2 r3 i then select_three fuel' ints (S (S (S k))) i
      else Some (r1, r2, r3, S (S (S k)))
  end.

(** One coordinate of [SimulatedAnnealing::generateNeighbor], for the
    canonical draw [u] behind [uniformReal(-range, range)]. *)
Definition sa_neighbor (temp u : double) (param : Param) : Param :=
  let range := ((max_value param - min_value param) * temp / 100)%float in
  clamped param (current_value param + (u * (range - - range) + - range))%float.

(** What a run has consumed and done so far: the number of draws taken from
    the random engine, and the vectors passed to [measurement_func_], in
    order. *)
Record Run : Set := mkRun { draws : nat; measured : list (list Param) }.

Section Search.
(** The random engine: [rng k] is the [k]-th canonical draw, in [0, 1). *)
Variable rng : nat -> double.
Variable o : RFOptimizer.

(** [std::uniform_real_distribution<double>(min, max)(rng_)]: the canonical
    draw [u] scaled to [u * (max - min) + min]. *)
Definition uniformDist (r : Run) (lo hi : double) : double * Run :=
  ((rng (draws r) * (hi - lo) + lo)%float, mkRun (S (draws r)) (measured r)).

Definition generateRandomIndividual (r : Run) : list Param * Run :=
  fold_left (fun acc p =>
               let '(x, r') := uniformDist acc.2 (min_value p) (max_value p) in
               (acc.1 ++ [with_current p x], r'))
            (parameters_ o) ([], r).

Definition objective_term (fitness : double) (obj : Objective) (value : double) : double :=
  match type obj with
  | MINIMIZE => (fitness - weight obj * value)%float
  | MAXIMIZE => (fitness + weight obj * value)%float
  | TARGET => (fitness - weight obj * PrimFloat.abs (value - target_value obj))%float
  end.

Definition evaluateFitness (r : Run) (individual : list Param) : Outcome (double * Run) :=
  let measurements := measurement_func_ o individual in
  let r' := mkRun (draws r) (measured r ++ [individual]) in
  fitness ← foldM (fun fitness i =>
                     obj ← of_option (objectives_ o !! i);
                     value ← of_option (measurements !! i);
                     Returns (objective_term fitness obj value))
                  (seq 0 (length (objectives_ o))) 0%float;
  Returns (fitness, r').

(** [-evaluateFitness(individual)] *)
Definition value_of (r : Run) (individual : list Param) : Outcome (double * Run) :=
  '(f, r') ← evaluateFitness r individual; Returns ((- f)%float, r').

(** [NelderMead::reflect] *)
Definition reflect (centroid point : list Param) (coefficient : double)
  : Outcome (list Param) :=
  foldM (fun result i =>
           c ← of_option (centroid !! i);
           p ← of_option (point !! i);
           ri ← of_option (result !! i);
           let v := (current_value c + coefficient * (current_value c - current_value p))%float in
           Returns (<[i := clamped ri v]> result))
        (seq 0 (length (parameters_ o))) centroid.

(** [std::sort] of the indices by [values[i1] < values[i2]] (by insertion;
    [std::sort] leaves the order of equal values open). *)
Fixpoint insert_index (values : list double) (i : nat) (sorted : list nat) : list nat :=
  match sorted with
  | [] => [i]
  | j :: rest =>
      if (nth i values nan <? nth j values nan)%float then i :: sorted
      else j :: insert_index values i rest
  end.

Definition sort_order (values : list double) (n : nat) : list nat :=
  fold_left (fun sorted i => insert_index values i sorted) (seq 0 n) [].

(** [std::min_element]: the first position of a least value. *)
Definition min_element (values : list double) : nat :=
  fold_left (fun best i =>
               if (nth i values nan <? nth best values nan)%float then i else best)
            (seq 1 (length values - 1)) 0%nat.

Abbreviation Simplex := (list (list Param) * list double * Run)%type (only parsing).

(** The centroid of all points but the worst. *)
Definition centroid_of (simplex : list (list Param)) (order : list nat)
  : Outcome (list Param) :=
  first ← of_option (order !! 0%nat);
  c0 ← of_option (simplex !! first);
  c ← foldM (fun c i =>
               oi ← of_option (order !! i);
               pt ← of_option (simplex !! oi);
               foldM (fun c j =>
                        cj ← of_option (c !! j);
                        pj ← of_option (pt !! j);
                        Returns (<[j := with_current cj (current_value cj + current_value pj)%float]> c))
                     (seq 0 (length (parameters_ o))) c)
            (seq 1 (length order - 2)) c0;
  Returns (map (fun p => with_current p
                 (current_value p / double_of_int (Z.of_nat (length order) - 1))%float) c).

(** The shrink step: every point but [simplex[0]] is moved towards
    [simplex[0]] and measured; the moved point is not clamped. *)
Definition shrink (sigma : double) (s : Simplex) : Outcome Simplex :=
  foldM (fun (s : Simplex) i =>
           let '(simplex, values, r) := s in
           point ← of_option (simplex !! i);
           si ← foldM (fun si j =>
                         s0 ← of_option (simplex !! 0%nat);
                         x0 ← of_option (s0 !! j);
                         xi ← of_option (si !! j);
                         Returns (<[j := with_current xi
                                     (current_value x0
                                      + sigma * (current_value xi - current_value x0))%float]> si))
                      (seq 0 (length (parameters_ o))) point;
           let simplex' := <[i := si]> simplex in
           '(v, r') ← value_of r si;
           _ ← of_option (values !! i);
           Returns (simplex', <[i := v]> values, r'))
        (seq 1 (length s.1.1 - 1)) s.

(** One turn of the main loop; [None] is the [break] on convergence. *)
Definition iteration (alpha gamma rho sigma tolerance : double) (s : Simplex)
  : Outcome (option Simplex) :=
  let '(simplex, values, r) := s in
  let order := sort_order values (length simplex) in
  first ← of_option (order !! 0%nat);
  back ← of_option (last order);
  v_first ← of_option (values !! first);
  v_back ← of_option (values !! back);
  if (v_back - v_first <? tolerance)%float then Returns None
  else
    centroid ← centroid_of simplex order;
    worst ← of_option (simplex !! back);
    reflected ← reflect centroid worst alpha;
    '(reflected_value, r) ← value_of r reflected;
    second ← (if (length order <? 2)%nat then Undefined
              else of_option (order !! (length order - 2)%nat));
    v_second ← of_option (values !! second);
    if ((reflected_value <? v_second) && (v_first <=? reflected_value))%float then
      Returns (Some (<[back := reflected]> simplex, <[back := reflected_value]> values, r))
    else if (reflected_value <? v_first)%float then
      expanded ← reflect centroid worst gamma;
      '(expanded_value, r) ← value_of r expanded;
      if (expanded_value <? reflected_value)%float then
        Returns (Some (<[back := expanded]> simplex, <[back := expanded_value]> values, r))
      else
        Returns (Some (<[back := reflected]> simplex, <[back := reflected_value]> values, r))
    else
      contracted ← reflect centroid worst (- rho)%float;
      '(contracted_value, r) ← value_of r contracted;
      if (contracted_value <? v_back)%float then
        Returns (Some (<[back := contracted]> simplex, <[back := contracted_value]> values, r))
      else
        s' ← shrink sigma (simplex, values, r); Returns (Some s').

Fixpoint main_loop (iterations : nat) (alpha gamma rho sigma tolerance : double) (s : Simplex)
  : Outcome Simplex :=
  match iterations with
  | O => Returns s
  | S k =>
      t ← iteration alpha gamma rho sigma tolerance s;
      match t with
      | None => Returns s
      | Some s' => main_loop k alpha gamma rho sigma tolerance s'
      end
  end.

(** The initial simplex: a random point and, for each parameter, the point
    moved by 5% of the range of that parameter, clamped. *)
Definition initial_simplex (r : Run) : Outcome Simplex :=
  let '(x0, r) := generateRandomIndividual r in
  '(v0, r) ← value_of r x0;
  foldM (fun (s : Simplex) i =>
           let '(simplex, values, r) := s in
           s0 ← of_option (simplex !! 0%nat);
           p ← of_option (s0 !! i);
           let moved := (current_value p + 0.05 * (max_value p - min_value p))%float in
           let point := <[i := clamped p moved]> s0 in
           '(v, r) ← value_of r point;
           Returns (simplex ++ [point], values ++ [v], r))
        (seq 0 (length (parameters_ o))) ([x0], [v0], r).

(** [NelderMead::optimize] *)
Definition NelderMead_optimize (r : Run) (alpha gamma rho sigma tolerance : double)
    (max_iterations : Z) : Outcome (list Param * Run) :=
  s ← initial_simplex r;
  '(simplex, values, r) ← main_loop (Z.to_nat max_iterations) alpha gamma rho sigma tolerance s;
  best ← of_option (simplex !! min_element values);
  Returns (best, r).

End Search.
End Optimizer.

(* ===================================================================== *)
(** ** Example circuits *)
(* ===================================================================== *)

(** A source [V1] of [V] volts DC over [R1] = 1 kOhm in series with
    [R2] = 2 kOhm. [R1] is added first and gets the nodes at addresses 0
    (top) and 1 (midpoint); the source is connected to the top node and gets
    the fresh node 2 for its return pin; [R2] goes from the midpoint to node
    2, which is then made the ground. *)
Definition voltage_divider (V : double) : CircuitAnalyzer :=
  let a := addComponent new_CircuitAnalyzer (Resistor "R1" 1000%float) in
  let a := addComponent a (connectPin (VoltageSource "V1" V 0%float) 0 0) in
  let a := addComponent a (connectPin (connectPin (Resistor "R2" 2000%float) 0 1) 1 2) in
  setGroundNode a (Some 2).

(** The matrix [buildMNA] assembles for the divider: the conductances
    1/1000 and 1/2000 of the two resistors, and nothing of the source. *)
Definition divider_matrix : Matrix :=
  [[mkComplex 0.001%float 0%float; mkComplex (-0.001)%float 0%float];
   [mkComplex (-0.001)%float 0%float; mkComplex 0.0015%float 0%float]].

(** A resistor between two nodes of its own, beside a source whose return
    pin is the ground: no path leads from the resistor, or from the live pin
    of the source, to the ground. *)
Definition floating_circuit : CircuitAnalyzer :=
  let a := addComponent new_CircuitAnalyzer (Resistor "R1" 1000%float) in
  let a := addComponent a (VoltageSource "V1" 10%float 0%float) in
  setGroundNode a (Some 3).

Definition floating_matrix : Matrix :=
  [[mkComplex 0.001%float 0%float; mkComplex (-0.001)%float 0%float; C0];
   [mkComplex (-0.001)%float 0%float; mkComplex 0.001%float 0%float; C0];
   [C0; C0; C0]].

(** A lone source, added to a fresh analyzer; [setGroundNode] is never called. *)
Definition ungrounded_source : CircuitAnalyzer :=
  addComponent new_CircuitAnalyzer (VoltageSource "V1" 10%float 0%float).

(** The same source with its return pin grounded. *)
Definition grounded_source : CircuitAnalyzer :=
  setGroundNode ungrounded_source (Some 1).

(** The grounded source after one [analyze(0)] with the solver and the
    <cmath> of the examples below. *)
Definition grounded_source_analysed : CircuitAnalyzer :=
  mkAnalyzer
    [set_derived (connectPin (connectPin (VoltageSource "V1" 10%float 0%float) 0 0) 1 1)
       (VoltageSourceD C0 (0 + 1e-6)%float)]
    [0%nat; 1%nat] [] (Some 1%nat) [[C0]] [C0] 0%float 0%float 1e-6%float 2 []
    [mkNode "n0" C0; mkNode "n1" C0].

(** A solver to run the examples with: it answers with the right-hand side
    (the solution of [I x = b]), and so with zero when [b] is zero. *)
Definition identity_solver : Solver := fun _ b i => nth i b C0.

(** <cmath> to run the examples with: only the values the examples meet. *)
Definition table_libm : Libm :=
  mkLibm (fun x => if (x =? 0)%float then 1%float else nan)
         (fun x => if (x =? 0)%float then 1%float else nan)
         (fun x => if (x =? 0)%float then 0%float else nan)
         (fun x => if (x =? 1)%float then 0%float else nan)
         (fun x y => if (y =? 0)%float then 1%float else nan).

(** The circuit of [example.cpp]: a source, a resistor, a capacitor and a
    resistor, each added with pins of its own, and the return pin of the
    source (the second node of eight) as the ground. *)
Definition example_circuit : CircuitAnalyzer :=
  let a := addComponent new_CircuitAnalyzer (VoltageSource "V1" 10%float 0%float) in
  let a := addComponent a (Resistor "R1" 1000%float) in
  let a := addComponent a (Capacitor "C1" 1e-6%float) in
  let a := addComponent a (Resistor "R2" 2000%float) in
  setGroundNode a (Some 1).

(** A store with two nodes at 0 V and a diode across them. *)
Definition diode_at_rest : Component := connectPin (connectPin (Diode "D1") 0 0) 1 1.
Definition two_nodes_at_rest : list Node := [mkNode "n0" C0; mkNode "n1" C0].

(** A measurement with a narrow dip: 0 at 9.375, 0.5 at 9.875, 1 elsewhere. *)
Definition dip (individual : list Optimizer.Param) : list double :=
  match individual with
  | p :: _ =>
      if (Optimizer.current_value p =? 9.375)%float then [0%float]
      else if (Optimizer.current_value p =? 9.875)%float then [0.5%float]
      else [1%float]
  | [] => []
  end.

(** One parameter [x] in [0, 10], initially 5, and one objective to minimise. *)
Definition dip_optimizer : Optimizer.RFOptimizer :=
  Optimizer.mkOptimizer
    [Optimizer.mkParam "x" 0%float 10%float 5%float]
    [Optimizer.mkObjective "m" Optimizer.MINIMIZE 0%float 1%float]
    dip.

(** An engine whose every canonical draw is 15/16. *)
Definition constant_engine (k : nat) : double := 0.9375%float.

(** <cmath> for a sweep over the decades from 1 to 1000. *)
Definition decade_libm : Libm :=
  mkLibm (fun _ => nan) (fun _ => nan) (fun _ => nan)
         (fun x => if (x =? 1)%float then 0%float else if (x =? 10)%float then 1%float
                   else if (x =? 100)%float then 2%float
                   else if (x =? 1000)%float then 3%float else nan)
         (fun x y => if (y =? 0)%float then 1%float else if (y =? 1)%float then 10%float
                     else if (y =? 2)%float then 100%float
                     else if (y =? 3)%float then 1000%float else nan).

(** A solver that answers 1 V everywhere. *)
Definition constant_solver : Solver := fun _ _ _ => Creal 1%float.

(** The second resistor of [example.cpp], as [addComponent] leaves it. *)
Definition example_R2 : Component :=
  connectPin (connectPin (Resistor "R2" 2000%float) 0 6) 1 7.

(** A diode with its pins on the two nodes of [two_nodes_at_rest]. *)
Definition diode_pins : list Pin := [mkPin "anode" (Some 0%nat); mkPin "cathode" (Some 1%nat)].

(** An inductor across the two nodes of [two_nodes_at_rest]. *)
Definition inductor_at_rest : Component :=
  connectPin (connectPin (Inductor "L1" 1e-3%float) 0 0) 1 1.

(** The divider after one [analyze(0)] under the solver that answers 1 V. *)
Definition divider_analysed : CircuitAnalyzer :=
  Eval vm_compute in
    match analyze constant_solver table_libm (voltage_divider 10%float) 0%float with
    | Returns a => a
    | _ => new_CircuitAnalyzer
    end.

(** Three S-matrices with real entries: a matched lossy two-port
    (K = 2.075, |delta| = 0.24), one that reflects too much (K < 1), and one
    with gain at its ports (K > 1 but |delta| > 1). *)
Definition lossy_two_port : TwoPort :=
  mkTwoPort (Creal 0.1) (Creal 0.5) (Creal 0.5) (Creal 0.1).
Definition reflective_two_port : TwoPort :=
  mkTwoPort (Creal 0.9) (Creal 0.5) (Creal 0.5) (Creal 0.9).
Definition active_two_port : TwoPort :=
  mkTwoPort (Creal 2) (Creal 0.1) (Creal 0.1) (Creal 2).

(** The draws 0, 1, 2, 0, 1, 2, ... of [uniformInt(0, 2)]. *)
Definition round_robin (k : nat) : Z := Z.of_nat (k mod 3).

(* ===================================================================== *)
(** ** Predicates and measures for the proofs *)
(* ===================================================================== *)

(** A run of [setParameter] calls on one component. *)
Definition setParameters (c : Component) (sets : list (string * double)) : Component :=
  fold_left (fun c kv => setParameter c kv.1 kv.2) sets c.

(** A call that raises nothing: it returns or it is undefined. *)
Definition no_throw {A} (o : Outcome A) : Prop := forall e, o <> Throws e.

(** The analyzers a program can hold: the fresh one, what the public member
    functions make of one, and one whose components and nodes were changed
    through the pointers the program shares with it. *)
Inductive built : CircuitAnalyzer -> Prop :=
  | built_new : built new_CircuitAnalyzer
  | built_addComponent a c : built a -> built (addComponent a c)
  | built_setGroundNode a n : built a -> built (setGroundNode a n)
  | built_analyze qr lm a f a' :
      built a -> analyze qr lm a f = Returns a' -> built a'
  | built_performTransient qr lm fuel a stop_time dt a' :
      built a -> performTransient qr lm fuel a stop_time dt = Some (Returns a') -> built a'
  | built_performAC qr lm a start_freq stop_freq points a' :
      built a -> performAC qr lm a start_freq stop_freq points = Returns a' -> built a'
  | built_shared a cs st : built a -> built (with_components (with_store a st) cs).

(** Whether a call returns is decided by the shape of its arguments: the
    dimensions of the matrix, the length of the store, the pins and the class
    of a component; never by a voltage or a matrix entry. *)
Definition is_defined {A} (o : Outcome A) : bool :=
  match o with Returns _ => true | _ => false end.

Definition dims (A : Matrix) : list nat := map length A.

(** [(i, j)] is an entry of a matrix of dimensions [d]. *)
Definition mat_touch (d : list nat) (i j : Z) : bool :=
  if ((i <? 0) || (j <? 0))%Z then false
  else match d !! Z.to_nat i with
       | Some r => bool_decide (Z.to_nat j < r)
       | None => false
       end.

(** The first and the second [if] block of the stamp. *)
Definition stamp_half (A : Matrix) (n1 n2 : Z) (y : Complex) : Outcome Matrix :=
  if (0 <=? n1)%Z then
    A ← mat_add A n1 n1 y;
    if (0 <=? n2)%Z then mat_sub A n1 n2 y else Returns A
  else Returns A.

Definition stamp_half_ok (d : list nat) (n1 n2 : Z) : bool :=
  if (0 <=? n1)%Z then
    mat_touch d n1 n1 && (if (0 <=? n2)%Z then mat_touch d n1 n2 else true)
  else true.

Definition stamp_ok (d : list nat) (n1 n2 : Z) : bool :=
  stamp_half_ok d n1 n2 && stamp_half_ok d n2 n1.

(** Pin [i] leads to a node of a store of [n] nodes. *)
Definition pin_ok (n : nat) (ps : list Pin) (i : nat) : bool :=
  match ps !! i with
  | Some p => match node_ p with
              | Some k => bool_decide (k < n)
              | None => false
              end
  | None => false
  end.

Definition pins_ok (n : nat) (ps : list Pin) : bool := pin_ok n ps 0 && pin_ok n ps 1.

Definition voltage_ok (n : nat) (c : Component) : bool :=
  match derived c with
  | VoltageSourceD _ _ => true
  | _ => pins_ok n (pins_ c)
  end.

Definition impedance_ok (n : nat) (c : Component) : bool :=
  match derived c with
  | DiodeD => pins_ok n (pins_ c)
  | _ => true
  end.

Definition update_ok (n : nat) (c : Component) : bool :=
  match derived c with
  | CapacitorD _ _ | InductorD _ _ => pins_ok n (pins_ c)
  | _ => true
  end.

(** Two components of one class with the same type and pins. *)
Definition same_class (d d' : Derived) : Prop :=
  match d, d' with
  | ResistorD, ResistorD
  | CapacitorD _ _, CapacitorD _ _
  | InductorD _ _, InductorD _ _
  | VoltageSourceD _ _, VoltageSourceD _ _
  | DiodeD, DiodeD => True
  | _, _ => False
  end.

Definition same_shape (c c' : Component) : Prop :=
  type_ c = type_ c' /\ pins_ c = pins_ c' /\ parameters_ c = parameters_ c'
  /\ same_class (derived c) (derived c').

(** A component whose impedance is a function of its parameters and of the
    frequency alone: any but a diode, which reads the voltage across it. *)
Definition state_free (c : Component) : bool :=
  match derived c with
  | DiodeD => false
  | _ => true
  end.

Definition stamp_component_ok (a : CircuitAnalyzer) (d : list nat) (c : Component) : bool :=
  if decide (type_ c = VOLTAGE_SOURCE) then true
  else
    impedance_ok (length (store a)) c &&
    match pins_ c !! 0, pins_ c !! 1 with
    | Some p0, Some p1 => stamp_ok d (getNodeIndex a (node_ p0)) (getNodeIndex a (node_ p1))
    | _, _ => false
    end.

(** Two analyzers that lay the same nodes out in the same way. *)
Definition same_frame (a a' : CircuitAnalyzer) : Prop :=
  nodes_ a = nodes_ a' /\ ground_node_ a = ground_node_ a'
  /\ length (store a) = length (store a').

(** The last voltage the write-back of [solve] stores at address [n], if any. *)
Fixpoint last_write (ns : list NodeId) (x : nat -> Complex) (idxs : list nat) (n : NodeId)
  : option Complex :=
  match idxs with
  | [] => None
  | i :: rest =>
      match last_write ns x rest n with
      | Some v => Some v
      | None => if decide (ns !! i = Some n) then Some (x i) else None
      end
  end.

Definition with_voltage (v : option Complex) (nd : Node) : Node :=
  match v with
  | Some v => mkNode (node_name nd) v
  | None => nd
  end.

(** [nodes_[i]] is a node of a store of [len] nodes. *)
Definition write_ok (ns : list NodeId) (len : nat) (i : nat) : bool :=
  match ns !! i with
  | Some nd => bool_decide (nd < len)
  | None => false
  end.

(** The number of unknowns: the nodes but one. *)
Definition unknowns (a : CircuitAnalyzer) : nat := (length (nodes_ a) - 1)%nat.

(** The state [analyze] returns when [voltage_sources_] is empty. *)
Definition analysed (a : CircuitAnalyzer) (f : double) (A : Matrix) (st : list Node)
    (cs : list Component) : CircuitAnalyzer :=
  mkAnalyzer cs (nodes_ a) [] (ground_node_ a) A (replicate (unknowns a) C0) f
    (time_ a) (timestep_ a) (next_node_id_ a) (frequency_response_ a) st.

(** The layout under which [analyze] returns, when no voltage source is
    registered: there is a node; every component that is not a source has
    its first two pins, on unknowns of the matrix (and on nodes of the
    store, for a diode); the nodes written back are nodes of the store; and
    the capacitors and inductors have their pins on nodes of the store. *)
Definition analyze_ok (a : CircuitAnalyzer) : bool :=
  match nodes_ a with
  | [] => false
  | _ :: _ =>
      forallb (stamp_component_ok a (replicate (unknowns a) (unknowns a))) (components_ a)
      && forallb (write_ok (nodes_ a) (length (store a))) (seq 0 (unknowns a))
      && forallb (update_ok (length (store a))) (components_ a)
  end.

(** Every node of [nodes_] is a node of the store. *)
Definition nodes_alive (a : CircuitAnalyzer) : bool :=
  forallb (fun n => bool_decide (n < length (store a))) (nodes_ a).

(** What a caller sees of a component: all but the private members. *)
Definition same_interface (c c' : Component) : Prop :=
  name_ c' = name_ c /\ type_ c' = type_ c /\ pins_ c' = pins_ c
  /\ parameters_ c' = parameters_ c.

(** The pins without a node among the first [j] pins. *)
Definition fresh_before (j : nat) (pins : list Pin) : nat :=
  length (filter (fun p => node_ p = None) (take j pins)).

(** The [k] nodes [addComponent] makes from the counter [next] on: named
    ["n" + std::to_string(next)], ..., each at 0 V. *)
Definition fresh_nodes (next : Z) (k : nat) : list Node :=
  map (fun i => mkNode ("n" +:+ pretty (next + Z.of_nat i)%Z) C0) (seq 0 k).

(** What the loop of [addComponent] makes of pin [j]: a pin with a node is
    left as it is, a pin without one is connected to the node made for it,
    at the address after those made for the pins before it. *)
Definition connected (base : nat) (pins : list Pin) (j : nat) (p : Pin) : Pin :=
  match node_ p with
  | Some _ => p
  | None => connectTo p (base + fresh_before j pins)
  end.

(** [A(i, j)] for natural indices, when it is an entry. *)
Definition entry (A : Matrix) (i j : nat) : option Complex :=
  row ← A !! i; row !! j.

Definition symmetric (A : Matrix) : Prop := forall i j, entry A i j = entry A j i.

(** A run of [updateState] calls on one component, as [updateComponents]
    and the transient loop make them. *)
Definition updateStates (lm : Libm) (st : list Node) (c : Component) (dts : list double)
  : Outcome Component :=
  foldM (fun c dt => updateState lm st c dt) dts c.

(** The value [reflect] computes for one coordinate, before the clamp. *)
Definition reflected (coefficient : double) (c p : Optimizer.Param) : double :=
  (Optimizer.current_value c
   + coefficient * (Optimizer.current_value c - Optimizer.current_value p))%float.

(** The keys of the ordered map increase strictly. *)
Fixpoint keys_increase (m : FrequencyResponse) : bool :=
  match m with
  | [] => true
  | (k, _) :: rest =>
      match rest with
      | [] => true
      | (k', _) :: _ => (k <? k')%float && keys_increase rest
      end
  end.

(** The key of an entry is a number (not a NaN). *)
Definition key_is_number (kv : double * list Complex) : Prop := PrimFloat.is_nan kv.1 = false.

(** A double that is not below zero: a zero, a positive number, the positive
    infinity, or a NaN. *)
Definition not_negative (x : float) : Prop :=
  match Prim2SF x with
  | S754_finite true _ _ | S754_infinity true => False
  | _ => True
  end.

(** The determinant of an S-matrix as the design writes it:
    S11 S22 - S12 S21. *)
Definition determinant (s : TwoPort) : Complex :=
  Csub (Cmul (m00 s) (m11 s)) (Cmul (m01 s) (m10 s)).

(** [|d| < 1] for the modulus by its defining formula, the square root of
    [re^2 + im^2]. *)
Definition modulus_below_one (d : Complex) : bool :=
  (PrimFloat.sqrt (re d * re d + im d * im d) <? 1)%float.

(* ===================================================================== *)
(** * Properties *)
(* ===================================================================== *)

(* ===================================================================== *)
(** ** Component parameters *)
(* ===================================================================== *)

Lemma getParameter_setParameter_ne c k v name :
  k <> name -> getParameter (setParameter c k v) name = getParameter c name.
Proof.
  intros Hne. unfold getParameter, setParameter. cbn.
  by rewrite lookup_insert_ne.
Qed.

Lemma getParameter_setParameter_eq c k v :
  getParameter (setParameter c k v) k = v.
Proof. unfold getParameter, setParameter. cbn. by rewrite lookup_insert_eq. Qed.

Lemma getParameter_setParameters c sets name :
  name ∉ sets.*1 -> getParameter (setParameters c sets) name = getParameter c name.
Proof.
  revert c. induction sets as [|[k v] sets IH]; intros c Hnot; [done|].
  rewrite fmap_cons in Hnot. apply not_elem_of_cons in Hnot as [Hne Hnot].
  change (setParameters c ((k, v) :: sets)) with (setParameters (setParameter c k v) sets).
  rewrite IH by done. apply getParameter_setParameter_ne. cbn in Hne. congruence.
Qed.

(** C10. A parameter name that no [setParameter] call has set reads as 0.0:
    for a component whose parameter map has no entry for [name], and after
    any further run of [setParameter] calls on other names, [getParameter]
    returns 0.0. The query is a function of the component alone ([find] on
    the map, never [operator[]]): it has no component to return, so the map
    is what it was. *)
Theorem getParameter_unset (c : Component) (sets : list (string * double)) (name : string) :
  parameters_ c !! name = None ->
  name ∉ sets.*1 ->
  getParameter (setParameters c sets) name = 0%float.
Proof.
  intros Hnone Hnot. rewrite getParameter_setParameters by done.
  unfold getParameter. by rewrite Hnone.
Qed.

Lemma getParameter_unset_witness :
  getParameter (setParameters (Resistor "R1" 1000%float) [("tolerance"%string, 0.05%float)])
    "capacitance" = 0%float.
Proof.
  apply getParameter_unset.
  - vm_compute. reflexivity.
  - cbn. intros H. apply list_elem_of_singleton in H. discriminate H.
Defined.

(* ===================================================================== *)
(** ** Impedance at the edge of the domain *)
(* ===================================================================== *)

(** C7, as the code has it. At frequency 0 a capacitor returns the sentinel
    [Complex(INFINITY, 0)]: the real part is +infinity, not a large finite
    number; neither part is a NaN. *)
Theorem capacitor_impedance_at_zero_frequency (lm : Libm) (st : list Node)
    (name : string) (capacitance : double) :
  getImpedance lm st (Capacitor name capacitance) 0%float = Returns (mkComplex infinity 0%float)
  /\ Cis_nan (mkComplex infinity 0%float) = false
  /\ Cfinite (mkComplex infinity 0%float) = false.
Proof. repeat split. Qed.

(** C7 as stated fails: the impedance of a 1 uF capacitor at frequency 0 is
    not finite. *)
Lemma capacitor_impedance_not_bounded :
  exists z, (forall lm st, getImpedance lm st (Capacitor "C1" 1e-6%float) 0%float = Returns z)
            /\ Cfinite z = false.
Proof. exists (mkComplex infinity 0%float). split; [intros; reflexivity | reflexivity]. Qed.

(** The diode has no guard for a zero current: with no voltage across it
    the current is [is * (exp(0) - 1) = 0] and the impedance [vt / 0]. *)
Lemma diode_impedance_at_zero_volts (lm : Libm) :
  m_exp lm 0%float = 1%float ->
  getImpedance lm two_nodes_at_rest diode_at_rest 0%float = Returns (mkComplex infinity 0%float).
Proof.
  intros Hexp. unfold getImpedance. cbn.
  change (m_exp lm (_ / _)%float) with (m_exp lm 0%float). rewrite Hexp. reflexivity.
Qed.

(* ===================================================================== *)
(** ** Reasoning on outcomes *)
(* ===================================================================== *)

Lemma bind_Returns {A B} (o : Outcome A) (f : A -> Outcome B) (b : B) :
  o ≫= f = Returns b -> exists a, o = Returns a /\ f a = Returns b.
Proof. destruct o as [a| |]; cbn; [eauto | discriminate | discriminate]. Qed.

Lemma foldM_app {A B} (f : A -> B -> Outcome A) (l1 l2 : list B) (a : A) :
  foldM f (l1 ++ l2) a = foldM f l1 a ≫= foldM f l2.
Proof.
  revert a. induction l1 as [|x l1 IH]; intros a; cbn; [done|].
  destruct (f a x) as [a'| |]; cbn; [apply IH | done | done].
Qed.

Lemma foldM_ext {A B} (f g : A -> B -> Outcome A) (l : list B) (a : A) :
  (forall a x, x ∈ l -> f a x = g a x) -> foldM f l a = foldM g l a.
Proof.
  revert a. induction l as [|x l IH]; intros a Hfg; cbn; [done|].
  rewrite Hfg by left. destruct (g a x) as [a'| |]; cbn; [|done|done].
  apply IH. intros a0 y Hy. apply Hfg. by right.
Qed.

Lemma no_throw_Returns {A} (a : A) : no_throw (Returns a).
Proof. intros e; discriminate. Qed.

Lemma no_throw_Undefined {A} : no_throw (@Undefined A).
Proof. intros e; discriminate. Qed.

Lemma no_throw_of_option {A} (o : option A) : no_throw (of_option o).
Proof. destruct o; intros e; discriminate. Qed.

Lemma no_throw_bind {A B} (o : Outcome A) (f : A -> Outcome B) :
  no_throw o -> (forall a, no_throw (f a)) -> no_throw (o ≫= f).
Proof.
  intros Ho Hf. destruct o as [a| e |]; cbn.
  - apply Hf.
  - destruct (Ho e eq_refl).
  - apply no_throw_Undefined.
Qed.

Lemma no_throw_foldM {A B} (f : A -> B -> Outcome A) (l : list B) (a : A) :
  (forall a x, no_throw (f a x)) -> no_throw (foldM f l a).
Proof.
  intros Hf. revert a. induction l as [|x l IH]; intros a; cbn.
  - apply no_throw_Returns.
  - apply no_throw_bind; [apply Hf | apply IH].
Qed.

Lemma no_throw_mapM {A B} (f : A -> Outcome B) (l : list A) :
  (forall x, no_throw (f x)) -> no_throw (mapM f l).
Proof.
  intros Hf. induction l as [|x l IH]; cbn.
  - apply no_throw_Returns.
  - apply no_throw_bind; [apply Hf | intros y].
    apply no_throw_bind; [apply IH | intros ys; apply no_throw_Returns].
Qed.

Create HintDb outcome discriminated.
#[export] Hint Resolve no_throw_Returns no_throw_Undefined no_throw_of_option : outcome.

(** Decomposes a goal [no_throw e] along the binds, tests and matches of [e]. *)
Ltac no_throw_step :=
  match goal with
  | |- no_throw (Returns _) => apply no_throw_Returns
  | |- no_throw Undefined => apply no_throw_Undefined
  | |- no_throw (of_option _) => apply no_throw_of_option
  | |- no_throw (mbind _ _) => apply no_throw_bind; [| intros ?]
  | |- no_throw (foldM _ _ _) => apply no_throw_foldM; intros ? ?
  | |- no_throw (mapM _ _) => apply no_throw_mapM; intros ?
  | |- no_throw (if ?b then _ else _) => destruct b
  | |- no_throw (match ?x with _ => _ end) => destruct x
  | |- no_throw (let '(_, _) := ?x in _) => destruct x
  end.

Ltac no_throw_tac := repeat no_throw_step.

Lemma no_throw_mat_get A i j : no_throw (mat_get A i j).
Proof. unfold mat_get. no_throw_tac. Qed.

Lemma no_throw_mat_set A i j v : no_throw (mat_set A i j v).
Proof. unfold mat_set. no_throw_tac. Qed.

Lemma no_throw_mat_add A i j y : no_throw (mat_add A i j y).
Proof. unfold mat_add. no_throw_tac; [apply no_throw_mat_get | apply no_throw_mat_set]. Qed.

Lemma no_throw_mat_sub A i j y : no_throw (mat_sub A i j y).
Proof. unfold mat_sub. no_throw_tac; [apply no_throw_mat_get | apply no_throw_mat_set]. Qed.

Lemma no_throw_vec_set b i v : no_throw (vec_set b i v).
Proof. unfold vec_set. no_throw_tac. Qed.

Lemma no_throw_pinVoltage st c i : no_throw (pinVoltage st c i).
Proof. unfold pinVoltage. no_throw_tac. Qed.

Lemma no_throw_getVoltageAcross lm st c : no_throw (getVoltageAcross lm st c).
Proof.
  unfold getVoltageAcross, pinDifference.
  no_throw_tac; apply no_throw_pinVoltage.
Qed.

Lemma no_throw_getImpedance lm st c f : no_throw (getImpedance lm st c f).
Proof.
  unfold getImpedance. no_throw_tac. apply no_throw_getVoltageAcross.
Qed.

Lemma no_throw_getCurrentThrough lm st c : no_throw (getCurrentThrough lm st c).
Proof.
  unfold getCurrentThrough.
  no_throw_tac;
    first [apply no_throw_pinVoltage | apply no_throw_getVoltageAcross
          | apply no_throw_getImpedance].
Qed.

Lemma no_throw_updateState lm st c dt : no_throw (updateState lm st c dt).
Proof.
  unfold updateState.
  no_throw_tac; first [apply no_throw_getCurrentThrough | apply no_throw_getVoltageAcross].
Qed.

#[export] Hint Resolve no_throw_mat_get no_throw_mat_set no_throw_mat_add no_throw_mat_sub
  no_throw_vec_set no_throw_pinVoltage no_throw_getVoltageAcross no_throw_getImpedance
  no_throw_getCurrentThrough no_throw_updateState : outcome.

Section AnalyzerNeverThrows.
Variable qr : Solver.
Variable lm : Libm.

Lemma no_throw_stamp_component a A c : no_throw (stamp_component lm a A c).
Proof. unfold stamp_component, stamp. no_throw_tac; auto with outcome. Qed.

Lemma no_throw_stamp_source a acc h : no_throw (stamp_source lm a acc h).
Proof.
  unfold stamp_source. destruct acc as [[A b] vsi].
  no_throw_tac; auto with outcome.
Qed.

Lemma no_throw_buildMNA a : no_throw (buildMNA lm a).
Proof.
  unfold buildMNA, MatrixZero, VectorZero.
  no_throw_tac; auto using no_throw_stamp_component, no_throw_stamp_source with outcome.
Qed.

Lemma no_throw_solve a : no_throw (solve qr a).
Proof.
  unfold solve, store_current, store_voltage, setVoltage. no_throw_tac; auto with outcome.
Qed.

Lemma no_throw_update_all a dt : no_throw (update_all lm a dt).
Proof. unfold update_all. no_throw_tac; auto with outcome. Qed.

Lemma no_throw_analyze a f : no_throw (analyze qr lm a f).
Proof.
  unfold analyze, updateComponents.
  no_throw_tac; auto using no_throw_buildMNA, no_throw_solve, no_throw_update_all.
Qed.

End AnalyzerNeverThrows.

(* ===================================================================== *)
(** ** The voltage sources never reach the system *)
(* ===================================================================== *)

(** No member function inserts into [voltage_sources_]: [addComponent]
    pushes to [components_] and [nodes_] only. *)
Lemma addComponent_voltage_sources a c :
  voltage_sources_ (addComponent a c) = voltage_sources_ a.
Proof.
  unfold addComponent.
  destruct (fold_left _ _ _) as [[[ps ns] st] next]. reflexivity.
Qed.

Lemma setGroundNode_voltage_sources a n :
  voltage_sources_ (setGroundNode a n) = voltage_sources_ a.
Proof. reflexivity. Qed.

Section Frames.
Variable qr : Solver.
Variable lm : Libm.

(** What each step of [analyze] leaves untouched. *)
Lemma buildMNA_frame a a' :
  buildMNA lm a = Returns a' -> exists A b, a' = with_system a A b.
Proof.
  unfold buildMNA. intros H.
  apply bind_Returns in H as (A0 & _ & H). apply bind_Returns in H as (b0 & _ & H).
  apply bind_Returns in H as (A1 & _ & H). apply bind_Returns in H as ([[A b] vsi] & _ & H).
  injection H as <-. eauto.
Qed.

Lemma solve_frame a a' :
  solve qr a = Returns a' -> exists st cs, a' = with_components (with_store a st) cs.
Proof.
  unfold solve. destruct (nodes_ a); [discriminate|]. intros H.
  apply bind_Returns in H as (st & _ & H). apply bind_Returns in H as ([cs vsi] & _ & H).
  injection H as <-. eauto.
Qed.

Lemma update_all_frame a dt a' :
  update_all lm a dt = Returns a' -> exists cs, a' = with_components a cs.
Proof.
  unfold update_all. intros H. apply bind_Returns in H as (cs & _ & H).
  injection H as <-. eauto.
Qed.

Lemma analyze_voltage_sources a f a' :
  analyze qr lm a f = Returns a' -> voltage_sources_ a' = voltage_sources_ a.
Proof.
  unfold analyze, updateComponents. intros H.
  apply bind_Returns in H as (a1 & H1 & H). apply bind_Returns in H as (a2 & H2 & H).
  apply buildMNA_frame in H1 as (A & b & ->).
  apply solve_frame in H2 as (st & cs & ->).
  apply update_all_frame in H as (cs' & ->). reflexivity.
Qed.

Lemma transient_voltage_sources fuel a t stop_time dt a' :
  transient_loop qr lm fuel a t stop_time dt = Some (Returns a') ->
  voltage_sources_ a' = voltage_sources_ a.
Proof.
  revert a t. induction fuel as [|fuel IH]; intros a t; cbn.
  - destruct (t <? stop_time)%float; [discriminate|]. by intros [= <-].
  - destruct (t <? stop_time)%float; [|by intros [= <-]].
    destruct (transient_step qr lm a dt) as [a1| |] eqn:E; [|discriminate|discriminate].
    intros H. apply IH in H. rewrite H. cbn.
    unfold transient_step in E. apply bind_Returns in E as (a0 & H0 & E).
    apply analyze_voltage_sources in H0. apply update_all_frame in E as (cs & ->).
    exact H0.
Qed.

Lemma performAC_voltage_sources a start_freq stop_freq points a' :
  performAC qr lm a start_freq stop_freq points = Returns a' ->
  voltage_sources_ a' = voltage_sources_ a.
Proof.
  unfold performAC. generalize (ac_frequencies lm start_freq stop_freq points) as fs.
  intros fs. revert a. induction fs as [|f fs IH]; intros a; cbn.
  - by intros [= <-].
  - intros H. apply bind_Returns in H as (a1 & H1 & H). apply IH in H. rewrite H.
    unfold ac_sample in H1. apply bind_Returns in H1 as (a0 & H0 & H1).
    apply bind_Returns in H1 as (vs & _ & [= <-]).
    by apply analyze_voltage_sources in H0.
Qed.

End Frames.

(** The defect behind C1 and C3: in no analyzer a program can hold does
    [voltage_sources_] have an element. *)
Lemma built_voltage_sources a : built a -> voltage_sources_ a = [].
Proof.
  induction 1 as [|a c _ IH|a n _ IH|qr lm a f a' _ IH H|qr lm fuel a st dt a' _ IH H
                 |qr lm a f1 f2 pts a' _ IH H|a cs st _ IH].
  - reflexivity.
  - by rewrite addComponent_voltage_sources.
  - exact IH.
  - by rewrite (analyze_voltage_sources _ _ _ _ _ H).
  - by rewrite (transient_voltage_sources _ _ _ _ _ _ _ _ H).
  - by rewrite (performAC_voltage_sources _ _ _ _ _ _ _ H).
  - exact IH.
Qed.

(** For every circuit a program can build, the system [analyze] leaves
    behind has a zero right-hand side: no source contributes to it. *)
Lemma analyze_rhs_zero (qr : Solver) (lm : Libm) (a : CircuitAnalyzer) (f : double)
    (a' : CircuitAnalyzer) :
  built a -> analyze qr lm a f = Returns a' ->
  b_ a' = replicate (length (nodes_ a) - 1) C0.
Proof.
  intros Hb H. apply built_voltage_sources in Hb.
  unfold analyze, updateComponents in H.
  apply bind_Returns in H as (a1 & H1 & H). apply bind_Returns in H as (a2 & H2 & H).
  apply solve_frame in H2 as (st & cs & ->).
  apply update_all_frame in H as (cs' & ->). cbn.
  unfold buildMNA in H1. cbn [voltage_sources_ with_frequency nodes_] in H1.
  rewrite Hb in H1. cbn [length foldM] in H1.
  apply bind_Returns in H1 as (A0 & _ & H1). apply bind_Returns in H1 as (b0 & Hb0 & H1).
  apply bind_Returns in H1 as (A1 & _ & H1). cbn in H1. injection H1 as <-. cbn.
  unfold VectorZero in Hb0. destruct (_ <? 0)%Z; [discriminate|].
  injection Hb0 as <-. f_equal. lia.
Qed.

(** C1 on the 10 V divider. [analyze(0)] returns, but the system it solves
    has the conductances of the two resistors and a zero right-hand side:
    the voltage [V] of the source is nowhere in it. The node voltages are
    whatever the solver answers for [A x = 0]; the voltages of Ohm's and
    Kirchhoff's laws (10 V and 6.667 V) do not solve the assembled system. *)
Theorem analyze_divider_drops_source (qr : Solver) (lm : Libm) (V : double) :
  exists a',
    analyze qr lm (voltage_divider V) 0%float = Returns a'
    /\ A_ a' = divider_matrix
    /\ b_ a' = [C0; C0]
    /\ getNodeVoltages a' =
         Returns [qr divider_matrix [C0; C0] 0%nat; qr divider_matrix [C0; C0] 1%nat; C0]
    /\ mat_vec divider_matrix [C0; C0] = [C0; C0]
    /\ mat_vec divider_matrix [Creal 10%float; Creal (20 / 3)%float] <> [C0; C0].
Proof.
  eexists. split; [vm_compute; reflexivity|].
  repeat split; try (vm_compute; reflexivity).
  vm_compute. discriminate.
Qed.

(* ===================================================================== *)
(** ** No error is ever raised *)
(* ===================================================================== *)

(** C2, as the code has it. [analyze] has no check of the matrix: for no
    circuit, singular or not, does it fail with [SingularMatrixError]. *)
Theorem analyze_never_reports_singular (qr : Solver) (lm : Libm)
    (a : CircuitAnalyzer) (f : double) :
  analyze qr lm a f <> Throws SingularMatrixError.
Proof. apply no_throw_analyze. Qed.

(** C2 as stated fails on the floating circuit: its matrix has the vector
    (0, 0, 1) in its kernel, and [analyze] returns with the answer of the
    solver written to the nodes. *)
Lemma floating_node_goes_undetected :
  singular floating_matrix
  /\ forall (qr : Solver) (lm : Libm),
       exists a',
         analyze qr lm floating_circuit 0%float = Returns a'
         /\ A_ a' = floating_matrix
         /\ getNodeVoltages a' =
              Returns [qr floating_matrix [C0; C0; C0] 0%nat;
                       qr floating_matrix [C0; C0; C0] 1%nat;
                       qr floating_matrix [C0; C0; C0] 2%nat; C0].
Proof.
  split.
  - exists [C0; C0; Creal 1%float].
    split; [reflexivity|]. split; [|vm_compute; reflexivity].
    intros H.
    apply (f_equal (fun v => match v with [_; _; c] => PrimFloat.is_zero (re c) | _ => true end)) in H.
    vm_compute in H. discriminate H.
  - intros qr lm. eexists. split; [vm_compute; reflexivity|].
    split; vm_compute; reflexivity.
Qed.

Lemma index_from_bounds n l i :
  n ∈ l -> (i <= index_from n l i < i + Z.of_nat (length l))%Z.
Proof.
  revert i. induction l as [|x l IH]; intros i Hin.
  - by apply elem_of_nil in Hin.
  - cbn [index_from length]. destruct (decide (x = n)) as [->|Hne]; [lia|].
    apply elem_of_cons in Hin as [->|Hin]; [done|].
    specialize (IH (i + 1)%Z Hin). lia.
Qed.

Lemma index_from_notin n l i : n ∉ l -> index_from n l i = (-1)%Z.
Proof.
  revert i. induction l as [|x l IH]; intros i Hn; cbn; [done|].
  apply not_elem_of_cons in Hn as [Hne Hn]. rewrite decide_False by congruence. by apply IH.
Qed.

Lemma index_from_lookup n l i :
  n ∈ l ->
  exists k : nat, index_from n l i = (i + Z.of_nat k)%Z /\ l !! k = Some n
                  /\ forall j, j < k -> l !! j <> Some n.
Proof.
  revert i. induction l as [|x l IH]; intros i Hn; [by apply elem_of_nil in Hn|]. cbn.
  destruct (decide (x = n)) as [->|Hne].
  - exists 0. split; [lia|]. split; [done|]. intros j Hj. lia.
  - apply elem_of_cons in Hn as [->|Hn]; [done|].
    destruct (IH (i + 1)%Z Hn) as (k & Hk & Hl & Hfirst).
    exists (S k). split; [lia|]. split; [done|].
    intros [|j] Hj; cbn; [congruence|]. apply Hfirst. lia.
Qed.

(** C5, as the code has it. With no ground node set [analyze] makes no
    check of the topology and does not fail with [TopologyError]: every
    node of the circuit is taken for an unknown, and [getNodeIndex] answers
    for it its position in [nodes_] (the first, should it be there twice),
    no node being left out as the ground. *)
Theorem analyze_without_ground (qr : Solver) (lm : Libm) (a : CircuitAnalyzer) (f : double) :
  ground_node_ a = None ->
  analyze qr lm a f <> Throws TopologyError
  /\ forall n, n ∈ nodes_ a ->
       (0 <= getNodeIndex a (Some n) < Z.of_nat (length (nodes_ a)))%Z
       /\ exists k : nat,
            getNodeIndex a (Some n) = Z.of_nat k
            /\ nodes_ a !! k = Some n
            /\ forall j, j < k -> nodes_ a !! j <> Some n.
Proof.
  intros Hg. split; [apply no_throw_analyze|].
  intros n Hn. unfold getNodeIndex. rewrite Hg.
  destruct (decide (Some n = None)) as [Heq|_]; [discriminate Heq|].
  split; [apply (index_from_bounds n (nodes_ a) 0 Hn)|].
  destruct (index_from_lookup n (nodes_ a) 0 Hn) as (k & Hk & Hl & Hfirst).
  exists k. split; [lia|]. split; [exact Hl | exact Hfirst].
Qed.

Lemma analyze_without_ground_witness :
  analyze identity_solver table_libm ungrounded_source 0%float <> Throws TopologyError
  /\ forall n, n ∈ nodes_ ungrounded_source ->
       (0 <= getNodeIndex ungrounded_source (Some n)
          < Z.of_nat (length (nodes_ ungrounded_source)))%Z
       /\ exists k : nat,
            getNodeIndex ungrounded_source (Some n) = Z.of_nat k
            /\ nodes_ ungrounded_source !! k = Some n
            /\ forall j, j < k -> nodes_ ungrounded_source !! j <> Some n.
Proof. apply analyze_without_ground. reflexivity. Defined.

(** C5 as stated fails: a lone source with no ground set is analysed to
    the end, and the answer of the solver is written to its first node. *)
Lemma analyze_without_ground_returns :
  ground_node_ ungrounded_source = None
  /\ forall (qr : Solver) (lm : Libm),
       exists a',
         analyze qr lm ungrounded_source 0%float = Returns a'
         /\ getNodeVoltages a' = Returns [qr [[C0]] [C0] 0%nat; C0].
Proof.
  split; [reflexivity|].
  intros qr lm. eexists. split; vm_compute; reflexivity.
Qed.

(* ===================================================================== *)
(** ** When a call returns *)
(* ===================================================================== *)

Lemma is_defined_true {A} (o : Outcome A) :
  is_defined o = true <-> exists a, o = Returns a.
Proof.
  destruct o as [a| |]; cbn; split; eauto; try discriminate;
    intros [a' H]; discriminate H.
Qed.

Lemma is_defined_bind {A B} (P : A -> Prop) (o : Outcome A) (f : A -> Outcome B) (b : bool) :
  (forall a, o = Returns a -> P a) ->
  (forall a, P a -> is_defined (f a) = b) ->
  is_defined (o ≫= f) = is_defined o && b.
Proof.
  intros HP Hf. destruct o as [a| |]; cbn; [|done|done].
  apply Hf, HP. reflexivity.
Qed.

Lemma is_defined_bind_const {A B} (o : Outcome A) (f : A -> Outcome B) (b : bool) :
  (forall a, is_defined (f a) = b) -> is_defined (o ≫= f) = is_defined o && b.
Proof. intros Hf. apply (is_defined_bind (fun _ => True)); auto. Qed.

Lemma is_defined_of_option {A} (o : option A) :
  is_defined (of_option o) = bool_decide (is_Some o).
Proof.
  destruct o; reflexivity.
Qed.

(** *** Matrices *)

Lemma row_lookup_defined (row : list Complex) (j : nat) :
  is_defined (of_option (row !! j)) = bool_decide (j < length row).
Proof.
  destruct (row !! j) eqn:E; cbn; symmetry.
  - apply bool_decide_eq_true_2. by apply lookup_lt_Some in E.
  - apply bool_decide_eq_false_2. apply lookup_ge_None in E. lia.
Qed.

Lemma mat_get_defined A i j : is_defined (mat_get A i j) = mat_touch (dims A) i j.
Proof.
  unfold mat_get, mat_touch, dims.
  destruct ((i <? 0) || (j <? 0))%Z; [done|].
  rewrite list_lookup_fmap. destruct (A !! Z.to_nat i) as [row|]; cbn; [|done].
  apply row_lookup_defined.
Qed.

Lemma mat_set_defined A i j v : is_defined (mat_set A i j v) = mat_touch (dims A) i j.
Proof.
  unfold mat_set, mat_touch, dims.
  destruct ((i <? 0) || (j <? 0))%Z; [done|].
  rewrite list_lookup_fmap. destruct (A !! Z.to_nat i) as [row|]; cbn; [|done].
  rewrite <- row_lookup_defined. by destruct (row !! Z.to_nat j).
Qed.

Lemma mat_set_dims A i j v B : mat_set A i j v = Returns B -> dims B = dims A.
Proof.
  unfold mat_set, dims.
  destruct ((i <? 0) || (j <? 0))%Z; [discriminate|].
  destruct (A !! Z.to_nat i) as [row|] eqn:Hrow; cbn; [|discriminate].
  destruct (row !! Z.to_nat j); cbn; [|discriminate].
  intros [= <-]. rewrite list_fmap_insert, length_insert.
  apply list_insert_id. rewrite list_lookup_fmap, Hrow. reflexivity.
Qed.

Lemma mat_add_defined A i j y : is_defined (mat_add A i j y) = mat_touch (dims A) i j.
Proof.
  unfold mat_add. rewrite (is_defined_bind_const _ _ (mat_touch (dims A) i j)).
  - rewrite mat_get_defined. apply andb_diag.
  - intros v. apply mat_set_defined.
Qed.

Lemma mat_sub_defined A i j y : is_defined (mat_sub A i j y) = mat_touch (dims A) i j.
Proof.
  unfold mat_sub. rewrite (is_defined_bind_const _ _ (mat_touch (dims A) i j)).
  - rewrite mat_get_defined. apply andb_diag.
  - intros v. apply mat_set_defined.
Qed.

Lemma mat_add_dims A i j y B : mat_add A i j y = Returns B -> dims B = dims A.
Proof.
  unfold mat_add. intros H. apply bind_Returns in H as (v & _ & H).
  by apply mat_set_dims in H.
Qed.

Lemma mat_sub_dims A i j y B : mat_sub A i j y = Returns B -> dims B = dims A.
Proof.
  unfold mat_sub. intros H. apply bind_Returns in H as (v & _ & H).
  by apply mat_set_dims in H.
Qed.

Lemma stamp_halves A n1 n2 y :
  stamp A n1 n2 y = stamp_half A n1 n2 y ≫= fun A => stamp_half A n2 n1 y.
Proof. reflexivity. Qed.

Lemma stamp_half_dims A n1 n2 y B : stamp_half A n1 n2 y = Returns B -> dims B = dims A.
Proof.
  unfold stamp_half. destruct (0 <=? n1)%Z; [|by intros [= <-]].
  intros H. apply bind_Returns in H as (A1 & H1 & H).
  apply mat_add_dims in H1. destruct (0 <=? n2)%Z.
  - apply mat_sub_dims in H. congruence.
  - injection H as <-. done.
Qed.

Lemma stamp_half_defined A n1 n2 y :
  is_defined (stamp_half A n1 n2 y) = stamp_half_ok (dims A) n1 n2.
Proof.
  unfold stamp_half, stamp_half_ok. destruct (0 <=? n1)%Z; [|done].
  rewrite (is_defined_bind (fun B => dims B = dims A) _ _
             (if (0 <=? n2)%Z then mat_touch (dims A) n1 n2 else true)).
  - by rewrite mat_add_defined.
  - intros B HB. by apply mat_add_dims in HB.
  - intros B HB. destruct (0 <=? n2)%Z; [|done]. by rewrite mat_sub_defined, HB.
Qed.

Lemma stamp_dims A n1 n2 y B : stamp A n1 n2 y = Returns B -> dims B = dims A.
Proof.
  rewrite stamp_halves. intros H. apply bind_Returns in H as (A1 & H1 & H).
  apply stamp_half_dims in H1, H. congruence.
Qed.

Lemma stamp_defined A n1 n2 y : is_defined (stamp A n1 n2 y) = stamp_ok (dims A) n1 n2.
Proof.
  rewrite stamp_halves. unfold stamp_ok.
  rewrite (is_defined_bind (fun B => dims B = dims A) _ _ (stamp_half_ok (dims A) n2 n1)).
  - by rewrite stamp_half_defined.
  - intros B HB. by apply stamp_half_dims in HB.
  - intros B HB. by rewrite stamp_half_defined, HB.
Qed.

(** *** Components *)

Lemma same_class_refl d : same_class d d.
Proof. by destruct d. Qed.

Lemma same_shape_refl c : same_shape c c.
Proof. repeat split. apply same_class_refl. Qed.

Lemma impedance_ok_shape n c c' : same_shape c c' -> impedance_ok n c = impedance_ok n c'.
Proof.
  intros (_ & Hp & _ & Hc). unfold impedance_ok. rewrite Hp.
  by destruct (derived c), (derived c').
Qed.

Lemma update_ok_shape n c c' : same_shape c c' -> update_ok n c = update_ok n c'.
Proof.
  intros (_ & Hp & _ & Hc). unfold update_ok. rewrite Hp.
  by destruct (derived c), (derived c').
Qed.

Lemma getParameter_shape c c' name : same_shape c c' -> getParameter c name = getParameter c' name.
Proof. intros (_ & _ & Hq & _). unfold getParameter. by rewrite Hq. Qed.

(** The impedance of a component that is not a diode is the same in every
    store, and after any update of its state. *)
Lemma getImpedance_state_free lm st st' c c' f :
  state_free c = true -> same_shape c c' ->
  getImpedance lm st c f = getImpedance lm st' c' f.
Proof.
  intros Hfree Hs.
  assert (forall name, getParameter c name = getParameter c' name) as Hq
    by (intros name; by apply getParameter_shape).
  destruct Hs as (_ & _ & _ & Hc).
  unfold getImpedance, state_free in *.
  destruct (derived c), (derived c'); try done; by rewrite ?Hq.
Qed.

Section ComponentsDefined.
Variable lm : Libm.
Variable st : list Node.

Lemma pinVoltage_defined c i :
  is_defined (pinVoltage st c i) = pin_ok (length st) (pins_ c) i.
Proof.
  unfold pinVoltage, pin_ok.
  destruct (pins_ c !! i) as [p|]; cbn; [|done].
  destruct (node_ p) as [k|]; cbn; [|done].
  destruct (st !! k) eqn:E; cbn; symmetry.
  - apply bool_decide_eq_true_2. by apply lookup_lt_Some in E.
  - apply bool_decide_eq_false_2. apply lookup_ge_None in E. lia.
Qed.

Lemma pinDifference_defined c :
  is_defined (pinDifference st c) = pins_ok (length st) (pins_ c).
Proof.
  unfold pinDifference, pins_ok.
  rewrite (is_defined_bind_const _ _ (pin_ok (length st) (pins_ c) 1)).
  - by rewrite pinVoltage_defined.
  - intros v1. rewrite (is_defined_bind_const _ _ true) by done.
    rewrite pinVoltage_defined. apply andb_true_r.
Qed.

Lemma getVoltageAcross_defined c :
  is_defined (getVoltageAcross lm st c) = voltage_ok (length st) c.
Proof.
  unfold getVoltageAcross, voltage_ok.
  destruct (derived c); try apply pinDifference_defined.
  by destruct (_ =? _)%float.
Qed.

Lemma getImpedance_defined c f :
  is_defined (getImpedance lm st c f) = impedance_ok (length st) c.
Proof.
  unfold getImpedance, impedance_ok.
  destruct (derived c) eqn:Hd; try done.
  - by destruct (_ =? _)%float.
  - rewrite (is_defined_bind_const _ _ true) by done.
    rewrite getVoltageAcross_defined. unfold voltage_ok. rewrite Hd. apply andb_true_r.
Qed.

Lemma updateState_defined c dt :
  is_defined (updateState lm st c dt) = update_ok (length st) c.
Proof.
  unfold updateState, update_ok.
  destruct (derived c) eqn:Hd; try done.
  - rewrite (is_defined_bind_const _ _ true) by done.
    unfold getCurrentThrough. rewrite Hd.
    rewrite (is_defined_bind_const _ _ true).
    + rewrite getVoltageAcross_defined. unfold voltage_ok. rewrite Hd.
      by rewrite !andb_true_r.
    + intros v. rewrite (is_defined_bind_const _ _ true) by done.
      rewrite getImpedance_defined. unfold impedance_ok. by rewrite Hd.
  - rewrite (is_defined_bind_const _ _ true) by done.
    rewrite getVoltageAcross_defined. unfold voltage_ok. rewrite Hd. apply andb_true_r.
Qed.

(** [updateState] changes the private members of the class and nothing else. *)
Lemma updateState_shape c dt c' : updateState lm st c dt = Returns c' -> same_shape c c'.
Proof.
  unfold updateState. destruct (derived c) eqn:Hd.
  - intros [= <-]. apply same_shape_refl.
  - intros H. apply bind_Returns in H as (i & _ & [= <-]).
    repeat split. cbn. by rewrite Hd.
  - intros H. apply bind_Returns in H as (v & _ & [= <-]).
    repeat split. cbn. by rewrite Hd.
  - intros [= <-]. repeat split. cbn. by rewrite Hd.
  - intros [= <-]. apply same_shape_refl.
Qed.

End ComponentsDefined.

Lemma mapM_Forall2 {A B} (f : A -> Outcome B) (R : A -> B -> Prop) (l : list A) (l' : list B) :
  (forall x y, f x = Returns y -> R x y) -> mapM f l = Returns l' -> Forall2 R l l'.
Proof.
  intros Hf. revert l'. induction l as [|x l IH]; intros l'; cbn.
  - intros [= <-]. constructor.
  - intros H. apply bind_Returns in H as (y & Hy & H).
    apply bind_Returns in H as (ys & Hys & [= <-]).
    constructor; [by apply Hf | by apply IH].
Qed.

Lemma mapM_defined {A B} (f : A -> Outcome B) (l : list A) :
  is_defined (mapM f l) = forallb (fun x => is_defined (f x)) l.
Proof.
  induction l as [|x l IH]; cbn; [done|].
  rewrite (is_defined_bind_const _ _ (forallb (fun x => is_defined (f x)) l)); [done|].
  intros y. rewrite (is_defined_bind_const _ _ true) by done.
  rewrite IH. apply andb_true_r.
Qed.

Lemma forallb_Forall2 {A B} (p : A -> bool) (q : B -> bool) (R : A -> B -> Prop) l l' :
  (forall x y, R x y -> p x = q y) -> Forall2 R l l' -> forallb p l = forallb q l'.
Proof.
  intros Hpq HF. induction HF as [|x y l l' Hxy _ IH]; cbn; [done|].
  by rewrite (Hpq x y Hxy), IH.
Qed.

(** *** Assembly *)

Lemma getNodeIndex_frame a a' n : same_frame a a' -> getNodeIndex a n = getNodeIndex a' n.
Proof. intros (Hn & Hg & _). unfold getNodeIndex. by rewrite Hn, Hg. Qed.

Lemma stamp_component_ok_frame a a' d c c' :
  same_frame a a' -> same_shape c c' ->
  stamp_component_ok a d c = stamp_component_ok a' d c'.
Proof.
  intros Hf Hs. unfold stamp_component_ok.
  rewrite (impedance_ok_shape _ c c' Hs).
  destruct Hs as (Ht & Hp & _ & _). destruct Hf as (Hn & Hg & Hl).
  rewrite Ht, Hp, Hl.
  destruct (decide _); [done|].
  destruct (pins_ c' !! 0) as [p0|]; [|done].
  destruct (pins_ c' !! 1) as [p1|]; [|done].
  unfold getNodeIndex. by rewrite Hn, Hg.
Qed.

Section AssemblyDefined.
Variable lm : Libm.

Lemma stamp_component_dims a A c B :
  stamp_component lm a A c = Returns B -> dims B = dims A.
Proof.
  unfold stamp_component. destruct (decide _); [by intros [= <-]|].
  intros H. apply bind_Returns in H as (z & _ & H).
  apply bind_Returns in H as (p0 & _ & H).
  apply bind_Returns in H as (p1 & _ & H).
  by apply stamp_dims in H.
Qed.

Lemma stamp_component_defined a A c :
  is_defined (stamp_component lm a A c) = stamp_component_ok a (dims A) c.
Proof.
  unfold stamp_component, stamp_component_ok. destruct (decide _); [done|].
  rewrite (is_defined_bind_const _ _
    (match pins_ c !! 0, pins_ c !! 1 with
     | Some p0, Some p1 =>
         stamp_ok (dims A) (getNodeIndex a (node_ p0)) (getNodeIndex a (node_ p1))
     | _, _ => false
     end)).
  - by rewrite getImpedance_defined.
  - intros z. destruct (pins_ c !! 0) as [p0|]; cbn; [|done].
    destruct (pins_ c !! 1) as [p1|]; cbn; [|done].
    apply stamp_defined.
Qed.

Lemma fold_stamp_dims a cs A B :
  foldM (stamp_component lm a) cs A = Returns B -> dims B = dims A.
Proof.
  revert A. induction cs as [|c cs IH]; intros A; cbn.
  - by intros [= <-].
  - intros H. apply bind_Returns in H as (A1 & H1 & H).
    apply stamp_component_dims in H1. apply IH in H. congruence.
Qed.

Lemma fold_stamp_defined a cs A :
  is_defined (foldM (stamp_component lm a) cs A)
  = forallb (stamp_component_ok a (dims A)) cs.
Proof.
  revert A. induction cs as [|c cs IH]; intros A; cbn; [done|].
  rewrite (is_defined_bind (fun B => dims B = dims A) _ _
             (forallb (stamp_component_ok a (dims A)) cs)).
  - by rewrite stamp_component_defined.
  - intros B HB. by apply stamp_component_dims in HB.
  - intros B HB. by rewrite IH, HB.
Qed.

End AssemblyDefined.

(** *** The write-back of [solve] *)

Lemma store_voltage_length ns x st i st' :
  store_voltage ns x st i = Returns st' -> length st' = length st.
Proof.
  unfold store_voltage, setVoltage. intros H.
  apply bind_Returns in H as (nd & _ & H).
  apply bind_Returns in H as (node & _ & [= <-]). apply length_insert.
Qed.

Lemma write_back_length ns x idxs st st' :
  foldM (store_voltage ns x) idxs st = Returns st' -> length st' = length st.
Proof.
  revert st. induction idxs as [|i idxs IH]; intros st; cbn.
  - by intros [= <-].
  - intros H. apply bind_Returns in H as (st1 & H1 & H). apply IH in H.
    apply store_voltage_length in H1. congruence.
Qed.

Lemma store_voltage_defined ns x st i :
  is_defined (store_voltage ns x st i) = write_ok ns (length st) i.
Proof.
  unfold store_voltage, setVoltage, write_ok.
  destruct (ns !! i) as [nd|]; cbn; [|done].
  destruct (st !! nd) eqn:E; cbn; symmetry.
  - apply bool_decide_eq_true_2. by apply lookup_lt_Some in E.
  - apply bool_decide_eq_false_2. apply lookup_ge_None in E. lia.
Qed.

Lemma write_back_defined ns x idxs st :
  is_defined (foldM (store_voltage ns x) idxs st) = forallb (write_ok ns (length st)) idxs.
Proof.
  revert st. induction idxs as [|i idxs IH]; intros st; cbn; [done|].
  rewrite (is_defined_bind (fun st' => length st' = length st) _ _
             (forallb (write_ok ns (length st)) idxs)).
  - by rewrite store_voltage_defined.
  - intros st' H. by apply store_voltage_length in H.
  - intros st' H. by rewrite IH, H.
Qed.

(** After the write-back a node holds the last voltage written to it, or
    the voltage it held. *)
Lemma write_back_lookup ns x idxs st st' :
  foldM (store_voltage ns x) idxs st = Returns st' ->
  forall n, st' !! n = with_voltage (last_write ns x idxs n) <$> st !! n.
Proof.
  revert st. induction idxs as [|i idxs IH]; intros st; cbn.
  - intros [= <-] n. by destruct (st !! n).
  - intros H n. apply bind_Returns in H as (st1 & H1 & H).
    rewrite (IH _ H n). clear IH H.
    unfold store_voltage, setVoltage in H1.
    apply bind_Returns in H1 as (nd & Hnd & H1).
    apply bind_Returns in H1 as (node & Hnode & [= <-]).
    destruct (ns !! i) as [nd'|]; [|discriminate Hnd]. injection Hnd as ->.
    destruct (st !! nd) as [node'|] eqn:E; [|discriminate Hnode]. injection Hnode as ->.
    pose proof (lookup_lt_Some _ _ _ E) as Hlt.
    destruct (decide (nd = n)) as [->|Hne].
    + rewrite list_lookup_insert_eq by done. rewrite E. cbn.
      destruct (last_write ns x idxs n); cbn; [done|].
      by rewrite decide_True.
    + rewrite list_lookup_insert_ne by done.
      destruct (last_write ns x idxs n); cbn; [done|].
      rewrite decide_False by congruence. done.
Qed.

(** Writing the same solution back a second time changes nothing. *)
Lemma write_back_again ns x idxs st st' :
  foldM (store_voltage ns x) idxs st = Returns st' ->
  foldM (store_voltage ns x) idxs st' = Returns st'.
Proof.
  intros H.
  assert (exists st2, foldM (store_voltage ns x) idxs st' = Returns st2) as [st2 H2].
  { apply is_defined_true. rewrite write_back_defined, (write_back_length _ _ _ _ _ H).
    rewrite <- (write_back_defined ns x), H. reflexivity. }
  rewrite H2. f_equal. apply list_eq. intros n.
  rewrite (write_back_lookup _ _ _ _ _ H2 n), (write_back_lookup _ _ _ _ _ H n).
  destruct (st !! n) as [node|]; cbn; [|done].
  by destruct (last_write ns x idxs n).
Qed.

(** *** [buildMNA] and [solve] when [voltage_sources_] is empty *)

Lemma buildMNA_without_sources lm a :
  voltage_sources_ a = [] ->
  buildMNA lm a =
    match nodes_ a with
    | [] => Undefined
    | _ :: _ =>
        A ← foldM (stamp_component lm a) (components_ a)
              (replicate (unknowns a) (replicate (unknowns a) C0));
        Returns (with_system a A (replicate (unknowns a) C0))
    end.
Proof.
  intros Hvs. unfold buildMNA, unknowns. rewrite Hvs.
  destruct (nodes_ a) as [|n0 ns]; [reflexivity|].
  cbn [length foldM]. unfold MatrixZero, VectorZero.
  replace (Z.of_nat (S (length ns)) - 1 + Z.of_nat 0)%Z with (Z.of_nat (length ns)) by lia.
  destruct (Z.ltb_spec (Z.of_nat (length ns)) 0) as [Hneg|_]; [lia|].
  rewrite Nat2Z.id. replace (S (length ns) - 1)%nat with (length ns) by lia.
  cbn. by destruct (foldM _ _ _).
Qed.

Lemma solve_without_sources qr a :
  voltage_sources_ a = [] ->
  solve qr a =
    match nodes_ a with
    | [] => Undefined
    | _ :: _ =>
        st ← foldM (store_voltage (nodes_ a) (qr (A_ a) (b_ a))) (seq 0 (unknowns a)) (store a);
        Returns (with_store a st)
    end.
Proof.
  intros Hvs. unfold solve, unknowns. rewrite Hvs.
  destruct (nodes_ a) as [|n0 ns] eqn:Hns; [reflexivity|].
  destruct (foldM (store_voltage _ _) _ _) as [st| |]; reflexivity.
Qed.

(** *** Assembly of components that are not diodes *)

Lemma stamp_component_state_free lm a a' A c c' :
  nodes_ a = nodes_ a' -> ground_node_ a = ground_node_ a' ->
  current_frequency_ a = current_frequency_ a' ->
  state_free c = true -> same_shape c c' ->
  stamp_component lm a A c = stamp_component lm a' A c'.
Proof.
  intros Hn Hg Hf Hfree Hs. unfold stamp_component.
  rewrite (getImpedance_state_free lm (store a) (store a') c c' _ Hfree Hs), Hf.
  destruct Hs as (Ht & Hp & _ & _). rewrite Ht, Hp.
  unfold getNodeIndex. by rewrite Hn, Hg.
Qed.

Lemma fold_stamp_state_free lm a a' cs cs' A :
  nodes_ a = nodes_ a' -> ground_node_ a = ground_node_ a' ->
  current_frequency_ a = current_frequency_ a' ->
  Forall (fun c => state_free c = true) cs -> Forall2 same_shape cs cs' ->
  foldM (stamp_component lm a) cs A = foldM (stamp_component lm a') cs' A.
Proof.
  intros Hn Hg Hf Hfree Hs. revert A.
  induction Hs as [|c c' cs cs' Hc _ IH]; intros A; cbn; [done|].
  apply Forall_cons in Hfree as [Hfc Hfree].
  rewrite (stamp_component_state_free lm a a' A c c' Hn Hg Hf Hfc Hc).
  destruct (stamp_component lm a' A c') as [A1| |]; cbn; [|done|done].
  by apply IH.
Qed.

(* ===================================================================== *)
(** ** Analysing twice *)
(* ===================================================================== *)

Section Idempotence.
Variable qr : Solver.
Variable lm : Libm.

Lemma analyze_without_sources a f :
  voltage_sources_ a = [] ->
  analyze qr lm a f =
    match nodes_ a with
    | [] => Undefined
    | _ :: _ =>
        A ← foldM (stamp_component lm (with_frequency a f)) (components_ a)
              (replicate (unknowns a) (replicate (unknowns a) C0));
        st ← foldM (store_voltage (nodes_ a) (qr A (replicate (unknowns a) C0)))
               (seq 0 (unknowns a)) (store a);
        cs ← mapM (fun c => updateState lm st c (timestep_ a)) (components_ a);
        Returns (analysed a f A st cs)
    end.
Proof.
  intros Hvs. unfold analyze.
  rewrite buildMNA_without_sources by exact Hvs.
  change (nodes_ (with_frequency a f)) with (nodes_ a).
  change (components_ (with_frequency a f)) with (components_ a).
  change (unknowns (with_frequency a f)) with (unknowns a).
  destruct (nodes_ a) as [|n0 ns] eqn:Hns; [reflexivity|].
  destruct (foldM (stamp_component lm _) _ _) as [A| |]; cbn [mbind Outcome_bind]; try reflexivity.
  rewrite (solve_without_sources qr _) by exact Hvs.
  cbn [nodes_ with_system with_frequency store A_ b_]. rewrite Hns.
  change (unknowns (with_system (with_frequency a f) A (replicate (unknowns a) C0)))
    with (unknowns a).
  destruct (foldM (store_voltage _ _) _ _) as [st| |]; cbn [mbind Outcome_bind]; try reflexivity.
  unfold updateComponents, update_all.
  cbn [store with_store components_ timestep_ with_system with_frequency].
  destruct (mapM _ _) as [cs| |]; cbn [mbind Outcome_bind]; try reflexivity.
  unfold analysed, with_components, with_store, with_system, with_frequency. cbn.
  by rewrite Hvs.
Qed.

(** X31. For every circuit a program can build and every frequency [f]:
    when [analyze(f)] returns, a second [analyze(f)] on the state it left
    returns too, and [getNodeVoltages()] reads the same sequence after both
    calls. This is so for every solver when the circuit has no diode, and
    for every circuit when the solver answers a zero right-hand side with
    the zero vector, as a linear solve does. *)
Theorem analyze_twice_same_voltages (a : CircuitAnalyzer) (f : double) (a1 : CircuitAnalyzer) :
  built a ->
  (forall A k i, qr A (replicate k C0) i = C0)
  \/ Forall (fun c => state_free c = true) (components_ a) ->
  analyze qr lm a f = Returns a1 ->
  exists a2, analyze qr lm a1 f = Returns a2 /\ getNodeVoltages a2 = getNodeVoltages a1.
Proof.
  intros Hvs Hcase H1. apply built_voltage_sources in Hvs.
  rewrite analyze_without_sources in H1 by exact Hvs.
  destruct (nodes_ a) as [|n0 ns] eqn:Hns; [discriminate H1|].
  apply bind_Returns in H1 as (A1 & HA1 & H1).
  apply bind_Returns in H1 as (st1 & Hst1 & H1).
  apply bind_Returns in H1 as (cs1 & Hcs1 & [= <-]).
  pose proof (write_back_length _ _ _ _ _ Hst1) as Hlen.
  assert (Forall2 same_shape (components_ a) cs1) as Hshape.
  { eapply mapM_Forall2; [|exact Hcs1]. intros c c' Hc.
    exact (updateState_shape lm st1 c _ c' Hc). }
  rewrite analyze_without_sources by reflexivity.
  change (nodes_ (analysed a f A1 st1 cs1)) with (nodes_ a). rewrite Hns.
  change (unknowns (analysed a f A1 st1 cs1)) with (unknowns a).
  change (components_ (analysed a f A1 st1 cs1)) with cs1.
  change (store (analysed a f A1 st1 cs1)) with st1.
  change (timestep_ (analysed a f A1 st1 cs1)) with (timestep_ a).
  (* the second assembly returns *)
  assert (exists A2, foldM (stamp_component lm (with_frequency (analysed a f A1 st1 cs1) f)) cs1
                       (replicate (unknowns a) (replicate (unknowns a) C0)) = Returns A2)
    as [A2 HA2].
  { apply is_defined_true. rewrite fold_stamp_defined.
    set (d := dims (replicate (unknowns a) (replicate (unknowns a) C0))).
    rewrite <- (forallb_Forall2 (stamp_component_ok (with_frequency a f) d)
                  (stamp_component_ok (with_frequency (analysed a f A1 st1 cs1) f) d)
                  same_shape (components_ a) cs1).
    - subst d. rewrite <- (fold_stamp_defined lm), HA1. reflexivity.
    - intros c c' Hc. apply stamp_component_ok_frame; [|exact Hc].
      repeat split; cbn; congruence.
    - exact Hshape. }
  (* and the solver gives the answer of the first call *)
  assert (forall i, qr A2 (replicate (unknowns a) C0) i = qr A1 (replicate (unknowns a) C0) i)
    as Hx.
  { destruct Hcase as [Hzero|Hfree].
    - intros i. by rewrite !Hzero.
    - assert (A2 = A1) as ->; [|done].
      rewrite (fold_stamp_state_free lm (with_frequency a f)
                 (with_frequency (analysed a f A1 st1 cs1) f) (components_ a) cs1)
        in HA1 by done.
      congruence. }
  rewrite HA2. cbn [mbind Outcome_bind].
  (* so the second write-back leaves the store as it is *)
  rewrite (foldM_ext _ (store_voltage (n0 :: ns) (qr A1 (replicate (unknowns a) C0)))) by
    (intros st i _; unfold store_voltage; by rewrite Hx).
  rewrite (write_back_again _ _ _ _ _ Hst1). cbn [mbind Outcome_bind].
  (* the second update returns *)
  assert (exists cs2, mapM (fun c => updateState lm st1 c (timestep_ a)) cs1 = Returns cs2)
    as [cs2 Hcs2].
  { apply is_defined_true. rewrite mapM_defined.
    rewrite <- (forallb_Forall2 (fun c => is_defined (updateState lm st1 c (timestep_ a)))
                  (fun c => is_defined (updateState lm st1 c (timestep_ a)))
                  same_shape (components_ a) cs1).
    - rewrite <- mapM_defined, Hcs1. reflexivity.
    - intros c c' Hc. rewrite !updateState_defined. by apply update_ok_shape.
    - exact Hshape. }
  rewrite Hcs2. cbn [mbind Outcome_bind].
  eexists. split; reflexivity.
Qed.

End Idempotence.

Lemma analyze_twice_same_voltages_witness :
  exists a2,
    analyze constant_solver table_libm divider_analysed 0%float = Returns a2
    /\ getNodeVoltages a2 = getNodeVoltages divider_analysed.
Proof.
  apply (analyze_twice_same_voltages constant_solver table_libm (voltage_divider 10%float)
           0%float).
  - unfold voltage_divider.
    apply built_setGroundNode, built_addComponent, built_addComponent, built_addComponent,
      built_new.
  - right. repeat constructor.
  - vm_compute. reflexivity.
Defined.



(* ===================================================================== *)
(** ** The sweeps *)
(* ===================================================================== *)

Lemma bind_assoc {A B C} (o : Outcome A) (f : A -> Outcome B) (g : B -> Outcome C) :
  (o ≫= f) ≫= g = o ≫= fun a => f a ≫= g.
Proof. by destruct o. Qed.

(** C6 in the code. Every turn of the loop of [performTransient] updates the
    state of every component twice: [analyze] ends with
    [updateComponents], which steps by the member [timestep_] (1e-6, never
    assigned), and the loop then steps by [dt]. After one turn with
    [dt = 1e-5] on the grounded source the clock reads 1e-5 and the source
    has advanced its own time to 1e-6 + 1e-5. *)
Theorem performTransient_updates_twice (qr : Solver) (lm : Libm) :
  (forall a dt,
     transient_step qr lm a dt =
       a1 ← buildMNA lm (with_frequency a 0%float);
       a2 ← solve qr a1;
       a3 ← update_all lm a2 (timestep_ a2);
       update_all lm a3 dt)
  /\ exists a',
       performTransient qr lm 1 grounded_source 1e-5%float 1e-5%float = Some (Returns a')
       /\ time_ a' = 1e-5%float
       /\ map derived (components_ a') = [VoltageSourceD C0 (1e-6 + 1e-5)%float]
       /\ (1e-6 + 1e-5 =? 1e-5)%float = false.
Proof.
  split.
  - intros a dt. unfold transient_step, analyze, updateComponents.
    destruct (buildMNA lm _) as [a1| |]; [|reflexivity|reflexivity].
    cbn [mbind Outcome_bind]. destruct (solve qr a1) as [a2| |]; reflexivity.
  - eexists. split; [vm_compute; reflexivity|]. repeat split.
Qed.

(** The quotient by [points - 1] when [points] is 1: whatever the two
    logarithms are, the exponent of the one sample is a NaN. *)
Lemma single_point_exponent (log_start log_stop : double) :
  (log_start + double_of_int 0 * ((log_stop - log_start) / double_of_int (1 - 1)))%float = nan.
Proof.
  apply Prim2SF_inj.
  rewrite FloatAxioms.add_spec, FloatAxioms.mul_spec, FloatAxioms.div_spec, FloatAxioms.sub_spec.
  change (Prim2SF (double_of_int _)) with (S754_zero false).
  change (Prim2SF nan) with S754_nan.
  destruct (SF64sub (Prim2SF log_stop) (Prim2SF log_start)) as [s| [|] | | s m e]; cbn;
    destruct (Prim2SF log_start) as [ [|] | [|] | | [|] ? ?]; reflexivity.
Qed.

(** C4 in the code, for one requested point. The step is a quotient by
    [points - 1 = 0]; the single frequency analysed is [pow(10, NaN)] (a NaN
    for the [pow] of C), for every [start_freq] and [stop_freq]. *)
Theorem performAC_single_point (lm : Libm) (start_freq stop_freq : double) :
  ac_frequencies lm start_freq stop_freq 1 = [m_pow lm 10%float nan].
Proof.
  unfold ac_frequencies. change (seq 0 (Z.to_nat 1)) with [0%nat]. cbn [map].
  do 2 f_equal. apply single_point_exponent.
Qed.

(* ===================================================================== *)
(** ** The stability criterion *)
(* ===================================================================== *)

(** *** The square root of a double below 1 *)

Section SquareRoot.
Local Open Scope Z_scope.

Lemma digits2_pos_bounds (p : positive) :
  2 ^ (Z.pos (digits2_pos p) - 1) <= Z.pos p < 2 ^ Z.pos (digits2_pos p).
Proof.
  induction p as [p IH|p IH|]; cbn [digits2_pos].
  - rewrite Pos2Z.inj_succ.
    replace (Z.succ (Z.pos (digits2_pos p)) - 1) with (Z.succ (Z.pos (digits2_pos p) - 1)) by lia.
    rewrite !Z.pow_succ_r by lia. lia.
  - rewrite Pos2Z.inj_succ.
    replace (Z.succ (Z.pos (digits2_pos p)) - 1) with (Z.succ (Z.pos (digits2_pos p) - 1)) by lia.
    rewrite !Z.pow_succ_r by lia. lia.
  - cbn. lia.
Qed.

Lemma digits2_pos_unique (p : positive) (k : Z) :
  2 ^ (k - 1) <= Z.pos p < 2 ^ k -> Z.pos (digits2_pos p) = k.
Proof.
  intros [Hlo Hhi]. pose proof (digits2_pos_bounds p) as [Hlo' Hhi'].
  assert (0 < k) as Hk.
  { destruct (Z.ltb_spec 0 k) as [|Hle]; [done|].
    rewrite (Z.pow_neg_r 2 (k - 1)) in Hlo by lia.
    destruct (Z.eq_dec k 0) as [->|]; [cbn in Hhi; lia|].
    rewrite (Z.pow_neg_r 2 k) in Hhi by lia. lia. }
  destruct (Z.lt_trichotomy (Z.pos (digits2_pos p)) k) as [Hlt|[Heq|Hgt]]; [|done|].
  - assert (2 ^ Z.pos (digits2_pos p) <= 2 ^ (k - 1)) by (apply Z.pow_le_mono_r; lia). lia.
  - assert (2 ^ k <= 2 ^ (Z.pos (digits2_pos p) - 1)) by (apply Z.pow_le_mono_r; lia). lia.
Qed.

Lemma loc_of_shr_record_of_loc m l : loc_of_shr_record (shr_record_of_loc m l) = l.
Proof. by destruct l as [|[| |]]. Qed.

Lemma shr_m_of_loc m l : shr_m (shr_record_of_loc m l) = m.
Proof. by destruct l as [|[| |]]. Qed.

Lemma round_nearest_even_bounds q l :
  q <= round_nearest_even q l <= q + 1.
Proof. destruct l as [|[| |]]; cbn; try lia. destruct (Z.even q); lia. Qed.

(** Rounding a mantissa of 53 digits: it is kept, or it is the next one,
    which may be the power [2^53] and take the next exponent. *)
Lemma binary_round_aux_53 (q e' : Z) (l : location) :
  2 ^ 52 <= q < 2 ^ 53 -> -1074 <= e' ->
  binary_round_aux prec emax false q e' l =
    if round_nearest_even q l <? 2 ^ 53 then
      (if e' <=? 971 then S754_finite false (Z.to_pos (round_nearest_even q l)) e'
       else S754_infinity false)
    else
      (if e' + 1 <=? 971 then S754_finite false (Z.to_pos (2 ^ 52)) (e' + 1)
       else S754_infinity false).
Proof.
  intros Hq He. unfold binary_round_aux.
  assert (forall m, 2 ^ 52 <= m < 2 ^ 53 ->
            shr_fexp prec emax m e' l = (shr_record_of_loc m l, e')) as Hkeep.
  { intros m Hm. unfold shr_fexp. destruct m as [|p|p]; try (cbn in Hm; lia).
    cbn [Zdigits2]. rewrite (digits2_pos_unique p 53) by (cbn; lia).
    unfold fexp, emin, prec, emax.
    replace (Z.max (53 + e' - 53) (3 - 1024 - 53) - e') with 0 by lia. reflexivity. }
  rewrite (Hkeep q Hq). rewrite shr_m_of_loc, loc_of_shr_record_of_loc.
  pose proof (round_nearest_even_bounds q l) as Hr.
  destruct (Z.ltb_spec (round_nearest_even q l) (2 ^ 53)) as [Hlt|Hge].
  - assert (forall m, 2 ^ 52 <= m < 2 ^ 53 ->
              shr_fexp prec emax m e' loc_Exact = (shr_record_of_loc m loc_Exact, e')) as Hkeep'.
    { intros m Hm. unfold shr_fexp. destruct m as [|p|p]; try (cbn in Hm; lia).
      cbn [Zdigits2]. rewrite (digits2_pos_unique p 53) by (cbn; lia).
      unfold fexp, emin, prec, emax.
      replace (Z.max (53 + e' - 53) (3 - 1024 - 53) - e') with 0 by lia. reflexivity. }
    rewrite Hkeep' by lia. cbn [shr_record_of_loc shr_m].
    destruct (round_nearest_even q l) as [|p|p] eqn:E; try lia.
    unfold prec, emax. change (1024 - 53) with 971. reflexivity.
  - assert (round_nearest_even q l = 2 ^ 53) as -> by lia.
    unfold shr_fexp. change (Zdigits2 (2 ^ 53)) with 54.
    unfold fexp, emin, prec, emax.
    replace (Z.max (54 + e' - 53) (3 - 1024 - 53) - e') with 1 by lia.
    cbn. reflexivity.
Qed.

(** The square root of a positive double, before rounding: a mantissa of 53
    digits, and half the exponent. *)
Lemma SFsqrt_core_53 (m : positive) (e : Z) :
  bounded prec emax m e = true ->
  exists q r e',
    SFsqrt_core_binary prec emax (Z.pos m) e
      = (q, e', if r =? 0 then loc_Exact else loc_Inexact (if r <=? q then Lt else Gt))
    /\ 2 ^ 52 <= q < 2 ^ 53 /\ 0 <= r <= 2 * q
    /\ -1074 <= e' <= 459
    /\ (e <= -53 <-> e' <= -53)
    /\ (e' = -53 -> q * q + r <= (2 ^ 53 - 1) * 2 ^ 53).
Proof.
  intros Hb. unfold bounded, canonical_mantissa, fexp, emin, prec, emax in Hb.
  apply andb_true_iff in Hb as [Hc He]. apply Z.eqb_eq in Hc. apply Z.leb_le in He.
  pose proof (digits2_pos_bounds m) as Hm.
  unfold SFsqrt_core_binary. cbn [Zdigits2]. unfold fexp, emin, prec, emax.
  remember (Z.pos (digits2_pos m)) as d eqn:Ed.
  assert (0 < d) as Hd by (subst d; lia).
  remember (Z.min (Z.max (Z.div2 (d + e + 1) - 53) (3 - 1024 - 53)) (Z.div2 e)) as e' eqn:Ee'.
  remember (e - 2 * e') as s eqn:Es.
  rewrite !Z.div2_div in Ee'.
  assert (e' = (d + e + 1) / 2 - 53) as He' by (Z.to_euclidean_division_equations; lia).
  assert ((d + s = 105 \/ d + s = 106) /\ 52 <= s) as (Hds & Hs)
    by (Z.to_euclidean_division_equations; lia).
  assert (match s with Z.pos _ => Z.shiftl (Z.pos m) s | 0 => Z.pos m | Z.neg _ => 0 end
          = Z.pos m * 2 ^ s) as ->.
  { destruct s; [lia | apply Z.shiftl_mul_pow2; lia | lia]. }
  assert (2 ^ 104 <= Z.pos m * 2 ^ s < 2 ^ 106) as Hm'.
  { assert (2 ^ (d - 1) * 2 ^ s <= Z.pos m * 2 ^ s < 2 ^ d * 2 ^ s) as H.
    { assert (0 < 2 ^ s) by (apply Z.pow_pos_nonneg; lia). nia. }
    rewrite <- !Z.pow_add_r in H by lia.
    destruct Hds as [Hds|Hds].
    - replace (d - 1 + s) with 104 in H by lia. replace (d + s) with 105 in H by lia. lia.
    - replace (d - 1 + s) with 105 in H by lia. replace (d + s) with 106 in H by lia. lia. }
  pose proof (Z.sqrtrem_spec (Z.pos m * 2 ^ s)) as Hsq.
  destruct (Z.sqrtrem (Z.pos m * 2 ^ s)) as [q r].
  destruct Hsq as [Hqr Hr]; [lia|].
  exists q, r, e'. split; [reflexivity|].
  assert (2 ^ 52 <= q < 2 ^ 53) as Hq.
  { change (2 ^ 104) with (2 ^ 52 * 2 ^ 52) in Hm'.
    change (2 ^ 106) with (2 ^ 53 * 2 ^ 53) in Hm'. nia. }
  split; [exact Hq|]. split; [exact Hr|].
  split; [Z.to_euclidean_division_equations; lia|].
  split; [Z.to_euclidean_division_equations; lia|].
  intros He53. rewrite <- Hqr.
  assert (d = 53 /\ s = 53 \/ s = 52) as [[Hd53 Hs53]|Hs52]
    by (Z.to_euclidean_division_equations; lia).
  - rewrite Hs53. rewrite Hd53 in Hm. nia.
  - rewrite Hs52. assert (d <= 53) by lia.
    assert (2 ^ d <= 2 ^ 53) by (apply Z.pow_le_mono_r; lia). nia.
Qed.

Lemma one_SF : Prim2SF 1 = S754_finite false 4503599627370496 (-52).
Proof. vm_compute. reflexivity. Qed.

Lemma SFltb_one (m : positive) (e : Z) :
  (e = -52 -> 2 ^ 52 <= Z.pos m) ->
  SFltb (S754_finite false m e) (Prim2SF 1) = (e <? -52).
Proof.
  intros Hm. rewrite one_SF.
  unfold SFltb, SFcompare.
  destruct (Z.compare_spec e (-52)) as [He|He|He].
  - rewrite Pos.compare_cont_spec.
    specialize (Hm He).
    replace (m ?= 4503599627370496)%positive with (Z.pos m ?= 4503599627370496)
      by reflexivity.
    destruct (Z.compare_spec (Z.pos m) 4503599627370496) as [H|H|H];
      destruct (Z.ltb_spec e (-52)); cbn [Pos.switch_Eq]; try done; lia.
  - destruct (Z.ltb_spec e (-52)); [done | lia].
  - destruct (Z.ltb_spec e (-52)); [lia | done].
Qed.

(** The square root of a double that is not negative is below 1 exactly
    when the double is. *)
Lemma SFsqrt_below_one (m : positive) (e : Z) :
  bounded prec emax m e = true ->
  SFltb (SF64sqrt (S754_finite false m e)) (Prim2SF 1)
  = SFltb (S754_finite false m e) (Prim2SF 1).
Proof.
  intros Hb.
  destruct (SFsqrt_core_53 m e Hb) as (q & r & e' & Hcore & Hq & Hr & He' & Hiff & Htop).
  rewrite (SFltb_one m e).
  2:{ intros ->. unfold bounded, canonical_mantissa, fexp, emin, prec, emax in Hb.
      apply andb_true_iff in Hb as [Hc _]. apply Z.eqb_eq in Hc.
      pose proof (digits2_pos_bounds m) as Hm.
      assert (Z.pos (digits2_pos m) = 53) as Hd by lia. rewrite Hd in Hm. exact (proj1 Hm). }
  unfold SF64sqrt, SFsqrt. rewrite Hcore.
  rewrite (binary_round_aux_53 q e' _ Hq) by lia.
  set (l := if r =? 0 then loc_Exact else loc_Inexact (if r <=? q then Lt else Gt)).
  pose proof (round_nearest_even_bounds q l) as Hm2.
  destruct (Z.ltb_spec (round_nearest_even q l) (2 ^ 53)) as [Hlt|Hge].
  - destruct (Z.leb_spec e' 971) as [_|Hbig]; [|lia].
    destruct (round_nearest_even q l) as [|p|p] eqn:E; try lia.
    cbn [Z.to_pos]. rewrite (SFltb_one p e') by (intros _; lia).
    destruct (Z.ltb_spec e' (-52)), (Z.ltb_spec e (-52)); try done; lia.
  - destruct (Z.leb_spec (e' + 1) 971) as [_|Hbig]; [|lia].
    rewrite (SFltb_one _ (e' + 1)) by (intros _; rewrite Z2Pos.id; lia).
    assert (e' <> -53) as Hne.
    { intros He53. specialize (Htop He53).
      assert (q = 2 ^ 53 - 1) as Hq53 by lia.
      assert (r <= q) as Hrq by (rewrite Hq53 in *; nia).
      subst l. destruct (Z.eqb_spec r 0) as [Hr0|Hr0]; cbn in Hge; [lia|].
      destruct (Z.leb_spec r q); cbn in Hge; lia. }
    destruct (Z.ltb_spec (e' + 1) (-52)), (Z.ltb_spec e (-52)); try done; lia.
Qed.

End SquareRoot.

Lemma sqrt_below_one (x : float) :
  not_negative x -> (PrimFloat.sqrt x <? 1)%float = (x <? 1)%float.
Proof.
  unfold not_negative. intros Hx.
  rewrite !FloatAxioms.ltb_spec, FloatAxioms.sqrt_spec.
  pose proof (Prim2SF_valid x) as Hv.
  destruct (Prim2SF x) as [s|[|]| |[|] m e]; try done.
  by apply SFsqrt_below_one.
Qed.

(** *** Signs of products and sums *)

Lemma binary_round_aux_sign sx mx ex lx :
  match binary_round_aux prec emax sx mx ex lx with
  | S754_zero s | S754_infinity s | S754_finite s _ _ => s = sx
  | S754_nan => True
  end.
Proof.
  unfold binary_round_aux.
  destruct (shr_fexp prec emax mx ex lx) as [mrs e1].
  destruct (shr_fexp prec emax _ e1 loc_Exact) as [mrs2 e2].
  destruct (shr_m mrs2); [done| |done]. by destruct (_ <=? _)%Z.
Qed.

Lemma not_negative_square (x : float) : not_negative (x * x).
Proof.
  unfold not_negative. rewrite FloatAxioms.mul_spec. unfold SF64mul.
  destruct (Prim2SF x) as [s|s| |s m e]; cbn [SFmul];
    [by destruct s | by destruct s | done |].
  rewrite xorb_nilpotent.
  generalize (binary_round_aux_sign false (Z.pos (m * m)) (e + e) loc_Exact).
  destruct (binary_round_aux _ _ _ _ _ _) as [s'|s'| |s' m' e']; try done; intros Hs; try rewrite Hs; done.
Qed.

Lemma not_negative_sum (x y : float) :
  not_negative x -> not_negative y -> not_negative (x + y).
Proof.
  unfold not_negative. rewrite FloatAxioms.add_spec. unfold SF64add.
  destruct (Prim2SF x) as [sx|[|]| |[|] mx ex]; try done;
    destruct (Prim2SF y) as [sy|[|]| |[|] my ey]; try done; cbn [SFadd]; intros _ _.
  - by destruct sx, sy.
  - cbn [cond_Zopp].
    generalize (shl_align mx ex (Z.min ex ey)).1, (shl_align my ey (Z.min ex ey)).1.
    intros a b. change (Z.pos a + Z.pos b)%Z with (Z.pos (a + b)).
    cbn [binary_normalize]. unfold binary_round.
    destruct (shl_align _ _ _) as [mz ez].
    generalize (binary_round_aux_sign false (Z.pos mz) ez loc_Exact).
    destruct (binary_round_aux _ _ _ _ _ _) as [s'|s'| |s' m' e']; try done;
      intros Hs; by rewrite Hs.
Qed.

Lemma not_negative_Cnorm (d : Complex) : not_negative (Cnorm d).
Proof. apply not_negative_sum; apply not_negative_square. Qed.

(** *** Products commute *)

Lemma float_mul_comm (x y : float) : (x * y = y * x)%float.
Proof.
  apply Prim2SF_inj. rewrite !FloatAxioms.mul_spec. unfold SF64mul.
  destruct (Prim2SF x) as [sx|sx| |sx mx ex], (Prim2SF y) as [sy|sy| |sy my ey];
    cbn [SFmul]; rewrite ?(xorb_comm sy sx); try done.
  by rewrite (Pos.mul_comm my mx), (Z.add_comm ey ex).
Qed.

Lemma float_add_comm (x y : float) : (x + y = y + x)%float.
Proof.
  apply Prim2SF_inj. rewrite !FloatAxioms.add_spec. unfold SF64add.
  destruct (Prim2SF x) as [sx|sx| |sx mx ex], (Prim2SF y) as [sy|sy| |sy my ey];
    cbn [SFadd]; try done; try (by destruct sx, sy).
  by rewrite (Z.min_comm ey ex), Z.add_comm.
Qed.

Lemma Cmul_comm (a b : Complex) : Cmul a b = Cmul b a.
Proof.
  unfold Cmul. f_equal.
  - by rewrite (float_mul_comm (re a)), (float_mul_comm (im a)).
  - rewrite float_add_comm. by rewrite (float_mul_comm (re a)), (float_mul_comm (im a)).
Qed.

Lemma modulus_below_one_norm (d : Complex) :
  modulus_below_one d = (Cnorm d <? 1)%float.
Proof. apply (sqrt_below_one (Cnorm d)), not_negative_Cnorm. Qed.

(** C8. For every S-matrix, those the conversion from Z-parameters makes
    among them, the metrics computed from it have [unconditionally_stable]
    set if and only if their [k_factor] is above 1 and the modulus of their
    [delta] is below 1, where [delta] is the determinant S11 S22 - S12 S21
    and [k_factor] is Rollett's factor of the S-matrix. The code tests the
    squared modulus [std::norm(delta) < 1]; its square root is below 1
    exactly when it is. The metrics [analyzeStability] returns are the
    metrics of the S-matrix converted from what [calculateZParameters]
    returned, so the equivalence holds of them. *)
Theorem analyzeStability_criterion (qr : Solver) (lm : Libm) :
  (forall s : TwoPort,
     (unconditionally_stable (stability_metrics s) = true
      <-> (1 <? k_factor (stability_metrics s))%float = true
          /\ modulus_below_one (delta (stability_metrics s)) = true)
     /\ delta (stability_metrics s) = determinant s
     /\ k_factor (stability_metrics s)
        = ((1 - Cnorm (m00 s) - Cnorm (m11 s) + Cnorm (determinant s))
           / (2 * PrimFloat.sqrt (Cnorm (m10 s) * Cnorm (m01 s))))%float)
  /\ (forall (a : CircuitAnalyzer) (frequency : double) (m : StabilityMetrics)
             (a' : CircuitAnalyzer),
        analyzeStability qr lm a frequency = Returns (m, a') ->
        (exists z, calculateZParameters qr lm a frequency = Returns (z, a')
                   /\ m = stability_metrics (s_of_z z))
        /\ (unconditionally_stable m = true
            <-> (1 <? k_factor m)%float = true /\ modulus_below_one (delta m) = true)).
Proof.
  assert (forall s : TwoPort,
            unconditionally_stable (stability_metrics s) = true
            <-> (1 <? k_factor (stability_metrics s))%float = true
                /\ modulus_below_one (delta (stability_metrics s)) = true) as Hflag.
  { intros s. rewrite modulus_below_one_norm. cbn [stability_metrics unconditionally_stable
      k_factor delta]. apply andb_true_iff. }
  assert (forall s, delta (stability_metrics s) = determinant s) as Hdelta.
  { intros s. unfold determinant. cbn. by rewrite (Cmul_comm (m10 s)). }
  split.
  - intros s. split; [apply Hflag|]. split; [apply Hdelta|].
    rewrite <- Hdelta. reflexivity.
  - intros a frequency m a' H.
    unfold analyzeStability, calculateSParameters in H.
    destruct (calculateZParameters qr lm a frequency) as [[z a1]| |] eqn:Hz;
      cbn in H; [|discriminate H|discriminate H].
    injection H as <- <-. split; [by exists z|]. apply Hflag.
Qed.

Lemma analyzeStability_criterion_witness :
  (unconditionally_stable (stability_metrics lossy_two_port) = true
   /\ (1 <? k_factor (stability_metrics lossy_two_port))%float = true
   /\ modulus_below_one (delta (stability_metrics lossy_two_port)) = true)
  /\ (unconditionally_stable (stability_metrics reflective_two_port) = false
      /\ (1 <? k_factor (stability_metrics reflective_two_port))%float = false
      /\ modulus_below_one (delta (stability_metrics reflective_two_port)) = true)
  /\ (unconditionally_stable (stability_metrics active_two_port) = false
      /\ (1 <? k_factor (stability_metrics active_two_port))%float = true
      /\ modulus_below_one (delta (stability_metrics active_two_port)) = false).
Proof.
  destruct (analyzeStability_criterion identity_solver table_libm) as [Hall _].
  split; [|split].
  - destruct (Hall lossy_two_port) as [[Hk _] _].
    split; [vm_compute; reflexivity|]. apply Hk. vm_compute. reflexivity.
  - repeat split; vm_compute; reflexivity.
  - repeat split; vm_compute; reflexivity.
Defined.

(* ===================================================================== *)
(** ** The order of doubles and [std::clamp] *)
(* ===================================================================== *)

Lemma SFcompare_antisym x y : SFcompare y x = option_map CompOpp (SFcompare x y).
Proof.
  destruct x as [sx|sx| |sx mx ex], y as [sy|sy| |sy my ey]; cbn;
    try reflexivity; try (destruct sx, sy; reflexivity);
    try (destruct sx; reflexivity); try (destruct sy; reflexivity).
  destruct sx, sy; cbn; try reflexivity; rewrite (Z.compare_antisym ex ey);
    destruct (ex ?= ey)%Z; cbn; try reflexivity;
    rewrite (Pos.compare_cont_antisym mx my Eq); reflexivity.
Qed.

Lemma SFcompare_refl x : x <> S754_nan -> SFcompare x x = Some Eq.
Proof.
  destruct x as [s|s| |s m e]; cbn; intros H; try done.
  - by destruct s.
  - rewrite Z.compare_refl, Pos.compare_cont_refl. by destruct s.
Qed.

Lemma is_nan_false x : PrimFloat.is_nan x = false <-> Prim2SF x <> S754_nan.
Proof.
  unfold PrimFloat.is_nan. rewrite negb_false_iff, FloatAxioms.eqb_spec. unfold SFeqb.
  split.
  - intros H E. rewrite E in H. discriminate H.
  - intros H. by rewrite SFcompare_refl.
Qed.

Lemma leb_not_nan x y :
  (x <=? y)%float = true -> PrimFloat.is_nan x = false /\ PrimFloat.is_nan y = false.
Proof.
  rewrite FloatAxioms.leb_spec. unfold SFleb. rewrite !is_nan_false.
  destruct (Prim2SF x), (Prim2SF y); cbn; try discriminate; done.
Qed.

Lemma leb_refl x : PrimFloat.is_nan x = false -> (x <=? x)%float = true.
Proof.
  rewrite is_nan_false, FloatAxioms.leb_spec. unfold SFleb.
  intros H. by rewrite SFcompare_refl.
Qed.

Lemma ltb_false_leb x y :
  PrimFloat.is_nan x = false -> PrimFloat.is_nan y = false ->
  (x <? y)%float = false -> (y <=? x)%float = true.
Proof.
  rewrite !is_nan_false, FloatAxioms.ltb_spec, FloatAxioms.leb_spec. unfold SFltb, SFleb.
  intros Hx Hy. rewrite (SFcompare_antisym (Prim2SF x) (Prim2SF y)).
  destruct (SFcompare (Prim2SF x) (Prim2SF y)) as [[| |]|] eqn:E; cbn; try done.
  destruct (Prim2SF x), (Prim2SF y); cbn in E; try discriminate E; done.
Qed.

(** [std::clamp] keeps a value that is not a NaN between ordered bounds. *)
Lemma clamp_in_bounds v lo hi :
  (lo <=? hi)%float = true -> PrimFloat.is_nan v = false ->
  (lo <=? clamp v lo hi)%float = true /\ (clamp v lo hi <=? hi)%float = true.
Proof.
  intros Hle Hv. destruct (leb_not_nan _ _ Hle) as [Hlo Hhi]. unfold clamp.
  destruct (v <? lo)%float eqn:E1; [split; [by apply leb_refl | done]|].
  destruct (hi <? v)%float eqn:E2; [split; [done | by apply leb_refl]|].
  split; by apply ltb_false_leb.
Qed.

Lemma clamped_in_bounds (p : Optimizer.Param) (v : double) :
  (Optimizer.min_value p <=? Optimizer.max_value p)%float = true ->
  PrimFloat.is_nan v = false ->
  Optimizer.in_bounds (Optimizer.clamped p v) = true.
Proof.
  intros Hle Hv. unfold Optimizer.in_bounds, Optimizer.clamped. cbn.
  destruct (clamp_in_bounds v _ _ Hle Hv) as [H1 H2]. by rewrite H1, H2.
Qed.

(** C9 in the code, for Nelder-Mead. The parameter starts within its bounds
    and every point made by [reflect] or by the initial simplex is clamped,
    but the shrink step is not: with [sigma = 2] the first turn of the loop
    measures the vector [x = 10.375], above [max_value = 10]. *)
Theorem NelderMead_shrink_leaves_bounds :
  forallb Optimizer.in_bounds (Optimizer.parameters_ dip_optimizer) = true
  /\ exists best r,
       Optimizer.NelderMead_optimize constant_engine dip_optimizer (Optimizer.mkRun 0 [])
         1%float 2%float 0.5%float 2%float 1e-6%float 1 = Returns (best, r)
       /\ Optimizer.measured r =
            map (fun x => [Optimizer.mkParam "x" 0%float 10%float x])
                [9.375; 9.875; 8.875; 9.625; 10.375]%float
       /\ forallb (forallb Optimizer.in_bounds) (Optimizer.measured r) = false.
Proof.
  split; [reflexivity|].
  eexists _, _. split; [vm_compute; reflexivity|]. split; reflexivity.
Qed.

(* ===================================================================== *)
(** ** Further properties of the code *)
(* ===================================================================== *)

(** X1. Particle swarm: the position of a particle after its update is
    within the bounds of the parameter, when the bounds are ordered and the
    moved position is a number. *)
Theorem pso_position_in_bounds (position velocity : Optimizer.Param) :
  (Optimizer.min_value position <=? Optimizer.max_value position)%float = true ->
  PrimFloat.is_nan (Optimizer.current_value position + Optimizer.current_value velocity)%float
    = false ->
  Optimizer.in_bounds (Optimizer.pso_position position velocity) = true.
Proof. intros Hle Hv. by apply clamped_in_bounds. Qed.

Lemma pso_position_in_bounds_witness :
  Optimizer.in_bounds
    (Optimizer.pso_position (Optimizer.mkParam "x" 0%float 10%float 9.5%float)
                            (Optimizer.mkParam "x" 0%float 10%float 2%float)) = true.
Proof. apply pso_position_in_bounds; reflexivity. Defined.

(** X2. Differential evolution: a coordinate of the trial vector that was
    recombined is within the bounds of the parameter, when the bounds
    are ordered and the recombined value is a number. *)
Theorem de_trial_in_bounds (F : double) (trial x1 x2 x3 : Optimizer.Param) :
  (Optimizer.min_value trial <=? Optimizer.max_value trial)%float = true ->
  PrimFloat.is_nan
    (Optimizer.current_value x1
     + F * (Optimizer.current_value x2 - Optimizer.current_value x3))%float = false ->
  Optimizer.in_bounds (Optimizer.de_trial F trial x1 x2 x3) = true.
Proof. intros Hle Hv. by apply clamped_in_bounds. Qed.

Lemma de_trial_in_bounds_witness :
  Optimizer.in_bounds
    (Optimizer.de_trial 0.8%float
       (Optimizer.mkParam "x" 0%float 10%float 5%float)
       (Optimizer.mkParam "x" 0%float 10%float 9%float)
       (Optimizer.mkParam "x" 0%float 10%float 8%float)
       (Optimizer.mkParam "x" 0%float 10%float 1%float)) = true.
Proof. apply de_trial_in_bounds; reflexivity. Defined.

(** X3. Simulated annealing: a coordinate of the neighbour is within the
    bounds of the parameter, when the bounds are ordered and the perturbed
    value is a number. *)
Theorem sa_neighbor_in_bounds (temp u : double) (param : Optimizer.Param) :
  (Optimizer.min_value param <=? Optimizer.max_value param)%float = true ->
  PrimFloat.is_nan
    (Optimizer.current_value param
     + (u * ((Optimizer.max_value param - Optimizer.min_value param) * temp / 100
             - - ((Optimizer.max_value param - Optimizer.min_value param) * temp / 100))
        + - ((Optimizer.max_value param - Optimizer.min_value param) * temp / 100)))%float
    = false ->
  Optimizer.in_bounds (Optimizer.sa_neighbor temp u param) = true.
Proof. intros Hle Hv. by apply clamped_in_bounds. Qed.

Lemma sa_neighbor_in_bounds_witness :
  Optimizer.in_bounds
    (Optimizer.sa_neighbor 100%float 0.9375%float
       (Optimizer.mkParam "x" 0%float 10%float 9%float)) = true.
Proof. apply sa_neighbor_in_bounds; reflexivity. Defined.

(** X5. [performAC] makes as many frequencies as points were asked for; for
    a count that is not positive it makes none, analyses nothing and leaves
    the analyzer as it is. *)
Theorem ac_frequencies_length (lm : Libm) (start_freq stop_freq : double) (points : Z) :
  length (ac_frequencies lm start_freq stop_freq points) = Z.to_nat points
  /\ ((points <= 0)%Z ->
      forall (qr : Solver) (a : CircuitAnalyzer),
        performAC qr lm a start_freq stop_freq points = Returns a).
Proof.
  split.
  - unfold ac_frequencies. by rewrite length_map, length_seq.
  - intros Hp qr a. unfold performAC, ac_frequencies.
    replace (Z.to_nat points) with 0%nat by lia. reflexivity.
Qed.

(** X6. For every circuit a program can build, the system [analyze] has
    solved has a zero right-hand side, whatever the sources of the circuit. *)
Theorem analyze_leaves_zero_rhs (qr : Solver) (lm : Libm) (a : CircuitAnalyzer) (f : double)
    (a' : CircuitAnalyzer) :
  built a -> analyze qr lm a f = Returns a' ->
  b_ a' = replicate (length (nodes_ a) - 1) C0.
Proof. apply analyze_rhs_zero. Qed.

Lemma analyze_leaves_zero_rhs_witness :
  b_ (match analyze identity_solver table_libm (voltage_divider 10%float) 0%float with
      | Returns a' => a'
      | _ => new_CircuitAnalyzer
      end)
  = replicate (length (nodes_ (voltage_divider 10%float)) - 1) C0.
Proof.
  apply (analyze_leaves_zero_rhs identity_solver table_libm (voltage_divider 10%float) 0%float).
  - unfold voltage_divider.
    apply built_setGroundNode, built_addComponent, built_addComponent, built_addComponent,
      built_new.
  - vm_compute. reflexivity.
Defined.

(* ===================================================================== *)
(** ** When [analyze] returns *)
(* ===================================================================== *)

Lemma forallb_pointwise {A} (p q : A -> bool) (l : list A) :
  (forall x, p x = q x) -> forallb p l = forallb q l.
Proof. intros H. induction l as [|x l IH]; cbn; [done|]. by rewrite H, IH. Qed.

Lemma dims_zero n m : dims (replicate n (replicate m C0)) = replicate n m.
Proof. unfold dims. rewrite fmap_replicate. by rewrite length_replicate. Qed.

(** Whether [analyze] returns is read off the layout of the circuit. *)
Lemma analyze_defined qr lm a f :
  voltage_sources_ a = [] -> is_defined (analyze qr lm a f) = analyze_ok a.
Proof.
  intros Hvs. rewrite analyze_without_sources by exact Hvs. unfold analyze_ok.
  destruct (nodes_ a) as [|n0 ns] eqn:Hns; [reflexivity|]. rewrite <- Hns.
  rewrite (is_defined_bind (fun _ => True) _ _
    (forallb (write_ok (nodes_ a) (length (store a))) (seq 0 (unknowns a))
     && forallb (update_ok (length (store a))) (components_ a))); [| done |].
  - rewrite fold_stamp_defined, dims_zero, andb_assoc. reflexivity.
  - intros A _.
    rewrite (is_defined_bind (fun st => length st = length (store a)) _ _
      (forallb (update_ok (length (store a))) (components_ a))).
    + by rewrite write_back_defined.
    + intros st H. by apply write_back_length in H.
    + intros st Hlen. rewrite (is_defined_bind_const _ _ true) by done.
      rewrite mapM_defined, andb_true_r.
      apply forallb_pointwise. intros c. by rewrite updateState_defined, Hlen.
Qed.

Lemma not_Returns_Undefined {A} (o : Outcome A) :
  no_throw o -> is_defined o = false -> o = Undefined.
Proof. destruct o as [x|e|]; [discriminate | intros H; destruct (H e eq_refl) | done]. Qed.

Lemma index_from_last ns n i :
  n ∉ ns -> index_from n (ns ++ [n]) i = (i + Z.of_nat (length ns))%Z.
Proof.
  revert i. induction ns as [|x ns IH]; intros i Hn; cbn.
  - rewrite decide_True by done. lia.
  - apply not_elem_of_cons in Hn as [Hne Hn].
    rewrite decide_False by congruence. rewrite IH by done. lia.
Qed.

(** X8. The matrix has one row and column per node but one, and the nodes
    keep their positions in [nodes_] as indices: when the last node of
    [nodes_] is not the ground, a component that is not a voltage source and
    has one of its two pins on that node is stamped outside the matrix, and
    [analyze] does not return. The circuit of [example.cpp] is one. *)
Theorem analyze_last_node_out_of_bounds (qr : Solver) (lm : Libm) (a : CircuitAnalyzer)
    (f : double) (ns : list nat) (n : nat) (c : Component) (i : nat) (p : Pin) :
  built a ->
  nodes_ a = ns ++ [n] -> n ∉ ns -> ground_node_ a <> Some n ->
  c ∈ components_ a -> type_ c <> VOLTAGE_SOURCE ->
  (i = 0 \/ i = 1)%nat -> pins_ c !! i = Some p -> node_ p = Some n ->
  analyze qr lm a f = Undefined.
Proof.
  intros Hb Hns Hn Hg Hc Ht Hi Hp Hnode.
  apply not_Returns_Undefined; [apply no_throw_analyze|].
  apply built_voltage_sources in Hb. rewrite analyze_defined by done.
  assert (getNodeIndex a (node_ p) = Z.of_nat (unknowns a)) as Hidx.
  { unfold getNodeIndex. rewrite Hnode, decide_False by congruence.
    rewrite Hns, index_from_last by done. unfold unknowns. rewrite Hns, length_app. cbn. lia. }
  assert (forall m, stamp_half_ok (replicate (unknowns a) (unknowns a))
                      (Z.of_nat (unknowns a)) m = false) as Hhalf.
  { intros m. unfold stamp_half_ok. destruct (Z.leb_spec 0 (Z.of_nat (unknowns a))); [|lia].
    apply andb_false_intro1. unfold mat_touch.
    destruct (Z.ltb_spec (Z.of_nat (unknowns a)) 0); [lia|]. cbn.
    rewrite Nat2Z.id. rewrite (proj1 (lookup_replicate_None _ _ _)); [done|lia]. }
  unfold analyze_ok. destruct (nodes_ a) as [|n0 ns0]; [done|].
  apply andb_false_intro1, andb_false_intro1.
  apply not_true_is_false. intros Hall.
  rewrite forallb_forall in Hall. specialize (Hall c).
  rewrite <- list_elem_of_In in Hall. specialize (Hall Hc).
  unfold stamp_component_ok in Hall. rewrite decide_False in Hall by done.
  apply andb_true_iff in Hall as [_ Hall].
  destruct (pins_ c !! 0%nat) as [p0|] eqn:E0; [|done].
  destruct (pins_ c !! 1%nat) as [p1|] eqn:E1; [|done].
  unfold stamp_ok in Hall. apply andb_true_iff in Hall as [H1 H2].
  destruct Hi as [-> | ->].
  - rewrite E0 in Hp. injection Hp as ->. by rewrite Hidx, Hhalf in H1.
  - rewrite E1 in Hp. injection Hp as ->. by rewrite Hidx, Hhalf in H2.
Qed.

Lemma analyze_last_node_out_of_bounds_witness :
  analyze identity_solver table_libm example_circuit 0%float = Undefined.
Proof.
  apply (analyze_last_node_out_of_bounds identity_solver table_libm example_circuit 0%float
           [0; 1; 2; 3; 4; 5; 6]%nat 7%nat example_R2 1%nat (mkPin "p2" (Some 7%nat))).
  - unfold example_circuit.
    apply built_setGroundNode; repeat apply built_addComponent; apply built_new.
  - reflexivity.
  - intros H. repeat (apply elem_of_cons in H as [H|H]; [discriminate H|]).
    by apply elem_of_nil in H.
  - discriminate.
  - vm_compute. do 3 right. left.
  - discriminate.
  - by right.
  - reflexivity.
  - reflexivity.
Defined.

(** X9. Whether [analyze] returns is a matter of the layout of the circuit
    alone: if it returns at one frequency with one solver and one <cmath>,
    it returns at every frequency with every solver and <cmath>. *)
Theorem analyze_returns_uniformly (qr qr' : Solver) (lm lm' : Libm) (f f' : double)
    (a a1 : CircuitAnalyzer) :
  built a -> analyze qr lm a f = Returns a1 ->
  exists a2, analyze qr' lm' a f' = Returns a2.
Proof.
  intros Hb H. apply built_voltage_sources in Hb.
  apply is_defined_true. rewrite analyze_defined by done.
  rewrite <- (analyze_defined qr lm a f) by done. by rewrite H.
Qed.

Lemma analyze_returns_uniformly_witness :
  exists a2, analyze constant_solver decade_libm grounded_source 1000%float = Returns a2.
Proof.
  apply (analyze_returns_uniformly identity_solver constant_solver table_libm decade_libm
           0%float 1000%float grounded_source grounded_source_analysed).
  - apply built_setGroundNode, built_addComponent, built_new.
  - vm_compute. reflexivity.
Defined.

(** X10. An analyzer with no node, the fresh one among them, is not
    analysed: the matrix would have -1 rows. *)
Theorem analyze_without_nodes (qr : Solver) (lm : Libm) (a : CircuitAnalyzer) (f : double) :
  built a -> nodes_ a = [] -> analyze qr lm a f = Undefined.
Proof.
  intros Hb Hn. apply built_voltage_sources in Hb.
  rewrite analyze_without_sources by done. by rewrite Hn.
Qed.

Lemma analyze_without_nodes_witness :
  analyze identity_solver table_libm new_CircuitAnalyzer 0%float = Undefined.
Proof. apply analyze_without_nodes; [apply built_new | reflexivity]. Defined.

(* ===================================================================== *)
(** ** What [analyze] writes, and what it leaves as it is *)
(* ===================================================================== *)

Lemma last_write_Some_inv ns x idxs n v :
  last_write ns x idxs n = Some v -> exists i, i ∈ idxs /\ ns !! i = Some n /\ v = x i.
Proof.
  induction idxs as [|j idxs IH]; cbn; [discriminate|].
  destruct (last_write ns x idxs n) as [w|].
  - intros [= <-]. destruct (IH eq_refl) as (i & Hi & Hn & Hv).
    exists i. split; [by right | done].
  - destruct (decide _) as [Hj|]; [|discriminate]. intros [= <-].
    exists j. split; [by left | done].
Qed.

Lemma last_write_None ns x idxs n :
  (forall i, i ∈ idxs -> ns !! i <> Some n) -> last_write ns x idxs n = None.
Proof.
  intros H. destruct (last_write ns x idxs n) as [v|] eqn:E; [|done].
  apply last_write_Some_inv in E as (i & Hi & Hn & _). by destruct (H i Hi).
Qed.

Lemma last_write_Some ns x idxs n i :
  NoDup ns -> i ∈ idxs -> ns !! i = Some n -> last_write ns x idxs n = Some (x i).
Proof.
  intros Hnd Hi Hn. induction idxs as [|j idxs IH]; [by apply elem_of_nil in Hi|]. cbn.
  destruct (last_write ns x idxs n) as [w|] eqn:E.
  - apply last_write_Some_inv in E as (k & _ & Hk & ->).
    by rewrite (NoDup_lookup _ _ _ _ Hnd Hk Hn).
  - apply elem_of_cons in Hi as [->|Hi]; [by rewrite decide_True | by apply IH in Hi].
Qed.

Lemma mapM_Returns {A B} (f : A -> Outcome B) (l : list A) (l' : list B) :
  Forall2 (fun x y => f x = Returns y) l l' -> mapM f l = Returns l'.
Proof. induction 1 as [|x y l l' Hxy _ IH]; cbn; [done|]. by rewrite Hxy, IH. Qed.

(** X11. The node voltages after [analyze]: the answer of the solver to the
    system left in [A_] and [b_], on every node of [nodes_] but the last,
    and on the last node the voltage it had (no voltage is written to it,
    ground or not). *)
Theorem analyze_node_voltages (qr : Solver) (lm : Libm) (a : CircuitAnalyzer) (f : double)
    (a' : CircuitAnalyzer) (ns : list nat) (n : nat) (nd : Node) :
  built a -> NoDup (nodes_ a) -> nodes_ a = ns ++ [n] -> store a !! n = Some nd ->
  analyze qr lm a f = Returns a' ->
  getNodeVoltages a' =
    Returns (map (qr (A_ a') (b_ a')) (seq 0 (length ns)) ++ [voltage_ nd]).
Proof.
  intros Hb Hnd Hns Hn H. apply built_voltage_sources in Hb.
  rewrite analyze_without_sources in H by done.
  destruct (nodes_ a) as [|n0 ns0] eqn:Hnodes; [discriminate H|]. rewrite <- Hnodes in *.
  apply bind_Returns in H as (A1 & _ & H).
  apply bind_Returns in H as (st1 & Hst1 & H).
  apply bind_Returns in H as (cs1 & _ & [= <-]).
  unfold getNodeVoltages. cbn [store nodes_ A_ b_ analysed].
  set (x := qr A1 (replicate (unknowns a) C0)) in *.
  assert (unknowns a = length ns) as Hu
    by (unfold unknowns; rewrite Hns, length_app; cbn; lia).
  rewrite Hu in Hst1.
  pose proof (write_back_lookup _ _ _ _ _ Hst1) as Hlook.
  assert (forallb (write_ok (nodes_ a) (length (store a))) (seq 0 (length ns)) = true) as Hok.
  { rewrite <- write_back_defined with (x := x). by rewrite Hst1. }
  apply mapM_Returns. rewrite Hns. apply Forall2_app.
  - apply Forall2_same_length_lookup_2; [by rewrite length_map, length_seq|].
    intros i m v Hm Hv. rewrite list_lookup_fmap in Hv.
    pose proof (lookup_lt_Some _ _ _ Hm) as Hi.
    rewrite lookup_seq_lt in Hv by done. injection Hv as <-.
    assert (nodes_ a !! i = Some m) as Hm' by (rewrite Hns; by apply lookup_app_l_Some).
    rewrite Hlook, (last_write_Some _ _ _ _ i Hnd) by (done || (apply elem_of_seq; lia)).
    rewrite forallb_forall in Hok. specialize (Hok i).
    rewrite <- list_elem_of_In, elem_of_seq in Hok. specialize (Hok ltac:(lia)).
    unfold write_ok in Hok. rewrite Hm' in Hok. apply bool_decide_eq_true_1 in Hok.
    destruct (lookup_lt_is_Some_2 (store a) m Hok) as [node ->]. reflexivity.
  - constructor; [|constructor].
    rewrite Hlook, last_write_None, Hn; [done|].
    intros i Hi Heq. apply elem_of_seq in Hi.
    assert (nodes_ a !! length ns = Some n) as Hlast
      by (rewrite Hns; apply list_lookup_middle; done).
    pose proof (NoDup_lookup _ _ _ _ Hnd Heq Hlast). lia.
Qed.

Lemma analyze_node_voltages_witness :
  getNodeVoltages grounded_source_analysed =
    Returns (map (identity_solver (A_ grounded_source_analysed) (b_ grounded_source_analysed))
               (seq 0 1) ++ [C0]).
Proof.
  apply (analyze_node_voltages identity_solver table_libm grounded_source 0%float
           grounded_source_analysed [0]%nat 1%nat (mkNode "n1" C0)).
  - apply built_setGroundNode, built_addComponent, built_new.
  - apply (bool_decide_unpack _). vm_compute. reflexivity.
  - reflexivity.
  - reflexivity.
  - vm_compute. reflexivity.
Defined.

Lemma updateState_interface lm st c dt c' :
  updateState lm st c dt = Returns c' -> same_interface c c'.
Proof.
  unfold updateState. destruct (derived c).
  - by intros [= <-].
  - intros H. apply bind_Returns in H as (i & _ & [= <-]). done.
  - intros H. apply bind_Returns in H as (v & _ & [= <-]). done.
  - by intros [= <-].
  - by intros [= <-].
Qed.

(** X12. [analyze] changes the system, the frequency, the voltages of the
    nodes and the private members of the components, and nothing else: the
    nodes, the ground, the clock and the timestep, the frequency response,
    the names of the nodes, and the name, type, pins and parameters of every
    component are what they were. *)
Theorem analyze_frame (qr : Solver) (lm : Libm) (a : CircuitAnalyzer) (f : double)
    (a' : CircuitAnalyzer) :
  built a -> analyze qr lm a f = Returns a' ->
  nodes_ a' = nodes_ a /\ ground_node_ a' = ground_node_ a
  /\ voltage_sources_ a' = voltage_sources_ a
  /\ time_ a' = time_ a /\ timestep_ a' = timestep_ a
  /\ next_node_id_ a' = next_node_id_ a
  /\ frequency_response_ a' = frequency_response_ a
  /\ current_frequency_ a' = f
  /\ Forall2 same_interface (components_ a) (components_ a')
  /\ map node_name (store a') = map node_name (store a).
Proof.
  intros Hb H. apply built_voltage_sources in Hb.
  rewrite analyze_without_sources in H by done.
  destruct (nodes_ a) as [|n0 ns0] eqn:Hnodes; [discriminate H|]. rewrite <- Hnodes in *.
  apply bind_Returns in H as (A1 & _ & H).
  apply bind_Returns in H as (st1 & Hst1 & H).
  apply bind_Returns in H as (cs1 & Hcs1 & [= <-]).
  cbn. repeat split; try done.
  - eapply mapM_Forall2; [|exact Hcs1]. intros c c'. apply updateState_interface.
  - apply list_eq. intros n. rewrite !list_lookup_fmap.
    rewrite (write_back_lookup _ _ _ _ _ Hst1 n).
    destruct (store a !! n) as [nd|]; cbn; [|done].
    by destruct (last_write _ _ _ n).
Qed.

Lemma analyze_frame_witness :
  nodes_ grounded_source_analysed = nodes_ grounded_source
  /\ ground_node_ grounded_source_analysed = ground_node_ grounded_source
  /\ voltage_sources_ grounded_source_analysed = voltage_sources_ grounded_source
  /\ time_ grounded_source_analysed = time_ grounded_source
  /\ timestep_ grounded_source_analysed = timestep_ grounded_source
  /\ next_node_id_ grounded_source_analysed = next_node_id_ grounded_source
  /\ frequency_response_ grounded_source_analysed = frequency_response_ grounded_source
  /\ current_frequency_ grounded_source_analysed = 0%float
  /\ Forall2 same_interface (components_ grounded_source)
       (components_ grounded_source_analysed)
  /\ map node_name (store grounded_source_analysed) = map node_name (store grounded_source).
Proof.
  apply (analyze_frame identity_solver table_libm grounded_source 0%float
           grounded_source_analysed).
  - apply built_setGroundNode, built_addComponent, built_new.
  - vm_compute. reflexivity.
Defined.

(* ===================================================================== *)
(** ** The assembled matrix is symmetric *)
(* ===================================================================== *)

Lemma mat_get_entry A i j v :
  mat_get A i j = Returns v -> entry A (Z.to_nat i) (Z.to_nat j) = Some v.
Proof.
  unfold mat_get, entry. destruct (_ || _)%Z; [discriminate|].
  destruct (A !! Z.to_nat i) as [row|]; cbn; [|discriminate].
  destruct (row !! Z.to_nat j); cbn; [|discriminate]. by intros [= <-].
Qed.

Lemma mat_get_of_entry A i j :
  mat_get A i j =
    if ((i <? 0) || (j <? 0))%Z then Undefined
    else of_option (entry A (Z.to_nat i) (Z.to_nat j)).
Proof.
  unfold mat_get, entry. destruct (_ || _)%Z; [done|].
  by destruct (A !! Z.to_nat i).
Qed.

Lemma mat_set_entry A i j v B i' j' :
  mat_set A i j v = Returns B ->
  entry B i' j' = if decide (i' = Z.to_nat i /\ j' = Z.to_nat j) then Some v else entry A i' j'.
Proof.
  unfold mat_set, entry. destruct (_ || _)%Z; [discriminate|].
  destruct (A !! Z.to_nat i) as [row|] eqn:Hrow; cbn; [|discriminate].
  destruct (row !! Z.to_nat j) as [old|] eqn:Hold; cbn; [|discriminate]. intros [= <-].
  pose proof (lookup_lt_Some _ _ _ Hrow) as Hi. pose proof (lookup_lt_Some _ _ _ Hold) as Hj.
  destruct (decide (i' = Z.to_nat i)) as [->|Hne].
  - rewrite list_lookup_insert_eq by done. cbn.
    destruct (decide (j' = Z.to_nat j)) as [->|Hne'].
    + rewrite list_lookup_insert_eq by done. by rewrite decide_True.
    + rewrite list_lookup_insert_ne by done. rewrite decide_False by tauto.
      by rewrite Hrow.
  - rewrite list_lookup_insert_ne by done. by rewrite decide_False by tauto.
Qed.

(** [A(i, j) += y] and [A(i, j) -= y] change the entry [(i, j)] and no other. *)
Lemma mat_add_entry A i j y B i' j' :
  mat_add A i j y = Returns B ->
  entry B i' j' =
    if decide (i' = Z.to_nat i /\ j' = Z.to_nat j)
    then (fun v => Cadd v y) <$> entry A i' j' else entry A i' j'.
Proof.
  unfold mat_add. intros H. apply bind_Returns in H as (v & Hv & H).
  rewrite (mat_set_entry _ _ _ _ _ i' j' H). apply mat_get_entry in Hv.
  destruct (decide _) as [[-> ->]|]; [|done]. by rewrite Hv.
Qed.

Lemma mat_sub_entry A i j y B i' j' :
  mat_sub A i j y = Returns B ->
  entry B i' j' =
    if decide (i' = Z.to_nat i /\ j' = Z.to_nat j)
    then (fun v => Csub v y) <$> entry A i' j' else entry A i' j'.
Proof.
  unfold mat_sub. intros H. apply bind_Returns in H as (v & Hv & H).
  rewrite (mat_set_entry _ _ _ _ _ i' j' H). apply mat_get_entry in Hv.
  destruct (decide _) as [[-> ->]|]; [|done]. by rewrite Hv.
Qed.

Ltac entry_cases :=
  repeat case_decide; destruct_and?; simplify_eq; try done; try (exfalso; naive_solver).

Lemma stamp_symmetric A n1 n2 y B :
  stamp A n1 n2 y = Returns B -> symmetric A -> symmetric B.
Proof.
  unfold stamp. intros H Hsym i j.
  apply bind_Returns in H as (A2 & H1 & H2).
  destruct (0 <=? n1)%Z eqn:E1, (0 <=? n2)%Z eqn:E2.
  - apply bind_Returns in H1 as (A1 & Ha & Hb). apply bind_Returns in H2 as (A3 & Hc & Hd).
    rewrite (mat_sub_entry _ _ _ _ _ i j Hd), (mat_sub_entry _ _ _ _ _ j i Hd).
    rewrite (mat_add_entry _ _ _ _ _ i j Hc), (mat_add_entry _ _ _ _ _ j i Hc).
    rewrite (mat_sub_entry _ _ _ _ _ i j Hb), (mat_sub_entry _ _ _ _ _ j i Hb).
    rewrite (mat_add_entry _ _ _ _ _ i j Ha), (mat_add_entry _ _ _ _ _ j i Ha).
    rewrite (Hsym j i). entry_cases.
  - apply bind_Returns in H1 as (A1 & Ha & [= <-]). injection H2 as <-.
    rewrite (mat_add_entry _ _ _ _ _ i j Ha), (mat_add_entry _ _ _ _ _ j i Ha).
    rewrite (Hsym j i). entry_cases.
  - injection H1 as <-. apply bind_Returns in H2 as (A3 & Hc & [= <-]).
    rewrite (mat_add_entry _ _ _ _ _ i j Hc), (mat_add_entry _ _ _ _ _ j i Hc).
    rewrite (Hsym j i). entry_cases.
  - injection H1 as <-. injection H2 as <-. apply Hsym.
Qed.

Lemma stamp_component_symmetric lm a A c B :
  stamp_component lm a A c = Returns B -> symmetric A -> symmetric B.
Proof.
  unfold stamp_component. destruct (decide _); [by intros [= <-]|].
  intros H. apply bind_Returns in H as (z & _ & H).
  apply bind_Returns in H as (p0 & _ & H). apply bind_Returns in H as (p1 & _ & H).
  exact (stamp_symmetric _ _ _ _ _ H).
Qed.

Lemma fold_stamp_symmetric lm a cs A B :
  foldM (stamp_component lm a) cs A = Returns B -> symmetric A -> symmetric B.
Proof.
  revert A. induction cs as [|c cs IH]; intros A; cbn.
  - by intros [= <-].
  - intros H Hsym. apply bind_Returns in H as (A1 & H1 & H).
    apply (IH _ H). exact (stamp_component_symmetric _ _ _ _ _ H1 Hsym).
Qed.

Lemma zero_entry n i j :
  entry (replicate n (replicate n C0)) i j
  = if decide (i < n /\ j < n) then Some C0 else None.
Proof.
  unfold entry. destruct (decide (i < n)) as [Hi|Hi].
  - rewrite lookup_replicate_2 by done. cbn. destruct (decide (j < n)) as [Hj|Hj].
    + rewrite lookup_replicate_2 by done. by rewrite decide_True.
    + rewrite (proj1 (lookup_replicate_None n _ j)) by lia. by rewrite decide_False by tauto.
  - rewrite (proj1 (lookup_replicate_None n _ i)) by lia. by rewrite decide_False by tauto.
Qed.

Lemma zero_symmetric n : symmetric (replicate n (replicate n C0)).
Proof. intros i j. rewrite !zero_entry. repeat case_decide; try done; exfalso; tauto. Qed.

(** X13. The matrix [analyze] leaves in [A_] has one row per node but one
    and is symmetric, entry for entry: every stamp adds the same admittance
    at [(n1, n2)] and at [(n2, n1)], in the same order. *)
Theorem analyze_matrix_symmetric (qr : Solver) (lm : Libm) (a : CircuitAnalyzer) (f : double)
    (a' : CircuitAnalyzer) :
  built a -> analyze qr lm a f = Returns a' ->
  length (A_ a') = (length (nodes_ a) - 1)%nat
  /\ forall i j : Z, mat_get (A_ a') i j = mat_get (A_ a') j i.
Proof.
  intros Hb H. apply built_voltage_sources in Hb.
  rewrite analyze_without_sources in H by done.
  destruct (nodes_ a) as [|n0 ns0] eqn:Hnodes; [discriminate H|]. rewrite <- Hnodes in *.
  apply bind_Returns in H as (A1 & HA1 & H).
  apply bind_Returns in H as (st1 & _ & H).
  apply bind_Returns in H as (cs1 & _ & [= <-]). cbn [A_ analysed].
  split.
  - apply fold_stamp_dims in HA1. apply (f_equal length) in HA1.
    unfold dims in HA1. rewrite !length_map, length_replicate in HA1. exact HA1.
  - intros i j. rewrite !mat_get_of_entry, (orb_comm (j <? 0)%Z).
    destruct (_ || _)%Z; [done|]. f_equal.
    apply (fold_stamp_symmetric _ _ _ _ _ HA1), zero_symmetric.
Qed.

Lemma analyze_matrix_symmetric_witness :
  length (A_ (match analyze identity_solver table_libm (voltage_divider 10%float) 0%float with
              | Returns a' => a'
              | _ => new_CircuitAnalyzer
              end))
  = (length (nodes_ (voltage_divider 10%float)) - 1)%nat
  /\ forall i j : Z,
       mat_get (A_ (match analyze identity_solver table_libm (voltage_divider 10%float)
                            0%float with
                    | Returns a' => a'
                    | _ => new_CircuitAnalyzer
                    end)) i j
       = mat_get (A_ (match analyze identity_solver table_libm (voltage_divider 10%float)
                              0%float with
                      | Returns a' => a'
                      | _ => new_CircuitAnalyzer
                      end)) j i.
Proof.
  apply (analyze_matrix_symmetric identity_solver table_libm (voltage_divider 10%float)
           0%float).
  - unfold voltage_divider.
    apply built_setGroundNode; repeat apply built_addComponent; apply built_new.
  - vm_compute. reflexivity.
Defined.

(* ===================================================================== *)
(** ** The AC sweep *)
(* ===================================================================== *)

Lemma getNodeVoltages_defined a : is_defined (getNodeVoltages a) = nodes_alive a.
Proof.
  unfold getNodeVoltages, nodes_alive. rewrite mapM_defined.
  apply forallb_pointwise. intros n.
  destruct (store a !! n) eqn:E; cbn; symmetry.
  - apply bool_decide_eq_true_2. by apply lookup_lt_Some in E.
  - apply bool_decide_eq_false_2. apply lookup_ge_None in E. lia.
Qed.

(** [analyze] keeps the layout that decides whether it returns. *)
Lemma analyze_keeps_layout qr lm a f a' :
  voltage_sources_ a = [] -> analyze qr lm a f = Returns a' ->
  voltage_sources_ a' = [] /\ analyze_ok a' = analyze_ok a /\ nodes_alive a' = nodes_alive a
  /\ nodes_ a' = nodes_ a /\ ground_node_ a' = ground_node_ a
  /\ frequency_response_ a' = frequency_response_ a.
Proof.
  intros Hvs H. rewrite analyze_without_sources in H by done.
  destruct (nodes_ a) as [|n0 ns0] eqn:Hnodes; [discriminate H|]. rewrite <- Hnodes in *.
  apply bind_Returns in H as (A1 & _ & H).
  apply bind_Returns in H as (st1 & Hst1 & H).
  apply bind_Returns in H as (cs1 & Hcs1 & [= <-]).
  apply write_back_length in Hst1.
  assert (Forall2 same_shape (components_ a) cs1) as Hshape.
  { eapply mapM_Forall2; [|exact Hcs1]. intros c c' Hc.
    exact (updateState_shape lm st1 c _ c' Hc). }
  split; [done|]. split.
  - unfold analyze_ok. cbn [nodes_ analysed components_ store].
    change (unknowns (analysed a f A1 st1 cs1)) with (unknowns a). rewrite Hst1.
    destruct (nodes_ a); [done|]. f_equal; [f_equal|]; symmetry.
    + apply (forallb_Forall2 _ _ same_shape); [|done].
      intros c c' Hc. apply stamp_component_ok_frame; [|done]. by repeat split.
    + apply (forallb_Forall2 _ _ same_shape); [|done].
      intros c c' Hc. by apply update_ok_shape.
  - split; [|done]. unfold nodes_alive. cbn. by rewrite Hst1.
Qed.

Lemma map_assign_length k v m : length (map_assign k v m) <= S (length m).
Proof.
  induction m as [|[k' v'] m IH]; cbn; [lia|].
  destruct (k' <? k)%float; cbn; [lia|]. destruct (k <? k')%float; cbn; lia.
Qed.

(** X14. If one [analyze] and one [getNodeVoltages] return on a circuit,
    then [performAC] returns on it for every start and stop frequency and
    every number of points; it leaves the nodes and the ground as they are
    and adds at most [points] entries to the frequency response. *)
Theorem performAC_returns (qr : Solver) (lm : Libm) (a : CircuitAnalyzer)
    (f0 : double) (a0 : CircuitAnalyzer) (vs : list Complex)
    (start_freq stop_freq : double) (points : Z) :
  built a -> analyze qr lm a f0 = Returns a0 -> getNodeVoltages a = Returns vs ->
  exists a',
    performAC qr lm a start_freq stop_freq points = Returns a'
    /\ nodes_ a' = nodes_ a /\ ground_node_ a' = ground_node_ a
    /\ length (frequency_response_ a')
       <= length (frequency_response_ a) + Z.to_nat points.
Proof.
  intros Hb H0 Hvs. apply built_voltage_sources in Hb.
  assert (analyze_ok a = true) as Hok
    by (rewrite <- (analyze_defined qr lm a f0) by done; by rewrite H0).
  assert (nodes_alive a = true) as Hal
    by (rewrite <- getNodeVoltages_defined; by rewrite Hvs).
  clear H0 Hvs. unfold performAC.
  assert (length (ac_frequencies lm start_freq stop_freq points) = Z.to_nat points) as <-
    by (unfold ac_frequencies; by rewrite length_map, length_seq).
  generalize (ac_frequencies lm start_freq stop_freq points) as fs. intros fs.
  revert a Hb Hok Hal. induction fs as [|f fs IH]; intros a Hb Hok Hal; cbn [foldM length].
  - exists a. repeat split; [done..|lia].
  - assert (exists a1, analyze qr lm a f = Returns a1) as [a1 H1]
      by (apply is_defined_true; by rewrite analyze_defined).
    destruct (analyze_keeps_layout _ _ _ _ _ Hb H1) as (Hb1 & Hok1 & Hal1 & Hn1 & Hg1 & Hr1).
    assert (exists v1, getNodeVoltages a1 = Returns v1) as [v1 Hv1]
      by (apply is_defined_true; rewrite getNodeVoltages_defined; congruence).
    assert (ac_sample qr lm a f
            = Returns (with_response a1 (map_assign f v1 (frequency_response_ a1)))) as ->
      by (unfold ac_sample; rewrite H1; cbn; by rewrite Hv1).
    cbn [mbind Outcome_bind].
    destruct (IH (with_response a1 (map_assign f v1 (frequency_response_ a1))))
      as (a' & Ha' & Hn & Hg & Hlen);
      [exact Hb1 | exact (eq_trans Hok1 Hok) | exact (eq_trans Hal1 Hal) |].
    exists a'. split; [done|].
    cbn in Hn, Hg, Hlen. split; [congruence|]. split; [congruence|].
    pose proof (map_assign_length f v1 (frequency_response_ a1)). rewrite Hr1 in *. lia.
Qed.

Lemma performAC_returns_witness :
  exists a',
    performAC identity_solver decade_libm grounded_source 1%float 1000%float 4 = Returns a'
    /\ nodes_ a' = nodes_ grounded_source /\ ground_node_ a' = ground_node_ grounded_source
    /\ length (frequency_response_ a')
       <= length (frequency_response_ grounded_source) + Z.to_nat 4.
Proof.
  apply (performAC_returns identity_solver decade_libm grounded_source 0%float
           grounded_source_analysed [C0; C0]).
  - apply built_setGroundNode, built_addComponent, built_new.
  - vm_compute. reflexivity.
  - vm_compute. reflexivity.
Defined.

Lemma is_finite_SF x :
  is_finite x = true ->
  (exists s, Prim2SF x = S754_zero s) \/ (exists s m e, Prim2SF x = S754_finite s m e).
Proof.
  unfold is_finite. intros H. apply andb_true_iff in H as [Hnan Hinf].
  apply negb_true_iff in Hnan, Hinf. apply is_nan_false in Hnan.
  unfold PrimFloat.is_infinity in Hinf.
  rewrite FloatAxioms.eqb_spec, FloatAxioms.abs_spec in Hinf.
  destruct (Prim2SF x) as [s|s| |s m e]; eauto.
  - cbn in Hinf. discriminate Hinf.
  - done.
Qed.

(** Adding zero times a finite number to a number gives a number equal to it. *)
Lemma add_zero_times_finite x s :
  PrimFloat.is_nan x = false -> is_finite s = true ->
  (x + 0 * s =? x)%float = true.
Proof.
  intros Hx Hs. apply is_nan_false in Hx.
  rewrite FloatAxioms.eqb_spec, FloatAxioms.add_spec, FloatAxioms.mul_spec.
  change (Prim2SF 0) with (S754_zero false).
  unfold SFeqb.
  destruct (is_finite_SF s Hs) as [[b ->]|(b & m & e & ->)]; cbn [SF64mul SFmul];
    destruct (Prim2SF x) as [sx|sx| |sx mx ex] eqn:E; try done; cbn.
  all: try (destruct sx, b; reflexivity).
  all: try (destruct sx; reflexivity).
  all: rewrite Z.compare_refl, Pos.compare_cont_refl; by destruct sx.
Qed.

(** X15. When at least one point is asked for and the step between the
    logarithms is finite (two points or more, and finite logarithms), the
    first frequency of the sweep is [pow(10, e)] for an exponent [e] equal to
    [log10(start_freq)]. *)
Theorem performAC_first_frequency (lm : Libm) (start_freq stop_freq : double) (points : Z) :
  (0 < points)%Z ->
  PrimFloat.is_nan (m_log10 lm start_freq) = false ->
  is_finite ((m_log10 lm stop_freq - m_log10 lm start_freq) / double_of_int (points - 1))
    = true ->
  exists e,
    head (ac_frequencies lm start_freq stop_freq points) = Some (m_pow lm 10%float e)
    /\ (e =? m_log10 lm start_freq)%float = true.
Proof.
  intros Hp Hnan Hfin. unfold ac_frequencies.
  destruct (Z.to_nat points) as [|k] eqn:E; [lia|]. cbn [seq map head].
  eexists. split; [reflexivity|].
  change (double_of_int (Z.of_nat 0)) with 0%float.
  by apply add_zero_times_finite.
Qed.

Lemma performAC_first_frequency_witness :
  exists e,
    head (ac_frequencies decade_libm 1%float 1000%float 4) = Some (m_pow decade_libm 10%float e)
    /\ (e =? m_log10 decade_libm 1%float)%float = true.
Proof. apply performAC_first_frequency; [lia | reflexivity | reflexivity]. Defined.

Lemma analyze_response qr lm a f a' :
  analyze qr lm a f = Returns a' -> frequency_response_ a' = frequency_response_ a.
Proof.
  unfold analyze, updateComponents. intros H.
  apply bind_Returns in H as (a1 & H1 & H). apply bind_Returns in H as (a2 & H2 & H).
  apply buildMNA_frame in H1 as (A & b & ->).
  apply solve_frame in H2 as (st & cs & ->).
  apply update_all_frame in H as (cs' & ->). reflexivity.
Qed.

Lemma SFcompare_numbers x y :
  x <> S754_nan -> y <> S754_nan -> exists c, SFcompare x y = Some c.
Proof.
  destruct x as [sx|sx| |sx mx ex], y as [sy|sy| |sy my ey]; cbn; intros Hx Hy; try done; eauto.
Qed.

(** Two numbers neither of which is below the other are equal. *)
Lemma ltb_false_eqb x y :
  PrimFloat.is_nan x = false -> PrimFloat.is_nan y = false ->
  (x <? y)%float = false -> (y <? x)%float = false -> (x =? y)%float = true.
Proof.
  rewrite !is_nan_false, !FloatAxioms.ltb_spec, FloatAxioms.eqb_spec.
  unfold SFltb, SFeqb. intros Hx Hy.
  rewrite (SFcompare_antisym (Prim2SF x) (Prim2SF y)).
  destruct (SFcompare_numbers _ _ Hx Hy) as [[| |] ->]; cbn; done.
Qed.

Lemma eqb_refl x : PrimFloat.is_nan x = false -> (x =? x)%float = true.
Proof.
  rewrite is_nan_false, FloatAxioms.eqb_spec. unfold SFeqb.
  intros H. by rewrite SFcompare_refl.
Qed.

Lemma keys_increase_cons k v k' v' rest :
  keys_increase ((k, v) :: (k', v') :: rest)
  = ((k <? k')%float && keys_increase ((k', v') :: rest)).
Proof. reflexivity. Qed.

Lemma map_assign_head k v m :
  exists k1 v1 rest, map_assign k v m = (k1, v1) :: rest
    /\ ((k1 = k) \/ exists v0 rest0, m = (k1, v0) :: rest0).
Proof.
  destruct m as [|[k' v'] m']; cbn; [by eauto 10|].
  destruct (k' <? k)%float; [by eauto 10|]. destruct (k <? k')%float; by eauto 10.
Qed.

(** [frequency_response_[k] = v] keeps the keys in increasing order, *)
Lemma map_assign_increase k v m :
  keys_increase m = true -> keys_increase (map_assign k v m) = true.
Proof.
  induction m as [|[k' v'] m IH]; [done|]. intros Hm. cbn [map_assign].
  destruct (k' <? k)%float eqn:E1.
  - assert (keys_increase m = true) as Hm'.
    { destruct m as [|[k2 v2] m2]; [done|].
      rewrite keys_increase_cons in Hm. by apply andb_true_iff in Hm as [_ ?]. }
    specialize (IH Hm').
    destruct (map_assign_head k v m) as (k1 & v1 & rest & Heq & Hk1).
    rewrite Heq in *. rewrite keys_increase_cons, IH, andb_true_r.
    destruct Hk1 as [->|(v0 & rest0 & ->)]; [done|].
    rewrite keys_increase_cons in Hm. by apply andb_true_iff in Hm as [? _].
  - destruct (k <? k')%float eqn:E2.
    + by rewrite keys_increase_cons, E2, Hm.
    + destruct m as [|[k2 v2] m2]; [done|]. exact Hm.
Qed.

(** keeps every key there was, *)
Lemma map_assign_keeps k v m k0 v0 :
  (k0, v0) ∈ m -> exists v1, (k0, v1) ∈ map_assign k v m.
Proof.
  induction m as [|[k' v'] m IH]; intros Hin; [by apply elem_of_nil in Hin|].
  cbn [map_assign]. apply elem_of_cons in Hin as [[= -> ->]|Hin].
  - destruct (k' <? k)%float; [exists v'; by left|].
    destruct (k <? k')%float; [exists v'; right; by left | exists v; by left].
  - destruct (k' <? k)%float.
    + destruct (IH Hin) as [v1 H1]. exists v1. by right.
    + destruct (k <? k')%float; [exists v0; right; by right | exists v0; by right].
Qed.

(** and leaves [v] under a key equal to [k], when the keys are numbers. *)
Lemma map_assign_records k v m :
  PrimFloat.is_nan k = false -> Forall key_is_number m ->
  exists k1, (k1 =? k)%float = true /\ (k1, v) ∈ map_assign k v m.
Proof.
  intros Hk Hm. induction m as [|[k' v'] m IH]; cbn [map_assign].
  - exists k. split; [by apply eqb_refl | by left].
  - apply Forall_cons in Hm as [Hk' Hm]. unfold key_is_number in Hk'. cbn in Hk'.
    destruct (k' <? k)%float eqn:E1.
    + destruct (IH Hm) as (k1 & Heq & Hin). exists k1. split; [done | by right].
    + destruct (k <? k')%float eqn:E2.
      * exists k. split; [by apply eqb_refl | by left].
      * exists k'. split; [by apply ltb_false_eqb | by left].
Qed.

Lemma map_assign_numbers k v m :
  PrimFloat.is_nan k = false -> Forall key_is_number m -> Forall key_is_number (map_assign k v m).
Proof.
  intros Hk Hm. induction m as [|[k' v'] m IH]; cbn [map_assign].
  - by repeat constructor.
  - apply Forall_cons in Hm as [Hk' Hm].
    destruct (k' <? k)%float; [constructor; [done | by apply IH]|].
    destruct (k <? k')%float; by repeat constructor.
Qed.

(** X19. When [performAC] returns and no frequency of the sweep, and no key
    of the frequency response there was, is a NaN: the frequency response
    has an entry under a key equal to each frequency of the sweep, it still
    has an entry under every key it had, and its keys are in increasing
    order if they were. *)
Theorem performAC_records (qr : Solver) (lm : Libm) (a : CircuitAnalyzer)
    (start_freq stop_freq : double) (points : Z) (a' : CircuitAnalyzer) :
  performAC qr lm a start_freq stop_freq points = Returns a' ->
  Forall key_is_number (frequency_response_ a) ->
  Forall (fun f => PrimFloat.is_nan f = false) (ac_frequencies lm start_freq stop_freq points) ->
  Forall (fun f => exists k vs, (k =? f)%float = true /\ (k, vs) ∈ frequency_response_ a')
    (ac_frequencies lm start_freq stop_freq points)
  /\ Forall (fun kv => exists vs, (kv.1, vs) ∈ frequency_response_ a') (frequency_response_ a)
  /\ (keys_increase (frequency_response_ a) = true ->
      keys_increase (frequency_response_ a') = true).
Proof.
  unfold performAC.
  generalize (ac_frequencies lm start_freq stop_freq points) as fs. intros fs.
  revert a. induction fs as [|f fs IH]; intros a; cbn [foldM].
  - intros [= <-] _ _. split; [constructor|]. split; [|done].
    apply Forall_forall. intros [k v] Hin. by exists v.
  - intros H Hnum Hfs. apply bind_Returns in H as (a1 & H1 & H).
    apply Forall_cons in Hfs as [Hf Hfs].
    unfold ac_sample in H1. apply bind_Returns in H1 as (a0 & H0 & H1).
    apply bind_Returns in H1 as (vs & _ & [= <-]).
    apply analyze_response in H0. specialize (IH _ H).
    cbn [frequency_response_ with_response] in IH. rewrite H0 in IH.
    destruct (IH (map_assign_numbers f vs _ Hf Hnum) Hfs) as (Hall & Hold & Hinc).
    rewrite Forall_forall in Hold.
    split; [|split].
    + constructor; [|done].
      destruct (map_assign_records f vs (frequency_response_ a) Hf Hnum) as (k1 & Heq & Hin).
      destruct (Hold _ Hin) as [vs' Hin']. by exists k1, vs'.
    + apply Forall_forall. intros [k v] Hin.
      destruct (map_assign_keeps f vs _ _ _ Hin) as [v1 Hin1]. exact (Hold _ Hin1).
    + intros Hk. apply Hinc. by apply map_assign_increase.
Qed.

Lemma performAC_records_witness :
  Forall (fun f => exists k vs,
            (k =? f)%float = true
            /\ (k, vs) ∈ frequency_response_
                 (match performAC identity_solver decade_libm grounded_source 1%float
                          1000%float 4 with
                  | Returns a' => a'
                  | _ => new_CircuitAnalyzer
                  end))
    (ac_frequencies decade_libm 1%float 1000%float 4)
  /\ Forall (fun kv => exists vs,
               (kv.1, vs) ∈ frequency_response_
                 (match performAC identity_solver decade_libm grounded_source 1%float
                          1000%float 4 with
                  | Returns a' => a'
                  | _ => new_CircuitAnalyzer
                  end))
       (frequency_response_ grounded_source)
  /\ (keys_increase (frequency_response_ grounded_source) = true ->
      keys_increase (frequency_response_
                       (match performAC identity_solver decade_libm grounded_source 1%float
                                1000%float 4 with
                        | Returns a' => a'
                        | _ => new_CircuitAnalyzer
                        end)) = true).
Proof.
  apply (performAC_records identity_solver decade_libm grounded_source 1%float 1000%float 4).
  - vm_compute. reflexivity.
  - constructor.
  - vm_compute. repeat constructor.
Defined.

(* ===================================================================== *)
(** ** The transient loop *)
(* ===================================================================== *)

Lemma no_throw_transient_step qr lm a dt : no_throw (transient_step qr lm a dt).
Proof.
  unfold transient_step. apply no_throw_bind; [apply no_throw_analyze|].
  intros a0. apply no_throw_update_all.
Qed.

Lemma transient_loop_stalls qr lm fuel a t stop_time timestep :
  (t <? stop_time)%float = true -> (t + timestep)%float = t ->
  transient_loop qr lm fuel a t stop_time timestep = None
  \/ transient_loop qr lm fuel a t stop_time timestep = Some Undefined.
Proof.
  intros Hstop Hstall. revert a.
  induction fuel as [|fuel IH]; intros a; cbn [transient_loop]; rewrite Hstop; [by left|].
  pose proof (no_throw_transient_step qr lm a timestep) as Hnt.
  destruct (transient_step qr lm a timestep) as [a1|e|].
  - rewrite Hstall. apply IH.
  - by destruct (Hnt e).
  - by right.
Qed.

(** With a timestep of 1 the clock stalls at 2^53, below a stop time of 1e17. *)
Example transient_loop_stalls_at_2_53 qr lm fuel a :
  transient_loop qr lm fuel a 9007199254740992%float 1e17%float 1%float = None
  \/ transient_loop qr lm fuel a 9007199254740992%float 1e17%float 1%float = Some Undefined.
Proof. apply transient_loop_stalls; reflexivity. Qed.

(** X16. Once the clock of [performTransient] no longer advances
    ([t + timestep] is [t], below the stop time) the loop never ends:
    whatever the number of turns allowed, the call has not returned (or an
    analysis went out of bounds). When this is so of the clock 0 the loop
    starts from (a timestep of zero), [performTransient] never returns. *)
Theorem performTransient_clock_stalls (qr : Solver) (lm : Libm) (fuel : nat)
    (a : CircuitAnalyzer) (t stop_time timestep : double) :
  (t <? stop_time)%float = true -> (t + timestep)%float = t ->
  (transient_loop qr lm fuel a t stop_time timestep = None
   \/ transient_loop qr lm fuel a t stop_time timestep = Some Undefined)
  /\ (t = 0%float ->
      performTransient qr lm fuel a stop_time timestep = None
      \/ performTransient qr lm fuel a stop_time timestep = Some Undefined).
Proof.
  intros Hstop Hstall. split; [by apply transient_loop_stalls|].
  intros ->. by apply transient_loop_stalls.
Qed.

Lemma performTransient_clock_stalls_witness :
  (transient_loop identity_solver table_libm 100 grounded_source 0%float 1%float 0%float = None
   \/ transient_loop identity_solver table_libm 100 grounded_source 0%float 1%float 0%float
      = Some Undefined)
  /\ (0%float = 0%float ->
      performTransient identity_solver table_libm 100 grounded_source 1%float 0%float = None
      \/ performTransient identity_solver table_libm 100 grounded_source 1%float 0%float
         = Some Undefined).
Proof. apply performTransient_clock_stalls; reflexivity. Defined.

Lemma transient_loop_reaches_stop qr lm fuel a t stop_time dt a' :
  transient_loop qr lm fuel a t stop_time dt = Some (Returns a') ->
  ((t <? stop_time)%float = false /\ a' = a) \/ (time_ a' <? stop_time)%float = false.
Proof.
  revert a t. induction fuel as [|fuel IH]; intros a t; cbn [transient_loop];
    destruct (t <? stop_time)%float eqn:Ht.
  - discriminate.
  - intros [= <-]. by left.
  - destruct (transient_step qr lm a dt) as [a1| |]; [|discriminate|discriminate].
    intros H. apply IH in H as [[Hlt ->]|H]; right; [exact Hlt | exact H].
  - intros [= <-]. by left.
Qed.

(** X17. When [performTransient] returns, the clock [time_] is not below the
    stop time, unless the stop time is not above zero: then no step was
    made and the analyzer is as it was. *)
Theorem performTransient_reaches_stop_time (qr : Solver) (lm : Libm) (fuel : nat)
    (a : CircuitAnalyzer) (stop_time dt : double) (a' : CircuitAnalyzer) :
  performTransient qr lm fuel a stop_time dt = Some (Returns a') ->
  ((0 <? stop_time)%float = false /\ a' = a) \/ (time_ a' <? stop_time)%float = false.
Proof. apply transient_loop_reaches_stop. Qed.

Lemma performTransient_reaches_stop_time_witness :
  ((0 <? 1e-5)%float = false
   /\ match performTransient identity_solver table_libm 1 grounded_source 1e-5%float
              1e-5%float with
      | Some (Returns a') => a'
      | _ => new_CircuitAnalyzer
      end = grounded_source)
  \/ (time_ match performTransient identity_solver table_libm 1 grounded_source 1e-5%float
                    1e-5%float with
            | Some (Returns a') => a'
            | _ => new_CircuitAnalyzer
            end <? 1e-5)%float = false.
Proof.
  apply (performTransient_reaches_stop_time identity_solver table_libm 1 grounded_source
           1e-5%float 1e-5%float).
  vm_compute. reflexivity.
Defined.

(* ===================================================================== *)
(** ** Adding components, and the indices of the nodes *)
(* ===================================================================== *)

Lemma fresh_nodes_S next k :
  fresh_nodes next (S k) = mkNode ("n" +:+ pretty next) C0 :: fresh_nodes (next + 1) k.
Proof.
  unfold fresh_nodes. cbn [seq map]. rewrite Z.add_0_r. f_equal.
  rewrite <- seq_shift, map_map. apply map_ext. intros i. do 3 f_equal. lia.
Qed.

Lemma connect_fresh_fold pins ps0 ns0 st0 next0 :
  exists ps',
    fold_left connect_fresh pins (ps0, ns0, st0, next0)
    = (ps0 ++ ps',
       ns0 ++ seq (length st0) (fresh_before (length pins) pins),
       st0 ++ fresh_nodes next0 (fresh_before (length pins) pins),
       (next0 + Z.of_nat (fresh_before (length pins) pins))%Z)
    /\ length ps' = length pins
    /\ forall j p, pins !! j = Some p -> ps' !! j = Some (connected (length st0) pins j p).
Proof.
  revert ps0 ns0 st0 next0. induction pins as [|p pins IH]; intros ps0 ns0 st0 next0.
  - exists []. cbn. rewrite !app_nil_r, Z.add_0_r. repeat split. intros j p Hj. done.
  - cbn [fold_left]. unfold connect_fresh at 2. unfold fresh_before.
    cbn [length take]. destruct (node_ p) as [n|] eqn:Hp.
    + destruct (IH (ps0 ++ [p]) ns0 st0 next0) as (ps' & -> & Hlen & Hps).
      exists (p :: ps'). rewrite <- app_assoc.
      rewrite filter_cons_False by (rewrite Hp; done).
      repeat split; [cbn; by rewrite Hlen|].
      intros [|j] q Hq; cbn in Hq.
      * injection Hq as <-. unfold connected. by rewrite Hp.
      * change (ps' !! j = Some (connected (length st0) (p :: pins) (S j) q)). rewrite (Hps j q Hq). f_equal.
        unfold connected, fresh_before. cbn [take].
        rewrite filter_cons_False by (rewrite Hp; done). done.
    + unfold new_Node.
      destruct (IH (ps0 ++ [connectTo p (length st0)]) (ns0 ++ [length st0])
                  (st0 ++ [mkNode ("n" +:+ pretty next0) C0]) (next0 + 1)%Z)
        as (ps' & -> & Hlen & Hps).
      exists (connectTo p (length st0) :: ps'). rewrite <- !app_assoc.
      rewrite filter_cons_True by done. cbn [length].
      rewrite fresh_nodes_S, length_app. cbn [length app seq].
      repeat split.
      * unfold fresh_before.
        replace (length st0 + 1) with (S (length st0)) by lia.
        replace (next0 + 1 + Z.of_nat (length (filter (λ p0 : Pin, node_ p0 = None) (take (length pins) pins))))%Z
          with (next0 + Z.of_nat (S (length (filter (λ p0 : Pin, node_ p0 = None) (take (length pins) pins)))))%Z by lia.
        reflexivity.
      * by rewrite Hlen.
      * intros [|j] q Hq; cbn in Hq.
        -- injection Hq as <-. unfold connected, fresh_before. rewrite Hp. cbn.
           by rewrite Nat.add_0_r.
        -- change (ps' !! j = Some (connected (length st0) (p :: pins) (S j) q)). rewrite (Hps j q Hq). f_equal.
           unfold connected, fresh_before. cbn [take].
           rewrite filter_cons_True by done. cbn [length].
           destruct (node_ q); [done|]. f_equal. rewrite length_app. cbn [length]. lia.
Qed.

Lemma fresh_before_all pins :
  fresh_before (length pins) pins = length (filter (fun p => node_ p = None) pins).
Proof. unfold fresh_before. by rewrite firstn_all. Qed.

(** A pin without a node is counted from the next position on. *)
Lemma fresh_before_lt pins j j' p :
  j < j' -> pins !! j = Some p -> node_ p = None ->
  fresh_before j pins < fresh_before j' pins.
Proof.
  unfold fresh_before. revert j j'. induction pins as [|x l IH]; intros j j' Hlt Hj Hp; [done|].
  destruct j' as [|i']; [lia|]. destruct j as [|i]; cbn in Hj.
  - injection Hj as ->. cbn [take]. rewrite filter_cons_True by done. cbn. lia.
  - cbn [take]. assert (i < i') as Hi by lia. specialize (IH i i' Hi Hj Hp).
    destruct (decide (node_ x = None)) as [Hx|Hx].
    + rewrite !filter_cons_True by done. cbn [length]. lia.
    + rewrite !filter_cons_False by done. done.
Qed.

Lemma addComponent_shape (a : CircuitAnalyzer) (c : Component) :
  exists ps : list Pin,
    components_ (addComponent a c) = components_ a ++ [set_pins c ps]
    /\ length ps = length (pins_ c)
    /\ (forall j p, pins_ c !! j = Some p ->
          ps !! j = Some (connected (length (store a)) (pins_ c) j p))
    /\ nodes_ (addComponent a c)
       = nodes_ a ++ seq (length (store a)) (fresh_before (length (pins_ c)) (pins_ c))
    /\ store (addComponent a c)
       = store a ++ fresh_nodes (next_node_id_ a) (fresh_before (length (pins_ c)) (pins_ c))
    /\ next_node_id_ (addComponent a c)
       = (next_node_id_ a + Z.of_nat (fresh_before (length (pins_ c)) (pins_ c)))%Z
    /\ ground_node_ (addComponent a c) = ground_node_ a.
Proof.
  unfold addComponent.
  destruct (connect_fresh_fold (pins_ c) [] (nodes_ a) (store a) (next_node_id_ a))
    as (ps & -> & Hlen & Hps).
  exists ps. cbn. repeat split; done.
Qed.

(** X18. [addComponent] appends the component with every pin connected: a
    pin that had a node keeps it; a pin that had none gets a node of its
    own, made for it at the address after the store and after the nodes of
    the pins before it, registered in [nodes_] in pin order, named from the
    counter and at 0 V, and given to no other pin of the component (nor to
    a pin that was on a node of the store). As many nodes as there were
    unconnected pins are made; [next_node_id_] grows by their number. The
    components and nodes already there, and the ground, stay. So when the
    nodes of [nodes_] are distinct nodes of the store they are so
    afterwards: no node is registered twice. *)
Theorem addComponent_connects_every_pin (a : CircuitAnalyzer) (c : Component) :
  (exists ps : list Pin,
     components_ (addComponent a c) = components_ a ++ [set_pins c ps]
     /\ length ps = length (pins_ c)
     /\ (forall j p, pins_ c !! j = Some p ->
           ps !! j = Some (connected (length (store a)) (pins_ c) j p)))
  /\ (forall j p, pins_ c !! j = Some p ->
        pin_name (connected (length (store a)) (pins_ c) j p) = pin_name p
        /\ (forall n, node_ p = Some n ->
              node_ (connected (length (store a)) (pins_ c) j p) = Some n)
        /\ (node_ p = None ->
              node_ (connected (length (store a)) (pins_ c) j p)
                = Some (length (store a) + fresh_before j (pins_ c))
              /\ nodes_ (addComponent a c) !! (length (nodes_ a) + fresh_before j (pins_ c))
                   = Some (length (store a) + fresh_before j (pins_ c))
              /\ store (addComponent a c) !! (length (store a) + fresh_before j (pins_ c))
                   = Some (mkNode ("n" +:+ pretty (next_node_id_ a
                                                   + Z.of_nat (fresh_before j (pins_ c)))%Z) C0)
              /\ forall j' p', j' <> j -> pins_ c !! j' = Some p' ->
                   (forall n, node_ p' = Some n -> n < length (store a)) ->
                   node_ (connected (length (store a)) (pins_ c) j' p')
                   <> Some (length (store a) + fresh_before j (pins_ c))))
  /\ nodes_ (addComponent a c)
     = nodes_ a ++ seq (length (store a)) (length (filter (fun p => node_ p = None) (pins_ c)))
  /\ store (addComponent a c)
     = store a ++ fresh_nodes (next_node_id_ a)
                    (length (filter (fun p => node_ p = None) (pins_ c)))
  /\ next_node_id_ (addComponent a c)
     = (next_node_id_ a + Z.of_nat (length (filter (fun p => node_ p = None) (pins_ c))))%Z
  /\ ground_node_ (addComponent a c) = ground_node_ a
  /\ (NoDup (nodes_ a) -> Forall (fun n => n < length (store a)) (nodes_ a) ->
      NoDup (nodes_ (addComponent a c))
      /\ Forall (fun n => n < length (store (addComponent a c))) (nodes_ (addComponent a c))).
Proof.
  destruct (addComponent_shape a c) as (ps & Hcs & Hlen & Hps & Hns & Hst & Hnext & Hg).
  rewrite fresh_before_all in Hns, Hst, Hnext.
  split; [by exists ps|].
  split; [|split; [exact Hns|split; [exact Hst|split; [exact Hnext|split; [exact Hg|]]]]].
  - intros j p Hj. unfold connected. split; [by destruct (node_ p)|].
    split; [intros n Hn; by rewrite Hn|]. intros Hp. rewrite Hp. split; [done|].
    assert (fresh_before j (pins_ c) < length (filter (fun p => node_ p = None) (pins_ c)))
      as Hlt.
    { rewrite <- fresh_before_all. apply (fresh_before_lt _ _ _ p); [|done|done].
      by apply lookup_lt_Some in Hj. }
    split; [|split].
    + rewrite Hns, lookup_app_r by lia.
      replace (length (nodes_ a) + fresh_before j (pins_ c) - length (nodes_ a))
        with (fresh_before j (pins_ c)) by lia.
      by rewrite lookup_seq_lt.
    + rewrite Hst, lookup_app_r by lia.
      replace (length (store a) + fresh_before j (pins_ c) - length (store a))
        with (fresh_before j (pins_ c)) by lia.
      unfold fresh_nodes. rewrite list_lookup_fmap, lookup_seq_lt by done. done.
    + intros j' p' Hne Hj' Hlive. destruct (node_ p') as [n|] eqn:Hp'.
      * rewrite Hp'. intros [= ->]. specialize (Hlive _ eq_refl). lia.
      * intros [= Heq].
        destruct (Nat.lt_total j j') as [Hl|[->|Hl]]; [|done|].
        -- pose proof (fresh_before_lt _ _ _ _ Hl Hj Hp). lia.
        -- pose proof (fresh_before_lt _ _ _ _ Hl Hj' Hp'). lia.
  - intros Hnd Hlt. rewrite Hns, Hst. split.
    + apply NoDup_app. split; [done|]. split; [|apply NoDup_seq].
      intros n Hn Hs. apply elem_of_seq in Hs. rewrite Forall_forall in Hlt.
      specialize (Hlt n Hn). lia.
    + rewrite length_app. apply Forall_app. split.
      * eapply Forall_impl; [exact Hlt|]. cbn. intros; lia.
      * apply Forall_forall. intros n Hn. apply elem_of_seq in Hn.
        unfold fresh_nodes. rewrite length_map, length_seq. lia.
Qed.

(** X20. [getNodeIndex] answers -1 for the ground, for the null pointer and
    for a node that is not in [nodes_] (a node the caller made and connected
    is never registered); for any other node it answers the first position
    of the node in [nodes_]. *)
Theorem getNodeIndex_lookup (a : CircuitAnalyzer) (node : option nat) :
  (getNodeIndex a node = (-1)%Z
   /\ (node = ground_node_ a \/ node = None \/ exists n, node = Some n /\ n ∉ nodes_ a))
  \/ (exists (n k : nat),
        node = Some n /\ node <> ground_node_ a
        /\ getNodeIndex a node = Z.of_nat k
        /\ nodes_ a !! k = Some n
        /\ forall j, j < k -> nodes_ a !! j <> Some n).
Proof.
  unfold getNodeIndex. destruct (decide (node = ground_node_ a)) as [Hg|Hg].
  { left. split; [done | by left]. }
  destruct node as [n|]; [|left; split; [done | right; by left]].
  destruct (decide (n ∈ nodes_ a)) as [Hin|Hnot].
  - right. destruct (index_from_lookup n (nodes_ a) 0 Hin) as (k & Hk & Hl & Hfirst).
    exists n, k. repeat split; done.
  - left. split; [by apply index_from_notin|]. right; right. eauto.
Qed.

(* ===================================================================== *)
(** ** Components: parameters and state *)
(* ===================================================================== *)

(** X21. [getParameter] after [setParameter]: the value set, for the name
    set, and the value there was for any other name; a second [setParameter]
    on a name overwrites the first; the name, type, pins and private members
    of the component are not touched. *)
Theorem setParameter_getParameter (c : Component) (k name : string) (v w : double) :
  getParameter (setParameter c k v) name = (if decide (name = k) then v else getParameter c name)
  /\ setParameter (setParameter c k v) k w = setParameter c k w
  /\ name_ (setParameter c k v) = name_ c /\ type_ (setParameter c k v) = type_ c
  /\ pins_ (setParameter c k v) = pins_ c /\ derived (setParameter c k v) = derived c.
Proof.
  split; [|split; [|done]].
  - destruct (decide (name = k)) as [->|Hne].
    + apply getParameter_setParameter_eq.
    + apply getParameter_setParameter_ne. congruence.
  - unfold setParameter. cbn. f_equal. apply insert_insert_eq.
Qed.

(** X22. [updateState] changes the private members of a component and
    nothing a caller reads through the base class: name, type, pins and
    parameters stay, and the class stays. So the impedance of a component
    that is not a diode is after the update what it was before, at every
    frequency and whatever the node voltages. *)
Theorem updateState_keeps_interface (lm : Libm) (st : list Node) (c : Component)
    (dt : double) (c' : Component) :
  updateState lm st c dt = Returns c' ->
  name_ c' = name_ c /\ type_ c' = type_ c /\ pins_ c' = pins_ c
  /\ parameters_ c' = parameters_ c
  /\ same_class (derived c) (derived c')
  /\ (state_free c = true ->
      forall st' f, getImpedance lm st' c' f = getImpedance lm st c f).
Proof.
  intros H. pose proof (updateState_shape lm st c dt c' H) as Hs.
  destruct (updateState_interface lm st c dt c' H) as (Hn & _).
  destruct Hs as (Ht & Hp & Hq & Hc) eqn:E. repeat split; try done.
  intros Hfree st' f. symmetry. by apply getImpedance_state_free.
Qed.

Lemma updateState_keeps_interface_witness :
  name_ (set_derived inductor_at_rest (InductorD (0 + 0 * 1e-6) 0)) = name_ inductor_at_rest
  /\ type_ (set_derived inductor_at_rest (InductorD (0 + 0 * 1e-6) 0))
     = type_ inductor_at_rest
  /\ pins_ (set_derived inductor_at_rest (InductorD (0 + 0 * 1e-6) 0))
     = pins_ inductor_at_rest
  /\ parameters_ (set_derived inductor_at_rest (InductorD (0 + 0 * 1e-6) 0))
     = parameters_ inductor_at_rest
  /\ same_class (derived inductor_at_rest)
       (derived (set_derived inductor_at_rest (InductorD (0 + 0 * 1e-6) 0)))
  /\ (state_free inductor_at_rest = true ->
      forall st' f,
        getImpedance table_libm st'
          (set_derived inductor_at_rest (InductorD (0 + 0 * 1e-6) 0)) f
        = getImpedance table_libm two_nodes_at_rest inductor_at_rest f).
Proof.
  apply (updateState_keeps_interface table_libm two_nodes_at_rest inductor_at_rest
           1e-6%float).
  vm_compute. reflexivity.
Defined.

(** X23. A voltage source under any run of [updateState] calls: every call
    returns, the time of the source is the time it had plus the timesteps,
    added in order, and its current, parameters and pins stay. A DC source
    (frequency parameter 0) reports its voltage parameter as the voltage
    across it, whatever its time and the voltages of its nodes. *)
Theorem source_time_accumulates (lm : Libm) (st : list Node) (c : Component)
    (current : Complex) (time : double) (dts : list double) :
  derived c = VoltageSourceD current time ->
  exists c',
    updateStates lm st c dts = Returns c'
    /\ derived c' = VoltageSourceD current (fold_left PrimFloat.add dts time)
    /\ parameters_ c' = parameters_ c /\ pins_ c' = pins_ c
    /\ ((getParameter c "frequency" =? 0)%float = true ->
        forall st', getVoltageAcross lm st' c'
                    = Returns (mkComplex (getParameter c "voltage") 0%float)).
Proof.
  unfold updateStates. revert c time.
  induction dts as [|dt dts IH]; intros c time Hd; cbn [foldM fold_left].
  - exists c. split; [done|]. split; [done|]. split; [done|]. split; [done|].
    intros Hf st'. unfold getVoltageAcross. by rewrite Hd, Hf.
  - assert (updateState lm st c dt
            = Returns (set_derived c (VoltageSourceD current (time + dt)%float))) as ->
      by (unfold updateState; by rewrite Hd).
    cbn [mbind Outcome_bind].
    destruct (IH (set_derived c (VoltageSourceD current (time + dt)%float)) (time + dt)%float)
      as (c' & H & Hd' & Hq & Hp & Hv); [done|].
    exists c'. split; [done|]. split; [done|]. split; [done|]. split; [done|]. exact Hv.
Qed.

Lemma source_time_accumulates_witness :
  exists c',
    updateStates table_libm [] (VoltageSource "V1" 10%float 0%float) [1e-6; 1e-5]%float
    = Returns c'
    /\ derived c' = VoltageSourceD C0 (fold_left PrimFloat.add [1e-6; 1e-5]%float 0%float)
    /\ parameters_ c' = parameters_ (VoltageSource "V1" 10%float 0%float)
    /\ pins_ c' = pins_ (VoltageSource "V1" 10%float 0%float)
    /\ ((getParameter (VoltageSource "V1" 10%float 0%float) "frequency" =? 0)%float = true ->
        forall st', getVoltageAcross table_libm st' c'
                    = Returns (mkComplex (getParameter (VoltageSource "V1" 10%float 0%float)
                                            "voltage") 0%float)).
Proof. apply source_time_accumulates. reflexivity. Defined.

(** X7. A diode, wherever its pins are connected, has the impedance
    [vt / 0] = +infinity at every frequency when the voltage across it has
    modulus zero, for an [exp] with [exp(0) = 1]: the current [is * (exp(0) -
    1)] is zero and the quotient has no guard. *)
Theorem diode_impedance_unbounded (lm : Libm) (st : list Node) (name : string)
    (pins : list Pin) (v : Complex) (f : double) :
  m_exp lm 0%float = 1%float ->
  getVoltageAcross lm st (set_pins (Diode name) pins) = Returns v ->
  Cabs v = 0%float ->
  getImpedance lm st (set_pins (Diode name) pins) f = Returns (mkComplex infinity 0%float)
  /\ Cfinite (mkComplex infinity 0%float) = false.
Proof.
  intros Hexp Hv Habs. split; [|reflexivity].
  unfold getImpedance. cbn [derived set_pins Diode addPin setParameter new_Component].
  rewrite Hv. cbn [mbind Outcome_bind]. rewrite Habs.
  change (getParameter (set_pins (Diode name) pins) "vt") with 0.026%float.
  change (getParameter (set_pins (Diode name) pins) "is") with 1e-12%float.
  change (0 / 0.026)%float with 0%float. rewrite Hexp. reflexivity.
Qed.

Lemma diode_impedance_unbounded_witness :
  getImpedance table_libm two_nodes_at_rest (set_pins (Diode "D1") diode_pins) 50%float
  = Returns (mkComplex infinity 0%float)
  /\ Cfinite (mkComplex infinity 0%float) = false.
Proof.
  apply (diode_impedance_unbounded table_libm two_nodes_at_rest "D1" diode_pins C0 50%float);
    reflexivity.
Defined.

(* ===================================================================== *)
(** ** AdvancedAnalysis.hpp *)
(* ===================================================================== *)

Lemma analyzeStability_metrics qr lm a f m a' :
  analyzeStability qr lm a f = Returns (m, a') ->
  m = stability_metrics (s_of_z (mkTwoPort C0 C0 C0 C0)) /\ analyze qr lm a f = Returns a'.
Proof.
  unfold analyzeStability, calculateSParameters, calculateZParameters.
  destruct (analyze qr lm a f) as [a1| |]; cbn; [|discriminate|discriminate].
  by intros [= <- <-].
Qed.

(** X24. [analyzeStability] never finds a circuit unconditionally stable:
    the Z-parameters it converts are the zeros of the placeholder, so for
    every circuit and every frequency the metrics have a NaN [k_factor], a
    determinant of squared modulus 1 and the flag unset; the analyzer is left
    as [analyze] at that frequency leaves it. *)
Theorem analyzeStability_never_stable (qr : Solver) (lm : Libm) (a : CircuitAnalyzer)
    (frequency : double) (m : StabilityMetrics) (a' : CircuitAnalyzer) :
  analyzeStability qr lm a frequency = Returns (m, a') ->
  unconditionally_stable m = false
  /\ PrimFloat.is_nan (k_factor m) = true
  /\ Cnorm (delta m) = 1%float
  /\ analyze qr lm a frequency = Returns a'.
Proof.
  intros H. apply analyzeStability_metrics in H as [-> H]. by repeat split.
Qed.

Lemma analyzeStability_never_stable_witness :
  unconditionally_stable (stability_metrics (s_of_z (mkTwoPort C0 C0 C0 C0))) = false
  /\ PrimFloat.is_nan (k_factor (stability_metrics (s_of_z (mkTwoPort C0 C0 C0 C0)))) = true
  /\ Cnorm (delta (stability_metrics (s_of_z (mkTwoPort C0 C0 C0 C0)))) = 1%float
  /\ analyze identity_solver table_libm grounded_source 0%float
     = Returns grounded_source_analysed.
Proof.
  apply (analyzeStability_never_stable identity_solver table_libm grounded_source 0%float).
  vm_compute. reflexivity.
Defined.

Lemma foldM_appends {S B X} (P : X -> Prop) (proj : S -> list X)
    (step : S -> B -> Outcome S) (idxs : list B) (acc res : S) :
  (forall s i s', step s i = Returns s' -> exists x, proj s' = proj s ++ [x] /\ P x) ->
  foldM step idxs acc = Returns res ->
  exists xs, proj res = proj acc ++ xs /\ length xs = length idxs /\ Forall P xs.
Proof.
  intros Hstep. revert acc. induction idxs as [|i idxs IH]; intros acc; cbn [foldM].
  - intros [= <-]. exists []. by rewrite app_nil_r.
  - intros H. apply bind_Returns in H as (acc1 & H1 & H).
    apply Hstep in H1 as (x & Hx & HP). apply IH in H as (xs & Hxs & Hlen & Hall).
    exists (x :: xs). rewrite Hxs, Hx, <- app_assoc. cbn. split; [done|].
    split; [by rewrite Hlen | by constructor].
Qed.

(** X25. When [analyzeStabilityVsFrequency] returns, it returns as many
    metrics as points were asked for (none for a count that is not
    positive), and none of them has the flag [unconditionally_stable] set. *)
Theorem analyzeStabilityVsFrequency_never_stable (qr : Solver) (lm : Libm)
    (a : CircuitAnalyzer) (freq_start freq_stop : double) (points : Z)
    (results : list StabilityMetrics) (a' : CircuitAnalyzer) :
  analyzeStabilityVsFrequency qr lm a freq_start freq_stop points = Returns (results, a') ->
  length results = Z.to_nat points
  /\ Forall (fun m => unconditionally_stable m = false) results.
Proof.
  unfold analyzeStabilityVsFrequency. intros H.
  apply (foldM_appends (fun m => unconditionally_stable m = false) fst) in H
    as (xs & Hxs & Hlen & Hall).
  - cbn in Hxs. subst xs. by rewrite length_seq in Hlen.
  - intros s i s' Hs. apply bind_Returns in Hs as ([m a1] & Hm & [= <-]).
    exists m. split; [done|]. by apply analyzeStability_metrics in Hm as [-> _].
Qed.

Lemma analyzeStabilityVsFrequency_never_stable_witness :
  length (match analyzeStabilityVsFrequency identity_solver decade_libm grounded_source
                  1%float 1000%float 4 with
          | Returns (results, _) => results
          | _ => []
          end) = Z.to_nat 4
  /\ Forall (fun m => unconditionally_stable m = false)
       (match analyzeStabilityVsFrequency identity_solver decade_libm grounded_source
                1%float 1000%float 4 with
        | Returns (results, _) => results
        | _ => []
        end).
Proof.
  apply (analyzeStabilityVsFrequency_never_stable identity_solver decade_libm grounded_source
           1%float 1000%float 4 _
           (match analyzeStabilityVsFrequency identity_solver decade_libm grounded_source
                    1%float 1000%float 4 with
            | Returns (_, a') => a'
            | _ => new_CircuitAnalyzer
            end)).
  vm_compute. reflexivity.
Defined.

(** X26. [analyzeSensitivity] with at least one parameter does not return:
    [findComponentByParameter] is a placeholder that answers the null
    pointer, and the first turn of the loop reads a parameter through it. *)
Theorem analyzeSensitivity_dereferences_null (qr : Solver) (lm : Libm) (a : CircuitAnalyzer)
    (parameters : list string) (tolerances : list double) (frequency : double) :
  parameters <> [] ->
  analyzeSensitivity qr lm a parameters tolerances frequency = Undefined.
Proof.
  intros Hne. unfold analyzeSensitivity.
  pose proof (no_throw_analyze qr lm a frequency) as Hnt.
  destruct (analyze qr lm a frequency) as [a1|e|]; cbn [mbind Outcome_bind];
    [|by destruct (Hnt e)|done].
  pose proof (no_throw_mapM (fun n => nd ← of_option (store a1 !! n); Returns (voltage_ nd))
                (nodes_ a1)) as Hnv.
  unfold getNodeVoltages.
  destruct (mapM _ (nodes_ a1)) as [vs|e|]; cbn [mbind Outcome_bind]; [| |done].
  - destruct parameters as [|p ps]; [done|]. cbn [length seq foldM].
    unfold sensitivity_of at 1. cbn. by destruct (tolerances !! 0%nat).
  - exfalso. apply (Hnv ltac:(intros n; no_throw_tac) e). reflexivity.
Qed.

Lemma analyzeSensitivity_dereferences_null_witness :
  analyzeSensitivity identity_solver table_libm grounded_source ["voltage"%string]
    [0.05%float] 0%float = Undefined.
Proof. apply analyzeSensitivity_dereferences_null. discriminate. Defined.

Lemma no_throw_noise_term lm st f noise source : no_throw (noise_term lm st f noise source).
Proof. unfold noise_term. no_throw_tac; auto with outcome. Qed.

Lemma total_noise_loop_stalls lm st fuel sources f frequency_stop total :
  (f <=? frequency_stop)%float = true -> (f * 1.1)%float = f ->
  total_noise_loop lm st fuel sources f frequency_stop total = None
  \/ total_noise_loop lm st fuel sources f frequency_stop total = Some Undefined.
Proof.
  intros H Hstall. revert total.
  induction fuel as [|fuel IH]; intros total; cbn [total_noise_loop]; rewrite H; [by left|].
  pose proof (no_throw_foldM (noise_term lm st f) sources total
                (no_throw_noise_term lm st f)) as Hnt.
  destruct (foldM _ sources total) as [t|e|]; [|by destruct (Hnt e)|by right].
  rewrite Hstall. apply IH.
Qed.

(** X27. [calculateTotalNoise] steps the frequency by [f *= 1.1]: from a
    start frequency that the step leaves as it is (0, or an infinity) and
    that is not above the stop frequency, the loop never ends. Whatever the
    number of turns allowed, the call has not returned (or a noise source
    went out of bounds). With a start frequency above the stop frequency
    the loop is not entered and the noise is 0. *)
Theorem calculateTotalNoise_stalls (lm : Libm) (st : list Node)
    (sources : list NoiseSource) (fuel : nat) (frequency_start frequency_stop : double) :
  (frequency_start <=? frequency_stop)%float = true ->
  (frequency_start * 1.1)%float = frequency_start ->
  (calculateTotalNoise lm st fuel sources frequency_start frequency_stop = None
   \/ calculateTotalNoise lm st fuel sources frequency_start frequency_stop = Some Undefined)
  /\ forall above,
       (above <=? frequency_stop)%float = false ->
       calculateTotalNoise lm st fuel sources above frequency_stop = Some (Returns 0%float).
Proof.
  intros H0 Hstall. split; [by apply total_noise_loop_stalls|].
  intros above H. unfold calculateTotalNoise. destruct fuel; cbn; by rewrite H.
Qed.

Lemma calculateTotalNoise_stalls_witness :
  (calculateTotalNoise table_libm two_nodes_at_rest 100
     [mkNoiseSource FLICKER 1e-9%float inductor_at_rest] 0%float 1000%float = None
   \/ calculateTotalNoise table_libm two_nodes_at_rest 100
        [mkNoiseSource FLICKER 1e-9%float inductor_at_rest] 0%float 1000%float
      = Some Undefined)
  /\ forall above,
       (above <=? 1000)%float = false ->
       calculateTotalNoise table_libm two_nodes_at_rest 100
         [mkNoiseSource FLICKER 1e-9%float inductor_at_rest] above 1000%float
       = Some (Returns 0%float).
Proof. apply calculateTotalNoise_stalls; reflexivity. Defined.

(** With no noise source the spectrum is zero at every point. *)
Lemma calculateNoiseSpectrum_no_sources lm st frequency_start frequency_stop points :
  calculateNoiseSpectrum lm st [] frequency_start frequency_stop points
  = Returns (replicate (Z.to_nat points) 0%float).
Proof.
  unfold calculateNoiseSpectrum. cbn [foldM mbind Outcome_bind].
  generalize (Z.to_nat points) as n. intros n.
  assert (forall start k (g : nat -> double),
            foldM (fun spectrum (i : nat) => Returns (spectrum ++ [0%float]))
                  (seq start n) (replicate k 0%float)
            = Returns (replicate (k + n) 0%float)) as H.
  { induction n as [|n IH]; intros start k g; cbn [seq foldM].
    - by rewrite Nat.add_0_r.
    - cbn [mbind Outcome_bind].
      replace (replicate k 0%float ++ [0%float]) with (replicate (S k) 0%float)
        by (rewrite replicate_S_end; reflexivity).
      rewrite IH by done. f_equal. f_equal. lia. }
  exact (H 0%nat 0%nat (fun _ => 0%float)).
Qed.

(* ===================================================================== *)
(** ** The optimizers *)
(* ===================================================================== *)

(** X28. [evaluateFitness] returns exactly when the measurement function
    gives at least one value per objective (it reads [measurements[i]] for
    every objective, unchecked); it then draws nothing from the random
    engine and has passed the one vector to the measurement function. *)
Theorem evaluateFitness_needs_measurements (o : Optimizer.RFOptimizer) (r : Optimizer.Run)
    (individual : list Optimizer.Param) :
  (exists fitness r', Optimizer.evaluateFitness o r individual = Returns (fitness, r')
                      /\ Optimizer.draws r' = Optimizer.draws r
                      /\ Optimizer.measured r' = Optimizer.measured r ++ [individual])
  <-> length (Optimizer.objectives_ o) <= length (Optimizer.measurement_func_ o individual).
Proof.
  unfold Optimizer.evaluateFitness.
  set (ms := Optimizer.measurement_func_ o individual).
  set (objs := Optimizer.objectives_ o).
  set (step := fun fitness i => _).
  assert (forall n k fitness, k + n <= length objs ->
            (exists x, foldM step (seq k n) fitness = Returns x) <-> k + n <= length ms \/ n = 0)
    as Hfold.
  { induction n as [|n IH]; intros k fitness Hk; cbn [seq foldM].
    - split; [by right | eauto].
    - subst step. cbn beta.
      destruct (lookup_lt_is_Some_2 objs k ltac:(lia)) as [obj ->].
      cbn [of_option mbind Outcome_bind].
      destruct (ms !! k) as [v|] eqn:Hv; cbn [of_option mbind Outcome_bind].
      + rewrite IH by lia. apply lookup_lt_Some in Hv. split; [|intros [?|?]; [left; lia|lia]].
        intros [?|?]; left; lia.
      + apply lookup_ge_None in Hv. split; [intros [x Hx]; discriminate Hx|].
        intros [?|?]; lia. }
  specialize (Hfold (length objs) 0 0%float ltac:(lia)). split.
  - intros (fitness & r' & H & _). apply bind_Returns in H as (x & Hx & _).
    destruct (proj1 Hfold (ex_intro _ x Hx)) as [?|?]; lia.
  - intros Hlen. destruct (proj2 Hfold (or_introl Hlen)) as [x Hx].
    exists x, (Optimizer.mkRun (Optimizer.draws r) (Optimizer.measured r ++ [individual])).
    rewrite Hx. done.
Qed.

Lemma reflect_prefix (centroid point : list Optimizer.Param) (coefficient : double) (k : nat)
    (result : list Optimizer.Param) :
  foldM (fun result i =>
           c ← of_option (centroid !! i);
           p ← of_option (point !! i);
           ri ← of_option (result !! i);
           let v := (Optimizer.current_value c
                     + coefficient * (Optimizer.current_value c - Optimizer.current_value p))%float in
           Returns (<[i := Optimizer.clamped ri v]> result))
        (seq 0 k) centroid = Returns result ->
  k <= length centroid
  /\ forall i c, centroid !! i = Some c ->
       if decide (i < k)
       then exists p, point !! i = Some p
                      /\ result !! i = Some (Optimizer.clamped c (reflected coefficient c p))
       else result !! i = Some c.
Proof.
  revert result. induction k as [|k IH]; intros result.
  - cbn. intros [= <-]. split; [lia|]. intros i c Hc. by rewrite decide_False by lia.
  - rewrite seq_S, foldM_app. cbn [foldM]. intros H.
    apply bind_Returns in H as (r1 & Hr1 & H). apply IH in Hr1 as [Hk Hr1].
    apply bind_Returns in H as (r2 & H & [= <-]).
    apply bind_Returns in H as (c & Hc & H). apply bind_Returns in H as (p & Hp & H).
    apply bind_Returns in H as (ri & Hri & [= <-]). cbn in Hc, Hp, Hri.
    destruct (centroid !! k) as [c'|] eqn:Ec; [|discriminate Hc]. injection Hc as ->.
    destruct (point !! k) as [p'|] eqn:Ep; [|discriminate Hp]. injection Hp as ->.
    destruct (r1 !! k) as [ri'|] eqn:Er; [|discriminate Hri]. injection Hri as ->.
    pose proof (lookup_lt_Some _ _ _ Ec). split; [lia|].
    pose proof (Hr1 k c Ec) as Hkk. rewrite decide_False in Hkk by lia.
    rewrite Er in Hkk. injection Hkk as ->.
    intros i c' Hc'. specialize (Hr1 i c' Hc').
    destruct (decide (i = k)) as [->|Hne].
    + rewrite decide_True by lia. rewrite Ec in Hc'. injection Hc' as <-.
      exists p. split; [done|]. rewrite list_lookup_insert_eq; [done|].
      by apply lookup_lt_Some in Er.
    + rewrite list_lookup_insert_ne by done.
      destruct (decide (i < k)); [rewrite decide_True by lia | rewrite decide_False by lia];
        done.
Qed.

Lemma reflect_length o centroid point coefficient result :
  Optimizer.reflect o centroid point coefficient = Returns result ->
  length result = length centroid.
Proof.
  unfold Optimizer.reflect. generalize (seq 0 (length (Optimizer.parameters_ o))) as idxs.
  intros idxs. generalize centroid at 2 3 as r0. revert result.
  induction idxs as [|i idxs IH]; intros result r0; cbn [foldM].
  - by intros [= <-].
  - intros H. apply bind_Returns in H as (r1 & Hr1 & H). apply IH in H. rewrite H.
    apply bind_Returns in Hr1 as (c & _ & Hr1). apply bind_Returns in Hr1 as (p & _ & Hr1).
    apply bind_Returns in Hr1 as (ri & _ & [= <-]). apply length_insert.
Qed.

(** X29. The point [NelderMead::reflect] returns (a reflection, an expansion
    or a contraction, by the coefficient) has every value within the bounds
    of its parameter, and the names and bounds of the centroid, when the
    centroid has no more coordinates than the optimizer has parameters, its
    bounds are ordered and no value computed is a NaN. *)
Theorem reflect_in_bounds (o : Optimizer.RFOptimizer) (centroid point : list Optimizer.Param)
    (coefficient : double) (result : list Optimizer.Param) :
  Optimizer.reflect o centroid point coefficient = Returns result ->
  length centroid <= length (Optimizer.parameters_ o) ->
  Forall (fun c => (Optimizer.min_value c <=? Optimizer.max_value c)%float = true) centroid ->
  (forall i c p, centroid !! i = Some c -> point !! i = Some p ->
     PrimFloat.is_nan
       (Optimizer.current_value c
        + coefficient * (Optimizer.current_value c - Optimizer.current_value p))%float = false) ->
  Forall (fun r => Optimizer.in_bounds r = true) result
  /\ Forall2 (fun c r => Optimizer.name r = Optimizer.name c
                         /\ Optimizer.min_value r = Optimizer.min_value c
                         /\ Optimizer.max_value r = Optimizer.max_value c) centroid result.
Proof.
  intros H Hlen Hord Hnan. pose proof (reflect_length _ _ _ _ _ H) as Hl.
  apply reflect_prefix in H as [Hk H].
  assert (forall i c, centroid !! i = Some c ->
            exists p, point !! i = Some p
                      /\ result !! i = Some (Optimizer.clamped c (reflected coefficient c p)))
    as Hall.
  { intros i c Hc. specialize (H i c Hc). rewrite decide_True in H; [done|].
    apply lookup_lt_Some in Hc. lia. }
  clear H. split.
  - apply Forall_lookup. intros i r Hr.
    destruct (lookup_lt_is_Some_2 centroid i) as [c Hc];
      [rewrite <- Hl; by apply lookup_lt_Some in Hr|].
    destruct (Hall i c Hc) as (p & Hp & Hr'). rewrite Hr in Hr'. injection Hr' as ->.
    apply clamped_in_bounds.
    + rewrite Forall_lookup in Hord. by apply (Hord i).
    + by apply (Hnan i).
  - apply Forall2_same_length_lookup_2; [done|]. intros i c r Hc Hr.
    destruct (Hall i c Hc) as (p & Hp & Hr'). rewrite Hr in Hr'. by injection Hr' as ->.
Qed.

Lemma reflect_in_bounds_witness :
  Forall (fun r => Optimizer.in_bounds r = true) [Optimizer.mkParam "x" 0%float 10%float 10%float]
  /\ Forall2 (fun c r => Optimizer.name r = Optimizer.name c
                         /\ Optimizer.min_value r = Optimizer.min_value c
                         /\ Optimizer.max_value r = Optimizer.max_value c)
       [Optimizer.mkParam "x" 0%float 10%float 9.625%float]
       [Optimizer.mkParam "x" 0%float 10%float 10%float].
Proof.
  apply (reflect_in_bounds dip_optimizer
           [Optimizer.mkParam "x" 0%float 10%float 9.625%float]
           [Optimizer.mkParam "x" 0%float 10%float 8.875%float] 2%float).
  - vm_compute. reflexivity.
  - vm_compute. lia.
  - repeat constructor.
  - intros [|i] c p Hc Hp; [|discriminate Hc].
    injection Hc as <-. injection Hp as <-. reflexivity.
Defined.

(** X30. The loop of [DifferentialEvolution::optimize] that draws three
    distinct indices, all different from [i], never ends when the population
    has three individuals or fewer: whatever indices within the population
    are drawn, two of the four are the same. *)
Theorem select_three_small_population (population_size : Z) (ints : nat -> Z) (i : Z)
    (fuel k : nat) :
  (population_size <= 3)%Z ->
  (forall j, 0 <= ints j <= population_size - 1)%Z ->
  (0 <= i < population_size)%Z ->
  Optimizer.select_three fuel ints k i = None.
Proof.
  intros Hpop Hints Hi. revert k. induction fuel as [|fuel IH]; intros k; cbn; [done|].
  assert (Optimizer.drawn_again (ints k) (ints (S k)) (ints (S (S k))) i = true) as ->;
    [|apply IH].
  pose proof (Hints k). pose proof (Hints (S k)). pose proof (Hints (S (S k))).
  unfold Optimizer.drawn_again. rewrite !orb_true_iff, !Z.eqb_eq. lia.
Qed.

Lemma select_three_small_population_witness :
  Optimizer.select_three 1000 round_robin 0 0 = None.
Proof.
  apply (select_three_small_population 3).
  - lia.
  - intros j. unfold round_robin. pose proof (Nat.mod_upper_bound j 3). lia.
  - lia.
Defined.
